(** * Maximum flow: the Ford-Fulkerson and Edmonds-Karp engines

    A shallow embedding of [ford_fulkerson/ford_fulkerson.hpp] and
    [edmonds_karp/edmonds_karp.hpp], followed by the verification of the
    augmenting-path loop: feasibility of the flow matrix at every write,
    conservation between augmentations, termination, and maximality through
    the saturated cut left by the last (failed) search. *)

From Stdlib Require Import ZArith Lia List Bool.
From stdpp Require Import base list sets.

Local Open Scope Z_scope.
Local Set Warnings "-clear-no-such-hyp".

(** ** Machine integers

    [weight_t], [index_t], [capacity_t] and [bool_t] are all [std::int32_t].
    Values are integers of [Z]; every addition and subtraction the source
    performs on a [capacity_t] is followed by [wrap32], the two's-complement
    wrap-around of the compiled program (the C++ standard itself leaves
    signed overflow undefined). *)

Definition int32_max : Z := 2147483647.
Definition int32_min : Z := -2147483648.

Definition wrap32 (z : Z) : Z :=
  (z + 2147483648) mod 4294967296 - 2147483648.

Module limits.
(** [inf = numeric_limits<weight_t>::max() / 3] and
    [nil = numeric_limits<index_t>::min() / 3]; C++ division truncates. *)
Definition inf : Z := Eval cbv in int32_max ÷ 3.
Definition nil : Z := Eval cbv in int32_min ÷ 3.
End limits.

(** ** Vectors and matrices

    [array_t = vector<weight_t>], [matrix_t = vector<array_t>],
    [stamps_t = vector<bool_t>] (only ever holding [false] or [true]).
    Vertices are indices of [nat]; an adjacency row is a [list nat].  The
    predecessor array [pi] also has to hold [limits::nil], a negative number,
    so it is a [list Z].  Indexing outside a vector is undefined in the
    source: here a read outside yields [0] (or [false], or the empty row) and
    a write outside leaves the vector as it is.  All results below are
    stated for indices inside the vectors. *)

Abbreviation array_t := (list Z).
Abbreviation matrix_t := (list (list Z)).
Abbreviation stamps_t := (list bool).

Definition get (m : matrix_t) (u v : nat) : Z :=
  default 0 (default [] (m !! u) !! v).

Definition set (m : matrix_t) (u v : nat) (x : Z) : matrix_t :=
  alter (fun row => <[v := x]> row) u m.

Definition stamp (vs : stamps_t) (v : nat) : bool := default false (vs !! v).

Definition adj (G : list (list nat)) (u : nat) : list nat := default [] (G !! u).

(** [cf(u, v)]: [return c[u][v] - f[u][v];] *)
Definition residual (cm fm : matrix_t) (u v : nat) : Z :=
  wrap32 (get cm u v - get fm u v).

(** [f[u][v] += d] and [f[v][u] -= d]. *)
Definition add_at (fm : matrix_t) (u v : nat) (d : Z) : matrix_t :=
  set fm u v (wrap32 (get fm u v + d)).

Definition sub_at (fm : matrix_t) (u v : nat) (d : Z) : matrix_t :=
  set fm u v (wrap32 (get fm u v - d)).

(** The input graph: [edge] with its [src], [dst] and the capacity member of
    the union [{w, c}]; [graph_t = vector<edges_t>]. *)
Record edge := Edge { src : nat; dst : nat; cap : Z }.
Abbreviation edges_t := (list edge).
Abbreviation graph_t := (list (list edge)).

(** ** struct ford_fulkerson *)

Module ford_fulkerson.

(** The members of the struct, and [hist]: ghost state, the values the
    matrix [f] has taken inside [compute], newest first.  Nothing reads
    [hist]; it is there to state properties of the intermediate matrices. *)
Record t := mk {
  visited : stamps_t;
  c : matrix_t;
  f : matrix_t;
  Gf : list (list nat);
  n : nat;
  augment : Z;
  hist : list matrix_t
}.

(** [explicit ford_fulkerson(std::size_t size)] *)
Definition init (size : nat) : t :=
  {| visited := [];
     c := replicate size (replicate size 0);
     f := replicate size (replicate size 0);
     Gf := replicate size [];
     n := size; augment := 0; hist := [] |}.

(** [add_edge(u, v, cap)]: four stores and two [push_back]s, no test. *)
Definition add_edge (u v : nat) (cap : Z) (e : t) : t :=
  let c1 := set (c e) u v cap in
  let f1 := set (f e) u v 0 in
  let c2 := set c1 v u 0 in
  let f2 := set f1 v u 0 in
  let G1 := alter (fun row => row ++ [v]) u (Gf e) in
  let G2 := alter (fun row => row ++ [u]) v G1 in
  {| visited := visited e; c := c2; f := f2; Gf := G2;
     n := n e; augment := augment e; hist := hist e |}.

(** [explicit ford_fulkerson(const graph_t& G)]: the edges of [G[0]],
    [G[1]], ... in order, each through [add_edge(e.src, e.dst, e.c)]. *)
Definition of_graph (G : graph_t) : t :=
  fold_left (fun e ed => add_edge (src ed) (dst ed) (cap ed) e)
            (concat G) (init (length G)).

Definition cf (e : t) (u v : nat) : Z := residual (c e) (f e) u v.

Definition set_visited (vs : stamps_t) (e : t) : t :=
  {| visited := vs; c := c e; f := f e; Gf := Gf e;
     n := n e; augment := augment e; hist := hist e |}.

Definition set_augment (a : Z) (e : t) : t :=
  {| visited := visited e; c := c e; f := f e; Gf := Gf e;
     n := n e; augment := a; hist := hist e |}.

(** A store into [f]; the new matrix is also recorded in [hist]. *)
Definition write_f (fm : matrix_t) (e : t) : t :=
  {| visited := visited e; c := c e; f := fm; Gf := Gf e;
     n := n e; augment := augment e; hist := fm :: hist e |}.

(** [f[u][v] += cf_p; f[v][u] -= cf_p;] *)
Definition push (u v : nat) (cf_p : Z) (e : t) : t :=
  let e1 := write_f (add_at (f e) u v cf_p) e in
  write_f (sub_at (f e1) v u cf_p) e1.

(** The [for (auto&& v : Gf[u])] loop of [dfs_visit], over the part [vs] of
    the row that is still to be scanned; [visit] is the recursive call. *)
Fixpoint explore (visit : t -> nat -> Z -> option (t * Z))
         (u : nat) (flow : Z) (vs : list nat) (e : t) : option (t * Z) :=
  match vs with
  | [] => Some (e, 0)
  | v :: rest =>
      if stamp (visited e) v || (cf e u v =? 0) then explore visit u flow rest e
      else
        match visit e v (Z.min flow (cf e u v)) with
        | None => None
        | Some (e', cf_p) =>
            if 0 <? cf_p then Some (push u v cf_p e', cf_p)
            else explore visit u flow rest e'
        end
  end.

(** [dfs_visit(u, t, flow)].  [fuel] bounds the depth of the recursion;
    [None] is "deeper than [fuel]". *)
Fixpoint dfs_visit (fuel : nat) (e : t) (u t_ : nat) (flow : Z) : option (t * Z) :=
  match fuel with
  | O => None
  | S k =>
      let e1 := set_visited (<[u := true]> (visited e)) e in
      if Nat.eqb u t_ then Some (e1, flow)
      else explore (fun e' v fl => dfs_visit k e' v t_ fl) u flow (adj (Gf e1) u) e1
  end.

(** [dfs(u, t)]: the recursion visits every vertex at most once, so its
    depth is at most [n]. *)
Definition dfs (e : t) (u t_ : nat) : option (t * bool) :=
  let e0 := set_visited (replicate (n e) false) e in
  match dfs_visit (n e) e0 u t_ limits.inf with
  | None => None
  | Some (e1, r) => Some (set_augment r e1, 0 <? r)
  end.

(** The [while (dfs(s, t)) { flow += augment; }] loop of [compute], run
    for at most [fuel] tests of its condition. *)
Fixpoint loop (fuel : nat) (e : t) (s t_ : nat) (flow : Z) : option (t * Z) :=
  match fuel with
  | O => None
  | S k =>
      match dfs e s t_ with
      | None => None
      | Some (e', true) => loop k e' s t_ (wrap32 (flow + augment e'))
      | Some (e', false) => Some (e', flow)
      end
  end.

Definition compute (fuel : nat) (e : t) (s t_ : nat) : option (t * Z) :=
  loop fuel e s t_ 0.

End ford_fulkerson.

(** ** struct edmonds_karp *)

Module edmonds_karp.

Record t := mk {
  pi : list Z;
  visited : stamps_t;
  c : matrix_t;
  f : matrix_t;
  Gf : list (list nat);
  n : nat;
  hist : list matrix_t
}.

Definition init (size : nat) : t :=
  {| pi := replicate size 0;
     visited := replicate size false;
     c := replicate size (replicate size 0);
     f := replicate size (replicate size 0);
     Gf := replicate size [];
     n := size; hist := [] |}.

Definition add_edge (u v : nat) (cap : Z) (e : t) : t :=
  let c1 := set (c e) u v cap in
  let f1 := set (f e) u v 0 in
  let c2 := set c1 v u 0 in
  let f2 := set f1 v u 0 in
  let G1 := alter (fun row => row ++ [v]) u (Gf e) in
  let G2 := alter (fun row => row ++ [u]) v G1 in
  {| pi := pi e; visited := visited e; c := c2; f := f2; Gf := G2;
     n := n e; hist := hist e |}.

Definition of_graph (G : graph_t) : t :=
  fold_left (fun e ed => add_edge (src ed) (dst ed) (cap ed) e)
            (concat G) (init (length G)).

Definition cf (e : t) (u v : nat) : Z := residual (c e) (f e) u v.

Definition set_search (p : list Z) (vs : stamps_t) (e : t) : t :=
  {| pi := p; visited := vs; c := c e; f := f e; Gf := Gf e;
     n := n e; hist := hist e |}.

Definition write_f (fm : matrix_t) (e : t) : t :=
  {| pi := pi e; visited := visited e; c := c e; f := fm; Gf := Gf e;
     n := n e; hist := fm :: hist e |}.

Definition push (u v : nat) (cf_p : Z) (e : t) : t :=
  let e1 := write_f (add_at (f e) u v cf_p) e in
  write_f (sub_at (f e1) v u cf_p) e1.

(** The [for (auto&& v : Gf[u])] loop of [bfs]; [Q] is the queue, its
    front first. *)
Fixpoint scan (u : nat) (vs : list nat) (e : t) (Q : list nat) : t * list nat :=
  match vs with
  | [] => (e, Q)
  | v :: rest =>
      if stamp (visited e) v || (cf e u v =? 0) then scan u rest e Q
      else
        scan u rest
             (set_search (<[v := Z.of_nat u]> (pi e)) (<[v := true]> (visited e)) e)
             (Q ++ [v])
  end.

(** The [while (!Q.empty())] loop, for at most [fuel] tests of its
    condition. *)
Fixpoint drain (fuel : nat) (e : t) (Q : list nat) : option t :=
  match fuel with
  | O => None
  | S k =>
      match Q with
      | [] => Some e
      | u :: Q' => let '(e', Q'') := scan u (adj (Gf e) u) e Q' in drain k e' Q''
      end
  end.

(** [bfs(s, t)].  Every vertex enters the queue at most once, so the loop
    tests its condition at most [n + 1] times. *)
Definition bfs (e : t) (s t_ : nat) : option (t * bool) :=
  let p0 := replicate (n e) limits.nil in
  let v0 := replicate (n e) false in
  let e0 := set_search (<[s := limits.nil]> p0) (<[s := true]> v0) e in
  match drain (S (n e)) e0 [s] with
  | None => None
  | Some e1 => Some (e1, stamp (visited e1) t_)
  end.

Definition pi_at (e : t) (v : nat) : Z := default 0 (pi e !! v).

(** First loop of [proc]: the bottleneck along the predecessor chain.  A
    negative [pi[v]] would index outside the matrices: [None]. *)
Fixpoint bottleneck (fuel : nat) (e : t) (s v : nat) (cf_p : Z) : option Z :=
  match fuel with
  | O => None
  | S k =>
      if Nat.eqb v s then Some cf_p
      else
        let p := pi_at e v in
        if p <? 0 then None
        else bottleneck k e s (Z.to_nat p) (Z.min cf_p (cf e (Z.to_nat p) v))
  end.

(** Second loop of [proc]: the update along the same chain. *)
Fixpoint update (fuel : nat) (e : t) (s v : nat) (cf_p : Z) : option t :=
  match fuel with
  | O => None
  | S k =>
      if Nat.eqb v s then Some e
      else
        let p := pi_at e v in
        if p <? 0 then None
        else update k (push (Z.to_nat p) v cf_p e) s (Z.to_nat p) cf_p
  end.

(** [proc(s, t)]; a chain of distinct vertices has at most [n] of them. *)
Definition proc (e : t) (s t_ : nat) : option (t * Z) :=
  match bottleneck (n e) e s t_ limits.inf with
  | None => None
  | Some cf_p =>
      match update (n e) e s t_ cf_p with
      | None => None
      | Some e' => Some (e', cf_p)
      end
  end.

(** [while (bfs(s, t)) { flow += proc(s, t); }] *)
Fixpoint loop (fuel : nat) (e : t) (s t_ : nat) (flow : Z) : option (t * Z) :=
  match fuel with
  | O => None
  | S k =>
      match bfs e s t_ with
      | None => None
      | Some (e1, true) =>
          match proc e1 s t_ with
          | None => None
          | Some (e2, cf_p) => loop k e2 s t_ (wrap32 (flow + cf_p))
          end
      | Some (e1, false) => Some (e1, flow)
      end
  end.

Definition compute (fuel : nat) (e : t) (s t_ : nat) : option (t * Z) :=
  loop fuel e s t_ 0.

End edmonds_karp.

(** ** Flow networks: the notions the claims are stated with *)

(** The sum of [g 0], ..., [g (n - 1)]. *)
Fixpoint sumn (n : nat) (g : nat -> Z) : Z :=
  match n with
  | O => 0
  | S k => sumn k g + g k
  end.

(** Row sum and column sum of the flow matrix: the net flow leaving [u] and
    the net flow entering [u]. *)
Definition net_out (n : nat) (fm : matrix_t) (u : nat) : Z :=
  sumn n (fun v => get fm u v).

Definition net_in (n : nat) (fm : matrix_t) (u : nat) : Z :=
  sumn n (fun v => get fm v u).

(** The flow carried by the edges into [u] and out of [u]: the positive
    entries of the column and of the row ([f[v][u]] is negative when the flow
    goes from [u] to [v]). *)
Definition inflow (n : nat) (fm : matrix_t) (u : nat) : Z :=
  sumn n (fun v => Z.max 0 (get fm v u)).

Definition outflow (n : nat) (fm : matrix_t) (u : nat) : Z :=
  sumn n (fun v => Z.max 0 (get fm u v)).

Definition conserved (n : nat) (fm : matrix_t) (s t : nat) : Prop :=
  forall u, (u < n)%nat -> u <> s -> u <> t ->
    inflow n fm u = outflow n fm u /\ net_out n fm u = 0.

Definition square (n : nat) (m : matrix_t) : Prop :=
  length m = n /\ Forall (fun row => length row = n) m.

(** Valid input: every edge joins two distinct vertices of the graph and has
    a non-negative [capacity_t] capacity, and no edge has its opposite. *)
Definition valid_edge (n : nat) (ed : edge) : Prop :=
  (src ed < n)%nat /\ (dst ed < n)%nat /\ src ed <> dst ed /\ 0 <= cap ed <= int32_max.

Definition opposite (e1 e2 : edge) : Prop :=
  src e1 = dst e2 /\ dst e1 = src e2.

Definition valid_graph (G : graph_t) : Prop :=
  Forall (valid_edge (length G)) (concat G) /\
  (forall e1 e2, e1 ∈ concat G -> e2 ∈ concat G -> ~ opposite e1 e2).

Definition original_edge (G : graph_t) (u v : nat) : Prop :=
  exists ed, ed ∈ concat G /\ src ed = u /\ dst ed = v.

(** The same checks as a program. *)
Definition valid_edgeb (n : nat) (ed : edge) : bool :=
  (src ed <? n)%nat && (dst ed <? n)%nat && negb (src ed =? dst ed)%nat
  && (0 <=? cap ed) && (cap ed <=? int32_max).

Definition oppositeb (e1 e2 : edge) : bool :=
  (src e1 =? dst e2)%nat && (dst e1 =? src e2)%nat.

Definition valid_graphb (G : graph_t) : bool :=
  forallb (valid_edgeb (length G)) (concat G)
  && forallb (fun e1 => forallb (fun e2 => negb (oppositeb e1 e2)) (concat G)) (concat G).

(** What the construction establishes and [compute] never changes: the
    shape of the capacity matrix and of the adjacency rows. *)
Record network (n : nat) (cm : matrix_t) (G : list (list nat)) : Prop := {
  net_square : square n cm;
  net_rows : length G = n;
  net_lt : forall u v, v ∈ adj G u -> (v < n)%nat;
  net_cap : forall u v, 0 <= get cm u v <= int32_max;
  net_anti : forall u v, get cm u v = 0 \/ get cm v u = 0;
  net_adj : forall u v, get cm u v <> 0 -> v ∈ adj G u /\ u ∈ adj G v
}.

(** A flow, as the matrix [f] stores it: skew-symmetric and below the
    capacity. *)
Record feasible (n : nat) (cm fm : matrix_t) : Prop := {
  fe_square : square n fm;
  fe_skew : forall u v, get fm u v = - get fm v u;
  fe_bound : forall u v, get fm u v <= get cm u v
}.

(** The bound that also holds between the two stores of one update. *)
Definition bounded (cm fm : matrix_t) : Prop :=
  forall u v, - get cm v u <= get fm u v <= get cm u v.

(** The sum of the entries of [m] that go from the vertex set [S] to its
    complement: the capacity of the cut for [m = c], the flow across it for
    [m = f]. *)
Definition across (n : nat) (m : matrix_t) (S : nat -> bool) : Z :=
  sumn n (fun u => sumn n (fun v => if S u && negb (S v) then get m u v else 0)).

(** Reachability through pairs of positive residual capacity
    [c[u][v] - f[u][v]], the difference taken in [Z]. *)
Inductive reach (cm fm : matrix_t) (s : nat) : nat -> Prop :=
| reach_refl : reach cm fm s s
| reach_step u v :
    reach cm fm s u -> 0 < get cm u v - get fm u v -> reach cm fm s v.

(** The update of one augmentation, for the vertices of the path listed from
    the sink back to the source: [(f, hist)] after the stores. *)
Definition push_log (u v : nat) (d : Z) (fh : matrix_t * list matrix_t)
  : matrix_t * list matrix_t :=
  let f1 := add_at (fst fh) u v d in
  let f2 := sub_at f1 v u d in
  (f2, f2 :: f1 :: snd fh).

Fixpoint augment_back (d : Z) (p : list nat) (fh : matrix_t * list matrix_t)
  : matrix_t * list matrix_t :=
  match p with
  | y :: ((x :: _) as tl) => augment_back d tl (push_log x y d fh)
  | _ => fh
  end.

(** [P x y] for every edge [x -> y] of such a path. *)
Fixpoint chain (P : nat -> nat -> Prop) (p : list nat) : Prop :=
  match p with
  | y :: ((x :: _) as tl) => P x y /\ chain P tl
  | _ => True
  end.

(** What [add_edge] does to each of [c], [f] and [Gf], and the three
    members after the whole construction. *)
Definition add_edge_c (ed : edge) (cm : matrix_t) : matrix_t :=
  set (set cm (src ed) (dst ed) (cap ed)) (dst ed) (src ed) 0.

Definition add_edge_f (ed : edge) (fm : matrix_t) : matrix_t :=
  set (set fm (src ed) (dst ed) 0) (dst ed) (src ed) 0.

Definition add_edge_G (ed : edge) (G : list (list nat)) : list (list nat) :=
  alter (fun row => row ++ [src ed]) (dst ed)
        (alter (fun row => row ++ [dst ed]) (src ed) G).

Definition built_c (n : nat) (es : list edge) : matrix_t :=
  fold_left (fun m ed => add_edge_c ed m) es (replicate n (replicate n 0)).

Definition built_f (n : nat) (es : list edge) : matrix_t :=
  fold_left (fun m ed => add_edge_f ed m) es (replicate n (replicate n 0)).

Definition built_G (n : nat) (es : list edge) : list (list nat) :=
  fold_left (fun G ed => add_edge_G ed G) es (replicate n []).

(** What holds of [c], [f] and [Gf] after the edges [es] have been added. *)
Record built (n : nat) (es : list edge) (cm fm : matrix_t) (G : list (list nat)) : Prop := {
  bu_c : square n cm;
  bu_f : square n fm;
  bu_G : length G = n;
  bu_zero : forall u v, get fm u v = 0;
  bu_lt : forall u v, v ∈ adj G u -> (v < n)%nat;
  bu_cap : forall u v, 0 <= get cm u v <= int32_max;
  bu_edge : forall u v, get cm u v <> 0 ->
              exists ed, ed ∈ es /\ src ed = u /\ dst ed = v;
  bu_adj : forall ed, ed ∈ es ->
             dst ed ∈ adj G (src ed) /\ src ed ∈ adj G (dst ed)
}.

(** [hist] is the record of [f]: the matrix [fm] is the newest entry of the
    history [h], or the starting matrix [f0] when nothing was stored yet. *)
Definition logged (f0 fm : matrix_t) (h : list matrix_t) : Prop :=
  head (h ++ [f0]) = Some fm.

(** The number of entries of a stamp vector that are still [false]: what
    bounds the depth of [dfs_visit] and the length of the queue of [bfs]. *)
Fixpoint unmarked (vs : stamps_t) : nat :=
  match vs with
  | [] => O
  | b :: rest => ((if b then 0 else 1) + unmarked rest)%nat
  end.

(** An augmenting path of bottleneck at least [d], listed from [t] back to
    [s], among the vertices that satisfy [fresh]. *)
Record aug_path (n : nat) (cm fm : matrix_t) (fresh : nat -> Prop)
       (d : Z) (s t : nat) (p : list nat) : Prop := {
  ap_head : head p = Some t;
  ap_last : last p = Some s;
  ap_nodup : NoDup p;
  ap_lt : forall x, x ∈ p -> (x < n)%nat;
  ap_fresh : forall x, x ∈ p -> fresh x;
  ap_chain : chain (fun x y => d <= residual cm fm x y) p
}.

(** A vertex set closed under the residual pairs the searches look at. *)
Definition closed (cm fm : matrix_t) (G : list (list nat)) (S : nat -> bool) : Prop :=
  forall x y, S x = true -> y ∈ adj G x -> residual cm fm x y <> 0 -> S y = true.

Module FF := ford_fulkerson.
Module EK := edmonds_karp.

(** The members a search never changes, for an engine built on the network
    [(n, cm, G)]. *)
Definition ff_static (n : nat) (cm : matrix_t) (G : list (list nat)) (e : FF.t) : Prop :=
  FF.c e = cm /\ FF.Gf e = G /\ FF.n e = n.

(** The same inside a search, where [visited] has its [n] stamps. *)
Definition ff_ok (n : nat) (cm : matrix_t) (G : list (list nat)) (e : FF.t) : Prop :=
  FF.c e = cm /\ FF.Gf e = G /\ FF.n e = n /\ length (FF.visited e) = n.

(** What a call of [dfs_visit] (or a run of its loop) at the vertex [u] with
    the running bottleneck [flow] leaves behind, from [e] to [e'] with the
    result [r]: either nothing but stamps, on a set of new vertices none of
    which has an unexplored residual edge, or one augmentation along a path
    of vertices that were not stamped before. *)
Definition ff_post (n : nat) (cm : matrix_t) (G : list (list nat))
           (t_ u : nat) (flow : Z) (e e' : FF.t) (r : Z) : Prop :=
  ff_ok n cm G e' /\ FF.augment e' = FF.augment e /\
  (forall x, stamp (FF.visited e) x = true -> stamp (FF.visited e') x = true) /\
  ((r = 0 /\ FF.f e' = FF.f e /\ FF.hist e' = FF.hist e /\
    stamp (FF.visited e') t_ = false /\
    (forall x y, stamp (FF.visited e') x = true -> stamp (FF.visited e) x = false ->
                 x <> u -> y ∈ adj G x -> residual cm (FF.f e) x y <> 0 ->
                 stamp (FF.visited e') y = true))
   \/ (0 < r <= flow /\
       exists p, aug_path n cm (FF.f e)
                          (fun x => x = u \/ stamp (FF.visited e) x = false) r u t_ p /\
                 (FF.f e', FF.hist e') = augment_back r p (FF.f e, FF.hist e))).

(** The invariant of the [while] loop of [compute], on the matrix [f] and
    the matrices [f] has been before. *)
Record flow_inv (n : nat) (cm : matrix_t) (s t_ : nat)
       (fm : matrix_t) (h : list matrix_t) : Prop := {
  fi_feasible : feasible n cm fm;
  fi_conserved : forall u, (u < n)%nat -> u <> s -> u <> t_ -> net_out n fm u = 0;
  fi_hist : Forall (bounded cm) h
}.

(** The states of the engine each time [compute] tests the condition of its
    loop: the first one, and the one after every search that found a path
    (and, for [edmonds_karp], the call of [proc] that follows). *)
Inductive ff_observed (s t_ : nat) (e0 : FF.t) : FF.t -> Prop :=
| ff_obs_first : ff_observed s t_ e0 e0
| ff_obs_next e e' :
    ff_observed s t_ e0 e -> FF.dfs e s t_ = Some (e', true) -> ff_observed s t_ e0 e'.

Inductive ek_observed (s t_ : nat) (e0 : EK.t) : EK.t -> Prop :=
| ek_obs_first : ek_observed s t_ e0 e0
| ek_obs_next e e1 e2 d :
    ek_observed s t_ e0 e -> EK.bfs e s t_ = Some (e1, true) ->
    EK.proc e1 s t_ = Some (e2, d) -> ek_observed s t_ e0 e2.

Definition ek_ok (n : nat) (cm : matrix_t) (G : list (list nat)) (e : EK.t) : Prop :=
  EK.c e = cm /\ EK.Gf e = G /\ EK.n e = n.

(** The chain of predecessors from [v] back to [s], as [proc] walks it. *)
Inductive pi_path (pi : list Z) (s : nat) : nat -> list nat -> Prop :=
| pi_path_root : pi_path pi s s [s]
| pi_path_step v u p :
    v <> s -> default 0 (pi !! v) = Z.of_nat u -> pi_path pi s u p ->
    pi_path pi s v (v :: p).

(** The invariant of the [while (!Q.empty())] loop of [bfs]: [Q] is the
    queue, [D] holds the vertices that have left it, and [D'] those of them
    whose row has been scanned to its end. *)
Record bfs_inv (n : nat) (cm fm : matrix_t) (G : list (list nat)) (s : nat)
       (D D' : nat -> Prop) (e : EK.t) (Q : list nat) : Prop := {
  bi_ok : ek_ok n cm G e;
  bi_f : EK.f e = fm;
  bi_visited : length (EK.visited e) = n;
  bi_pi : length (EK.pi e) = n;
  bi_source : stamp (EK.visited e) s = true;
  bi_queue : forall v, v ∈ Q -> stamp (EK.visited e) v = true;
  bi_split : forall v, stamp (EK.visited e) v = true -> D v \/ v ∈ Q;
  bi_closed : forall x y, D' x -> y ∈ adj G x -> residual cm fm x y <> 0 ->
                stamp (EK.visited e) y = true;
  bi_tree : forall v, stamp (EK.visited e) v = true ->
              exists p, pi_path (EK.pi e) s v p /\ NoDup p /\
                        (forall x, x ∈ p -> stamp (EK.visited e) x = true) /\
                        chain (fun x y => 0 < residual cm fm x y) p
}.

(** Whether the edge [ed] joins the vertices [u] and [v], in either
    direction. *)
Definition joins (u v : nat) (ed : edge) : Prop :=
  (src ed = u /\ dst ed = v) \/ (src ed = v /\ dst ed = u).

(** The other ends of the edges of [es] at the vertex [u], in the order of
    the edges: what the construction leaves in [Gf[u]]. *)
Definition other_ends (u : nat) (es : list edge) : list nat :=
  flat_map (fun ed => (if decide (src ed = u) then [dst ed] else [])
                      ++ (if decide (dst ed = u) then [src ed] else [])) es.

(** [main] of the two [Verify/submission.cpp], once the numbers are read:
    [graph_t G(V)], then [G[a].emplace_back(a, b, c)] for every line
    [a b c] of the input, then the engine built from [G] and
    [compute(0, V - 1)], whose value is printed. *)
Definition read_graph (V : nat) (input : list edge) : graph_t :=
  fold_left (fun G ed => alter (fun row => row ++ [ed]) (src ed) G) input (replicate V []).

Definition ff_main (fuel V : nat) (input : list edge) : option Z :=
  snd <$> FF.compute fuel (FF.of_graph (read_graph V input)) 0 (V - 1).

Definition ek_main (fuel V : nat) (input : list edge) : option Z :=
  snd <$> EK.compute fuel (EK.of_graph (read_graph V input)) 0 (V - 1).

(** The levels of [bfs]: [lev v] is the number of edges of the chain of
    predecessors of a stamped vertex [v].  The vertices that have left the
    queue are at most at the level [m], and the queue holds vertices of the
    level [m] followed by vertices of the level [m + 1]. *)
Record bfs_lev (n : nat) (cm fm : matrix_t) (G : list (list nat)) (s : nat)
       (lev : nat -> nat) (m : nat) (D D' : nat -> Prop) (e : EK.t) (Q : list nat)
  : Prop := {
  bl_ok : ek_ok n cm G e;
  bl_f : EK.f e = fm;
  bl_visited : length (EK.visited e) = n;
  bl_pi : length (EK.pi e) = n;
  bl_done : forall x, D x -> stamp (EK.visited e) x = true /\ (lev x <= m)%nat;
  bl_sub : forall x, D' x -> D x;
  bl_split : forall v, stamp (EK.visited e) v = true -> D v \/ v ∈ Q;
  bl_queue : forall x, x ∈ Q ->
               stamp (EK.visited e) x = true /\ (m <= lev x <= S m)%nat;
  bl_sorted : forall i j a b, (i <= j)%nat -> Q !! i = Some a -> Q !! j = Some b ->
                (lev a <= lev b)%nat;
  bl_near : forall x y, D' x -> y ∈ adj G x -> residual cm fm x y <> 0 ->
              stamp (EK.visited e) y = true /\ (lev y <= S (lev x))%nat;
  bl_tree : forall v, stamp (EK.visited e) v = true ->
              exists p, pi_path (EK.pi e) s v p /\
                        (forall x, x ∈ p -> stamp (EK.visited e) x = true) /\
                        length p = S (lev v)
}.

(** ** The spec's scenarios, run on both engines *)

Definition scenario_A : graph_t := [ [Edge 0 1 5]; [] ].

Definition scenario_E : graph_t := [ [Edge 0 1 4]; []; [] ].

Definition scenario_B : graph_t :=
  [ [Edge 0 1 3; Edge 0 2 2]; [Edge 1 3 3]; [Edge 2 3 2]; [] ].

Definition scenario_C : graph_t :=
  [ [Edge 0 1 10; Edge 0 2 0]; [Edge 1 2 1]; [] ].

(** Two disjoint paths of capacity [2^30] each: a maximum flow of [2^31],
    one more than the largest [capacity_t]. *)
Definition overflow_graph : graph_t :=
  [ [Edge 0 1 1073741824; Edge 0 2 1073741824];
    [Edge 1 3 1073741824]; [Edge 2 3 1073741824]; [] ].

(** A path through the sink: [0 -> 1 -> 2 -> 3], searched from [0] to [1]. *)
Definition through_sink : graph_t :=
  [ [Edge 0 1 1]; [Edge 1 2 1]; [Edge 2 3 1]; [] ].

Example scenario_A_flow :
  snd <$> ford_fulkerson.compute 10 (ford_fulkerson.of_graph scenario_A) 0 1 = Some 5 /\
  snd <$> edmonds_karp.compute 10 (edmonds_karp.of_graph scenario_A) 0 1 = Some 5.
Proof. by split. Qed.

Example scenario_E_flow :
  snd <$> ford_fulkerson.compute 1 (ford_fulkerson.of_graph scenario_E) 0 2 = Some 0 /\
  snd <$> edmonds_karp.compute 1 (edmonds_karp.of_graph scenario_E) 0 2 = Some 0.
Proof. by split. Qed.

Example ff_scenario_B :
  snd <$> ford_fulkerson.compute 10 (ford_fulkerson.of_graph scenario_B) 0 3 = Some 5.
Proof. reflexivity. Qed.

Example ek_scenario_B :
  snd <$> edmonds_karp.compute 10 (edmonds_karp.of_graph scenario_B) 0 3 = Some 5.
Proof. reflexivity. Qed.

Example ff_scenario_C :
  snd <$> ford_fulkerson.compute 10 (ford_fulkerson.of_graph scenario_C) 0 2 = Some 1.
Proof. reflexivity. Qed.

Example ek_scenario_C :
  snd <$> edmonds_karp.compute 10 (edmonds_karp.of_graph scenario_C) 0 2 = Some 1.
Proof. reflexivity. Qed.

(** ** Vectors, matrices and sums *)

Lemma wrap32_id z : int32_min <= z <= int32_max -> wrap32 z = z.
Proof.
  unfold wrap32, int32_min, int32_max. intros H.
  rewrite Z.mod_small by lia. lia.
Qed.

Lemma wrap32_range z : int32_min <= wrap32 z <= int32_max.
Proof.
  unfold wrap32, int32_min, int32_max.
  pose proof (Z.mod_pos_bound (z + 2147483648) 4294967296). lia.
Qed.

Lemma wrap32_add_l a b : wrap32 (wrap32 a + b) = wrap32 (a + b).
Proof.
  unfold wrap32.
  replace ((a + 2147483648) mod 4294967296 - 2147483648 + b + 2147483648)
    with ((a + 2147483648) mod 4294967296 + b) by lia.
  rewrite Zplus_mod_idemp_l. do 2 f_equal. lia.
Qed.

Lemma square_length n m : square n m -> length m = n.
Proof. by intros [? _]. Qed.

Lemma square_row n m u row : square n m -> m !! u = Some row -> length row = n.
Proof.
  intros [_ H] Hu. rewrite Forall_forall in H. apply H.
  by eapply list_elem_of_lookup_2.
Qed.

Lemma get_set n m u v x u' v' :
  square n m -> (u < n)%nat -> (v < n)%nat ->
  get (set m u v x) u' v' = if decide (u = u' /\ v = v') then x else get m u' v'.
Proof.
  intros Hsq Hu Hv. unfold get, set.
  destruct (decide (u = u')) as [<-|Hne].
  - destruct (lookup_lt_is_Some_2 m u) as [row Hrow];
      [by rewrite (square_length _ _ Hsq)|].
    rewrite list_lookup_alter_eq, Hrow. simpl.
    pose proof (square_row _ _ _ _ Hsq Hrow) as Hlen.
    destruct (decide (v = v')) as [<-|Hne].
    + rewrite list_lookup_insert_eq by lia. simpl.
      by rewrite decide_True.
    + rewrite list_lookup_insert_ne by done.
      rewrite decide_False; [done|]. by intros [_ ?].
  - rewrite list_lookup_alter_ne by done.
    rewrite decide_False; [done|]. by intros [? _].
Qed.

Lemma square_set n m u v x : square n m -> square n (set m u v x).
Proof.
  intros [Hl Hr]. split; unfold set.
  - by rewrite length_alter.
  - rewrite Forall_forall in *. intros row Hin.
    apply list_elem_of_lookup in Hin as [i Hi].
    destruct (decide (u = i)) as [<-|Hne].
    + rewrite list_lookup_alter_eq in Hi.
      destruct (m !! u) as [r|] eqn:Hmu; simpl in Hi; [|done].
      injection Hi as <-. rewrite length_insert. apply Hr.
      by eapply list_elem_of_lookup_2.
    + rewrite list_lookup_alter_ne in Hi by done.
      apply Hr. by eapply list_elem_of_lookup_2.
Qed.

Lemma square_replicate n : square n (replicate n (replicate n 0)).
Proof.
  split; [by rewrite length_replicate|].
  apply Forall_forall. intros row Hin. apply elem_of_replicate in Hin as [-> _].
  by rewrite length_replicate.
Qed.

Lemma get_replicate n u v : get (replicate n (replicate n 0)) u v = 0.
Proof.
  unfold get. destruct (replicate n (replicate n 0) !! u) as [row|] eqn:Hu; simpl; [|done].
  apply lookup_replicate in Hu as [-> _].
  destruct (replicate n 0 !! v) as [x|] eqn:Hv; simpl; [|done].
  by apply lookup_replicate in Hv as [-> _].
Qed.

Lemma sumn_ext n g h : (forall i, (i < n)%nat -> g i = h i) -> sumn n g = sumn n h.
Proof.
  induction n as [|n IH]; intros H; simpl; [done|].
  rewrite IH by (intros; apply H; lia). rewrite H by lia. done.
Qed.

Lemma sumn_zero n g : (forall i, (i < n)%nat -> g i = 0) -> sumn n g = 0.
Proof.
  induction n as [|n IH]; intros H; simpl; [done|].
  rewrite IH by (intros; apply H; lia). rewrite H by lia. done.
Qed.

Lemma sumn_add n g h : sumn n (fun i => g i + h i) = sumn n g + sumn n h.
Proof. induction n as [|n IH]; simpl; lia. Qed.

Lemma sumn_opp n g : sumn n (fun i => - g i) = - sumn n g.
Proof. induction n as [|n IH]; simpl; lia. Qed.

Lemma sumn_le n g h : (forall i, (i < n)%nat -> g i <= h i) -> sumn n g <= sumn n h.
Proof.
  induction n as [|n IH]; intros H; simpl; [lia|].
  specialize (IH ltac:(intros; apply H; lia)). specialize (H n ltac:(lia)). lia.
Qed.

Lemma sumn_swap n m (g : nat -> nat -> Z) :
  sumn n (fun i => sumn m (fun j => g i j)) = sumn m (fun j => sumn n (fun i => g i j)).
Proof.
  induction n as [|n IH]; simpl.
  - symmetry. by apply sumn_zero.
  - rewrite IH. by rewrite <- sumn_add.
Qed.

(** Adding [x] at one index adds [x] to the sum. *)
Lemma sumn_bump n g k x :
  sumn n (fun i => g i + (if decide (i = k) then x else 0))
  = sumn n (fun i => g i) + (if decide (k < n)%nat then x else 0).
Proof.
  induction n as [|n IH]; simpl; [done|]. rewrite IH.
  repeat case_decide; lia.
Qed.

(** ** One update [f[u][v] += d; f[v][u] -= d] *)

(** Case analysis on the [decide (a = b /\ c = d)] tests of [get_set]. *)
Ltac decide_cases :=
  repeat case_decide;
  repeat match goal with H : (_ = _) /\ (_ = _) |- _ => destruct H end;
  simplify_eq; lia.

Section push.
Context (n : nat) (cm : matrix_t) (G : list (list nat)).
Hypothesis Hnet : network n cm G.

Lemma feasible_bounded fm : feasible n cm fm -> bounded cm fm.
Proof.
  intros [_ Hs Hb] u v. split; [|apply Hb].
  rewrite Hs. specialize (Hb v u). lia.
Qed.

Lemma bounded_range fm u v : bounded cm fm -> int32_min <= get fm u v <= int32_max.
Proof.
  intros Hb. specialize (Hb u v).
  pose proof (net_cap _ _ _ Hnet u v). pose proof (net_cap _ _ _ Hnet v u).
  unfold int32_min, int32_max in *. lia.
Qed.

(** The residual capacity of a bounded matrix never wraps. *)
Lemma residual_exact fm u v :
  bounded cm fm -> residual cm fm u v = get cm u v - get fm u v.
Proof.
  intros Hb. unfold residual. apply wrap32_id.
  specialize (Hb u v).
  pose proof (net_cap _ _ _ Hnet u v). pose proof (net_cap _ _ _ Hnet v u).
  destruct (net_anti _ _ _ Hnet u v); unfold int32_min, int32_max in *; lia.
Qed.

Lemma residual_nonneg fm u v : bounded cm fm -> 0 <= residual cm fm u v.
Proof. intros Hb. rewrite residual_exact by done. specialize (Hb u v). lia. Qed.

Section one.
Context (fm : matrix_t) (u v : nat) (d : Z).
Hypothesis Hfe : feasible n cm fm.
Hypothesis Hu : (u < n)%nat.
Hypothesis Hv : (v < n)%nat.
Hypothesis Huv : u <> v.
Hypothesis Hd : 0 < d <= residual cm fm u v.

Local Abbreviation f1 := (add_at fm u v d).
Local Abbreviation f2 := (sub_at (add_at fm u v d) v u d).

Lemma push_amount : 0 < d <= get cm u v - get fm u v.
Proof. rewrite <- residual_exact; [done|]. by apply feasible_bounded. Qed.

Lemma push_get1 x y :
  get f1 x y = if decide (u = x /\ v = y) then get fm u v + d else get fm x y.
Proof.
  unfold f1, add_at. rewrite (get_set n) by (done || apply Hfe).
  case_decide; [|done]. apply wrap32_id.
  pose proof (feasible_bounded _ Hfe) as Hb.
  pose proof push_amount as Hd'.
  pose proof (bounded_range _ u v Hb). pose proof (net_cap _ _ _ Hnet u v).
  unfold int32_min, int32_max in *. lia.
Qed.

Lemma push_get2 x y :
  get f2 x y = if decide (u = x /\ v = y) then get fm u v + d
               else if decide (v = x /\ u = y) then get fm v u - d
               else get fm x y.
Proof.
  pose proof (feasible_bounded _ Hfe) as Hb.
  pose proof push_amount as Hd'.
  unfold f2, sub_at. rewrite (get_set n); [|apply square_set, Hfe|done..].
  rewrite !push_get1.
  destruct (decide (v = x /\ u = y)) as [[-> ->]|Hne].
  - rewrite !decide_False by (intros [? ?]; done).
    apply wrap32_id.
    pose proof (fe_skew _ _ _ Hfe x y).
    pose proof (bounded_range _ x y Hb). pose proof (net_cap _ _ _ Hnet y x).
    unfold int32_min, int32_max in *. lia.
  - done.
Qed.

Lemma push_bounded1 : bounded cm f1.
Proof.
  pose proof (feasible_bounded _ Hfe) as Hb.
  pose proof push_amount as Hd'.
  intros x y. rewrite push_get1. specialize (Hb x y).
  case_decide as H; [destruct H as [<- <-]|]; lia.
Qed.

Lemma push_feasible : feasible n cm f2.
Proof.
  pose proof (feasible_bounded _ Hfe) as Hb.
  pose proof push_amount as Hd'.
  split.
  - unfold f2, f1, sub_at, add_at. do 2 apply square_set. apply Hfe.
  - intros x y. rewrite !push_get2.
    pose proof (fe_skew _ _ _ Hfe x y). pose proof (fe_skew _ _ _ Hfe u v).
    decide_cases.
  - intros x y. rewrite push_get2.
    pose proof (fe_bound _ _ _ Hfe x y). pose proof (Hb v u).
    decide_cases.
Qed.

Lemma push_net_out w :
  net_out n f2 w = net_out n fm w
                   + (if decide (w = u) then d else 0)
                   - (if decide (w = v) then d else 0).
Proof.
  unfold net_out.
  destruct (decide (w = u)) as [->|Hwu]; [|destruct (decide (w = v)) as [->|Hwv]].
  - rewrite (sumn_ext _ _ (fun y => get fm u y + if decide (y = v) then d else 0)).
    + rewrite sumn_bump. repeat case_decide; lia.
    + intros y _. rewrite push_get2. decide_cases.
  - rewrite (sumn_ext _ _ (fun y => get fm v y + if decide (y = u) then - d else 0)).
    + rewrite sumn_bump. repeat case_decide; lia.
    + intros y _. rewrite push_get2. decide_cases.
  - rewrite Z.add_0_r, Z.sub_0_r. apply sumn_ext. intros y _.
    rewrite push_get2. decide_cases.
Qed.

Lemma push_frame x y : x <> u /\ x <> v \/ y <> u /\ y <> v -> get f2 x y = get fm x y.
Proof. intros H. rewrite push_get2. decide_cases. Qed.

Lemma push_residual x y :
  ~ (x = u /\ y = v) -> ~ (x = v /\ y = u) -> residual cm f2 x y = residual cm fm x y.
Proof.
  intros H1 H2. unfold residual. rewrite push_get2.
  decide_cases.
Qed.
End one.
End push.

(** ** One augmentation along a path *)

Lemma chain_impl (P Q : nat -> nat -> Prop) p :
  (forall a b, a ∈ p -> b ∈ p -> P a b -> Q a b) -> chain P p -> chain Q p.
Proof.
  induction p as [|y [|x tl] IH]; simpl; try done.
  intros H [Hxy Htl]. split.
  - apply H; [apply list_elem_of_further, list_elem_of_here|apply list_elem_of_here|done].
  - apply IH; [|done]. intros ? ? ? ?. apply H; by apply list_elem_of_further.
Qed.

Section augment.
Context (n : nat) (cm : matrix_t) (G : list (list nat)) (d : Z).
Hypothesis Hnet : network n cm G.
Hypothesis Hd : 0 < d.

Lemma augment_back_spec p : forall fm h,
  feasible n cm fm -> NoDup p -> (forall x, x ∈ p -> (x < n)%nat) ->
  chain (fun x y => d <= residual cm fm x y) p ->
  exists new,
    snd (augment_back d p (fm, h)) = new ++ h /\
    Forall (bounded cm) new /\
    feasible n cm (fst (augment_back d p (fm, h))) /\
    (forall w, net_out n (fst (augment_back d p (fm, h))) w
               = net_out n fm w
                 + (if decide (last p = Some w) then d else 0)
                 - (if decide (head p = Some w) then d else 0)) /\
    (forall x y, x ∉ p \/ y ∉ p -> get (fst (augment_back d p (fm, h))) x y = get fm x y).
Proof.
  induction p as [|y [|x tl] IH]; intros fm h Hfe Hnd Hlt Hch.
  - exists []. simpl. split_and!; try done. intros w. repeat case_decide; lia.
  - exists []. simpl. split_and!; try done. intros w. repeat case_decide; lia.
  - simpl in Hch. destruct Hch as [Hxy Hch].
    apply NoDup_cons in Hnd as [Hy Hnd].
    assert (Hx : (x < n)%nat) by (apply Hlt; set_solver).
    assert (Hy' : (y < n)%nat) by (apply Hlt; set_solver).
    assert (Hne : x <> y) by set_solver.
    assert (Hamt : 0 < d <= residual cm fm x y) by lia.
    pose proof (push_feasible n cm G Hnet fm x y d Hfe Hx Hy' Hne Hamt) as Hfe2.
    pose proof (push_bounded1 n cm G Hnet fm x y d Hfe Hx Hy' Hne Hamt) as Hb1.
    set (f1 := add_at fm x y d) in *. set (f2 := sub_at f1 y x d) in *.
    destruct (IH f2 (f2 :: f1 :: h) Hfe2 Hnd) as (new & Hh & Hnew & Hfe' & Hout & Hframe).
    { intros z Hz. apply Hlt. set_solver. }
    { eapply chain_impl; [|exact Hch]. intros a b Ha Hb Hab. simpl in Hab.
      unfold f2, f1. rewrite (push_residual n cm G Hnet fm x y d Hfe Hx Hy' Hne Hamt).
      - done.
      - intros [_ ->]. done.
      - intros [-> _]. done. }
    change (augment_back d (y :: x :: tl) (fm, h))
      with (augment_back d (x :: tl) (f2, f2 :: f1 :: h)).
    exists (new ++ [f2; f1]). split; [|split; [|split; [|split]]].
    + rewrite Hh. by rewrite <- app_assoc.
    + apply Forall_app. split; [done|].
      apply Forall_cons; split; [by eapply feasible_bounded|].
      apply Forall_cons; split; [done|constructor].
    + done.
    + intros w. rewrite Hout. unfold f2, f1.
      rewrite (push_net_out n cm G Hnet fm x y d Hfe Hx Hy' Hne Hamt).
      change (last (y :: x :: tl)) with (last (x :: tl)).
      change (head (y :: x :: tl)) with (Some y). change (head (x :: tl)) with (Some x).
      assert (last (x :: tl) <> Some y) by (by intros ?%last_Some_elem_of).
      repeat case_decide; simplify_eq; try lia; congruence.
    + intros a b Hab. rewrite Hframe by set_solver.
      unfold f2, f1. apply (push_frame n cm G Hnet fm x y d Hfe Hx Hy' Hne Hamt).
      set_solver.
Qed.
End augment.

(** ** Conservation, the value of a flow, and cuts *)

Section flows.
Context (n : nat) (cm : matrix_t) (G : list (list nat)).
Hypothesis Hnet : network n cm G.

Lemma net_in_out fm u : feasible n cm fm -> net_in n fm u = - net_out n fm u.
Proof.
  intros Hfe. unfold net_in, net_out. rewrite <- sumn_opp.
  apply sumn_ext. intros v _. apply (fe_skew _ _ _ Hfe).
Qed.

Lemma outflow_inflow fm u :
  feasible n cm fm -> outflow n fm u - inflow n fm u = net_out n fm u.
Proof.
  intros Hfe. unfold outflow, inflow, net_out.
  rewrite <- (Z.add_opp_r (sumn _ _)), <- sumn_opp, <- sumn_add.
  apply sumn_ext. intros v _. rewrite (fe_skew _ _ _ Hfe v u). lia.
Qed.

Lemma conserved_iff fm s t :
  feasible n cm fm ->
  conserved n fm s t <->
  (forall u, (u < n)%nat -> u <> s -> u <> t -> net_out n fm u = 0).
Proof.
  intros Hfe. split.
  - intros H u Hu Hs Ht. by apply H.
  - intros H u Hu Hs Ht. split; [|by apply H].
    pose proof (outflow_inflow fm u Hfe). rewrite H in * by done. lia.
Qed.

(** The entries of a skew-symmetric matrix inside any vertex set cancel. *)
Lemma inside_zero fm (S : nat -> bool) :
  feasible n cm fm ->
  sumn n (fun u => sumn n (fun v => if S u && S v then get fm u v else 0)) = 0.
Proof.
  intros Hfe.
  set (X := sumn n (fun u => sumn n (fun v => if S u && S v then get fm u v else 0))).
  assert (X = - X) as HX; [|lia].
  unfold X at 2. rewrite sumn_swap, <- sumn_opp. unfold X.
  apply sumn_ext. intros u _. rewrite <- sumn_opp. apply sumn_ext. intros v _.
  rewrite (fe_skew _ _ _ Hfe u v), andb_comm. destruct (S v && S u); lia.
Qed.

Lemma value_cut_flow fm s t (S : nat -> bool) :
  feasible n cm fm -> conserved n fm s t ->
  (s < n)%nat -> S s = true -> S t = false ->
  net_out n fm s = across n fm S.
Proof.
  intros Hfe Hcons Hs HSs HSt.
  assert (sumn n (fun u => if S u then net_out n fm u else 0) = net_out n fm s) as <-.
  { rewrite (sumn_ext _ _ (fun u => 0 + if decide (u = s) then net_out n fm s else 0)).
    - rewrite sumn_bump. rewrite decide_True by done. rewrite sumn_zero; [lia|done].
    - intros u Hu. case_decide as Hus; [subst; by rewrite HSs|].
      destruct (S u) eqn:HSu; [|done].
      apply Hcons; [done..|]. intros ->. congruence. }
  pose proof (inside_zero fm S Hfe) as Hin.
  transitivity
    (sumn n (fun u => sumn n (fun v => if S u && S v then get fm u v else 0))
     + across n fm S); [|rewrite Hin; lia].
  unfold across. rewrite <- sumn_add.
  apply sumn_ext. intros u _. rewrite <- sumn_add. unfold net_out.
  destruct (S u); simpl.
  - apply sumn_ext. intros v _. destruct (S v); simpl; lia.
  - symmetry. apply sumn_zero. done.
Qed.

Lemma cut_flow_le fm S : feasible n cm fm -> across n fm S <= across n cm S.
Proof.
  intros Hfe. apply sumn_le. intros u _. apply sumn_le. intros v _.
  destruct (S u && negb (S v)); [apply (fe_bound _ _ _ Hfe)|lia].
Qed.

(** Max-flow/min-cut, the half the engines need: two flows that both
    saturate some cut separating [s] from [t] have the same value. *)
Lemma saturated_values_agree fm1 fm2 s t (S1 S2 : nat -> bool) :
  feasible n cm fm1 -> conserved n fm1 s t ->
  feasible n cm fm2 -> conserved n fm2 s t ->
  (s < n)%nat ->
  S1 s = true -> S1 t = false -> S2 s = true -> S2 t = false ->
  across n fm1 S1 = across n cm S1 ->
  across n fm2 S2 = across n cm S2 ->
  net_out n fm1 s = net_out n fm2 s.
Proof.
  intros Hf1 Hc1 Hf2 Hc2 Hs H1s H1t H2s H2t Hsat1 Hsat2.
  pose proof (value_cut_flow fm1 s t S1 Hf1 Hc1 Hs H1s H1t).
  pose proof (value_cut_flow fm1 s t S2 Hf1 Hc1 Hs H2s H2t).
  pose proof (value_cut_flow fm2 s t S1 Hf2 Hc2 Hs H1s H1t).
  pose proof (value_cut_flow fm2 s t S2 Hf2 Hc2 Hs H2s H2t).
  pose proof (cut_flow_le fm1 S2 Hf1). pose proof (cut_flow_le fm2 S1 Hf2).
  lia.
Qed.
End flows.

(** ** The construction *)

Lemma adj_alter G u v x :
  adj (alter (fun row => row ++ [v]) u G) x
  = if decide (u = x /\ (u < length G)%nat) then adj G x ++ [v] else adj G x.
Proof.
  unfold adj. destruct (decide (u = x)) as [<-|Hne].
  - rewrite list_lookup_alter_eq. destruct (G !! u) as [row|] eqn:Hu; simpl.
    + apply lookup_lt_Some in Hu. by rewrite decide_True.
    + apply lookup_ge_None in Hu. rewrite decide_False; [done|]. lia.
  - rewrite list_lookup_alter_ne by done. rewrite decide_False; [done|]. by intros [? _].
Qed.

Lemma adj_add_edge_G ed G x y :
  y ∈ adj G x -> y ∈ adj (add_edge_G ed G) x.
Proof.
  intros H. unfold add_edge_G. rewrite !adj_alter.
  repeat case_decide; rewrite ?elem_of_app; auto.
Qed.

Lemma adj_add_edge_G_inv ed G x y :
  y ∈ adj (add_edge_G ed G) x ->
  y ∈ adj G x \/ (x = src ed /\ y = dst ed) \/ (x = dst ed /\ y = src ed).
Proof.
  unfold add_edge_G. rewrite !adj_alter.
  repeat case_decide; rewrite ?elem_of_app, ?list_elem_of_singleton; naive_solver.
Qed.

Lemma adj_add_edge_G_new ed G :
  (src ed < length G)%nat -> (dst ed < length G)%nat ->
  dst ed ∈ adj (add_edge_G ed G) (src ed) /\ src ed ∈ adj (add_edge_G ed G) (dst ed).
Proof.
  intros Hs Hd. unfold add_edge_G. rewrite !adj_alter, !length_alter.
  repeat case_decide; rewrite ?elem_of_app, ?list_elem_of_singleton; naive_solver.
Qed.

Section construction.
Context (n : nat).

Lemma built_nil : built n [] (replicate n (replicate n 0)) (replicate n (replicate n 0))
                        (replicate n []).
Proof.
  split; try apply square_replicate.
  - by rewrite length_replicate.
  - apply get_replicate.
  - intros u v. unfold adj.
    destruct (replicate n [] !! u) as [row|] eqn:Hu; simpl; [|by intros ?%elem_of_nil].
    apply lookup_replicate in Hu as [-> _]. by intros ?%elem_of_nil.
  - intros u v. rewrite get_replicate. unfold int32_max. lia.
  - intros u v. by rewrite get_replicate.
  - by intros ed ?%elem_of_nil.
Qed.

Lemma built_snoc es ed cm fm G :
  valid_edge n ed -> built n es cm fm G ->
  built n (es ++ [ed]) (add_edge_c ed cm) (add_edge_f ed fm) (add_edge_G ed G).
Proof.
  intros (Hs & Hd & Hne & Hcap) [Hc Hf HG Hz Hlt Hcp Hed Hadj].
  split.
  - unfold add_edge_c. by do 2 apply square_set.
  - unfold add_edge_f. by do 2 apply square_set.
  - unfold add_edge_G. by rewrite !length_alter.
  - intros u v. unfold add_edge_f.
    rewrite (get_set n), (get_set n); [|by try apply square_set..].
    repeat case_decide; done.
  - intros u v [H|[[_ ->]|[_ ->]]]%adj_add_edge_G_inv; eauto.
  - intros u v. unfold add_edge_c.
    rewrite (get_set n), (get_set n); [|by try apply square_set..].
    repeat case_decide; try done; unfold int32_max; lia.
  - intros u v. unfold add_edge_c.
    rewrite (get_set n), (get_set n); [|by try apply square_set..].
    repeat case_decide; try done.
    + intros _. exists ed. rewrite elem_of_app, list_elem_of_singleton. naive_solver.
    + intros (ed' & ? & ? & ?)%Hed. exists ed'. rewrite elem_of_app. naive_solver.
  - intros ed' [H|H%list_elem_of_singleton]%elem_of_app.
    + destruct (Hadj _ H). split; by apply adj_add_edge_G.
    + subst ed'. apply adj_add_edge_G_new; by rewrite HG.
Qed.

Lemma built_all es :
  Forall (valid_edge n) es ->
  built n es (built_c n es) (built_f n es) (built_G n es).
Proof.
  induction es as [|ed es IH] using rev_ind; intros Hval.
  - apply built_nil.
  - apply Forall_app in Hval as [Hes Hed]. rewrite Forall_singleton in Hed.
    unfold built_c, built_f, built_G in *. rewrite !fold_left_app. simpl.
    apply built_snoc; [done|]. by apply IH.
Qed.

Lemma built_network es cm fm G :
  built n es cm fm G ->
  (forall e1 e2, e1 ∈ es -> e2 ∈ es -> ~ opposite e1 e2) ->
  network n cm G /\ feasible n cm fm.
Proof.
  intros [Hc Hf HG Hz Hlt Hcp Hed Hadj] Hopp. split; split; try done.
  - intros u v.
    destruct (decide (get cm u v = 0)) as [|H1]; [by left|].
    destruct (decide (get cm v u = 0)) as [|H2]; [by right|].
    apply Hed in H1 as (e1 & ? & ? & ?). apply Hed in H2 as (e2 & ? & ? & ?).
    destruct (Hopp e1 e2); [done..|]. unfold opposite. lia.
  - intros u v (ed & Hin & <- & <-)%Hed. by apply Hadj.
  - intros u v. rewrite !Hz. lia.
  - intros u v. rewrite Hz. apply Hcp.
Qed.
End construction.

Lemma valid_graphb_spec G : valid_graphb G = true -> valid_graph G.
Proof.
  unfold valid_graphb, valid_graph.
  rewrite andb_true_iff, !forallb_forall. intros [H1 H2]. split.
  - apply Forall_forall. intros ed Hin%list_elem_of_In. specialize (H1 _ Hin).
    unfold valid_edgeb in H1. unfold valid_edge.
    rewrite !andb_true_iff, negb_true_iff in H1.
    destruct H1 as [[[[?%Nat.ltb_lt ?%Nat.ltb_lt] ?%Nat.eqb_neq] ?%Z.leb_le] ?%Z.leb_le].
    done.
  - intros e1 e2 Hi1%list_elem_of_In Hi2%list_elem_of_In [Ha Hb].
    specialize (H2 _ Hi1). rewrite forallb_forall in H2. specialize (H2 _ Hi2).
    unfold oppositeb in H2. rewrite negb_true_iff, andb_false_iff, !Nat.eqb_neq in H2.
    lia.
Qed.

(** ** Stamp vectors *)

Lemma stamp_insert_eq vs v b : (v < length vs)%nat -> stamp (<[v := b]> vs) v = b.
Proof. intros H. unfold stamp. by rewrite list_lookup_insert_eq. Qed.

Lemma stamp_insert_ne vs v x b : v <> x -> stamp (<[v := b]> vs) x = stamp vs x.
Proof. intros H. unfold stamp. by rewrite list_lookup_insert_ne. Qed.

Lemma stamp_insert_mono vs v x : stamp vs x = true -> stamp (<[v := true]> vs) x = true.
Proof.
  intros H. destruct (decide (v = x)) as [->|Hne].
  - apply stamp_insert_eq. unfold stamp in H.
    destruct (vs !! x) eqn:Hx; [by eapply lookup_lt_Some|done].
  - by rewrite stamp_insert_ne.
Qed.

Lemma stamp_replicate n x : stamp (replicate n false) x = false.
Proof.
  unfold stamp. destruct (replicate n false !! x) eqn:Hx; [|done].
  by apply lookup_replicate in Hx as [-> _].
Qed.

Lemma stamp_lt vs x : stamp vs x = true -> (x < length vs)%nat.
Proof.
  unfold stamp. destruct (vs !! x) eqn:Hx; [|done]. intros _. by eapply lookup_lt_Some.
Qed.

Lemma unmarked_replicate n : unmarked (replicate n false) = n.
Proof. induction n; simpl; lia. Qed.

Lemma unmarked_insert vs v :
  (v < length vs)%nat -> stamp vs v = false ->
  (unmarked (<[v := true]> vs) + 1 = unmarked vs)%nat.
Proof.
  revert v. induction vs as [|b vs IH]; intros [|v] Hlt Hv; simpl in *; try lia.
  - unfold stamp in Hv. simpl in Hv. subst b. lia.
  - rewrite <- (IH v); [lia|lia|done].
Qed.

Lemma unmarked_mono vs vs' :
  length vs = length vs' ->
  (forall x, stamp vs x = true -> stamp vs' x = true) ->
  (unmarked vs' <= unmarked vs)%nat.
Proof.
  revert vs'. induction vs as [|b vs IH]; intros [|b' vs'] Hlen Hsub; simpl in *; try lia.
  assert (unmarked vs' <= unmarked vs)%nat.
  { apply IH; [lia|]. intros x. apply (Hsub (S x)). }
  specialize (Hsub O). unfold stamp in Hsub. simpl in Hsub.
  destruct b, b'; lia.
Qed.

(** ** Paths listed from the sink back *)

Lemma chain_snoc (P : nat -> nat -> Prop) p u v :
  last p = Some v -> chain P p -> P u v -> chain P (p ++ [u]).
Proof.
  induction p as [|y [|x tl] IH]; simpl; intros Hl Hc HP; try done.
  - by injection Hl as ->.
  - destruct Hc as [Hxy Hc]. split; [done|]. apply IH; done.
Qed.

Lemma augment_back_snoc d p u v fh :
  last p = Some v ->
  augment_back d (p ++ [u]) fh = push_log u v d (augment_back d p fh).
Proof.
  revert fh. induction p as [|y [|x tl] IH]; intros fh Hl; try done.
  - by injection Hl as ->.
  - change (augment_back d ((y :: x :: tl) ++ [u]) fh)
      with (augment_back d ((x :: tl) ++ [u]) (push_log x y d fh)).
    rewrite IH by done. done.
Qed.

(** ** The depth-first search *)

Section ff_search.
Context (n : nat) (cm : matrix_t) (G : list (list nat)) (t_ : nat).
Hypothesis Hnet : network n cm G.

Lemma ff_push_log u v d e :
  (FF.f (FF.push u v d e), FF.hist (FF.push u v d e))
  = push_log u v d (FF.f e, FF.hist e).
Proof. done. Qed.

Lemma ff_explore_spec k u flow :
  (forall e v fl,
      ff_ok n cm G e -> feasible n cm (FF.f e) -> (v < n)%nat ->
      stamp (FF.visited e) v = false -> stamp (FF.visited e) t_ = false ->
      0 < fl -> (unmarked (FF.visited e) <= k)%nat ->
      exists e' r, FF.dfs_visit k e v t_ fl = Some (e', r) /\
                   ff_post n cm G t_ v fl e e' r /\
                   stamp (FF.visited e') v = true /\
                   (r = 0 -> forall y, y ∈ adj G v -> residual cm (FF.f e) v y <> 0 ->
                             stamp (FF.visited e') y = true)) ->
  forall vs e,
    ff_ok n cm G e -> feasible n cm (FF.f e) -> (u < n)%nat ->
    (forall v, v ∈ vs -> (v < n)%nat) ->
    stamp (FF.visited e) u = true -> stamp (FF.visited e) t_ = false ->
    0 < flow -> (unmarked (FF.visited e) <= k)%nat ->
    exists e' r,
      FF.explore (fun e' v fl => FF.dfs_visit k e' v t_ fl) u flow vs e = Some (e', r) /\
      ff_post n cm G t_ u flow e e' r /\
      (r = 0 -> forall v, v ∈ vs -> residual cm (FF.f e) u v <> 0 ->
                stamp (FF.visited e') v = true).
Proof.
  intros IHk vs. induction vs as [|v rest IH]; intros e Hok Hfe Hu Hvs Hsu Hst Hfl Hm.
  - exists e, 0. simpl. split; [done|]. split.
    + split; [done|]. split; [done|]. split; [done|]. left. split_and!; try done.
      intros x y H1 H2. congruence.
    + intros _ v Hv. by apply elem_of_nil in Hv.
  - assert (Hrest : forall v0, v0 ∈ rest -> (v0 < n)%nat)
      by (intros; apply Hvs; by apply list_elem_of_further).
    assert (Hv : (v < n)%nat) by (apply Hvs, list_elem_of_here).
    assert (Hcf : FF.cf e u v = residual cm (FF.f e) u v)
      by (unfold FF.cf; by destruct Hok as [-> _]).
    simpl. rewrite Hcf.
    destruct (stamp (FF.visited e) v || (residual cm (FF.f e) u v =? 0)) eqn:Htest.
    + destruct (IH e Hok Hfe Hu Hrest Hsu Hst Hfl Hm) as (e' & r & Hrun & Hpost & Hcov).
      exists e', r. split; [done|]. split; [done|].
      intros Hr v0 [->|Hin]%elem_of_cons Hres; [|by apply Hcov].
      apply orb_true_iff in Htest as [Hv0|Hz%Z.eqb_eq]; [|done].
      destruct Hpost as (_ & _ & Hmono & _). by apply Hmono.
    + apply orb_false_iff in Htest as [Hv0 Hnz%Z.eqb_neq].
      pose proof (residual_nonneg n cm G Hnet (FF.f e) u v
                    (feasible_bounded _ _ _ Hfe)) as Hnn.
      destruct (IHk e v (Z.min flow (residual cm (FF.f e) u v)))
        as (e1 & r1 & Hrun1 & Hpost1 & Hv1 & Hcov1); try done; [lia|].
      rewrite Hrun1.
      destruct Hpost1 as (Hok1 & Haug1 & Hmono1 & [Hfail|Hsucc]).
      * destruct Hfail as (-> & Hf1 & Hh1 & Hst1 & Hcl1). simpl.
        destruct (IH e1) as (e' & r & Hrun & Hpost & Hcov); try done.
        { by rewrite Hf1. }
        { by apply Hmono1. }
        { etransitivity; [|exact Hm]. apply unmarked_mono; [|done].
          destruct Hok as (_ & _ & _ & ->). by destruct Hok1 as (_ & _ & _ & ->). }
        exists e', r. split; [done|].
        destruct Hpost as (Hok' & Haug' & Hmono' & Hcases).
        split.
        { split; [done|]. split; [congruence|]. split; [by auto|].
          destruct Hcases as [Hfail|Hsucc]; [left|right].
          - destruct Hfail as (-> & Hf' & Hh' & Hst' & Hcl').
            split_and!; try congruence.
            intros x y Hx' Hx Hxu Hy Hres.
            destruct (stamp (FF.visited e1) x) eqn:Hx1.
            + apply Hmono'. destruct (decide (x = v)) as [->|Hxv].
              * by apply Hcov1.
              * by apply (Hcl1 x).
            + apply (Hcl' x); try done. by rewrite Hf1.
          - destruct Hsucc as (Hr & p & Hp & Heq).
            split; [done|]. exists p. rewrite Hf1, Hh1 in *. split; [|done].
            destruct Hp as [H1 H2 H3 H4 H5 H6]. split; try done.
            intros x Hx. destruct (H5 x Hx) as [->|Hx1]; [by left|right].
            destruct (stamp (FF.visited e) x) eqn:Hxe; [|done].
            apply Hmono1 in Hxe. congruence. }
        { intros -> v0 [->|Hin]%elem_of_cons Hres.
          - by apply Hmono'.
          - apply Hcov; [done..|]. by rewrite Hf1. }
      * destruct Hsucc as (Hr1 & p & Hp & Heq).
        assert ((0 <? r1) = true) as -> by (apply Z.ltb_lt; lia).
        exists (FF.push u v r1 e1), r1. split; [done|]. split; [|lia].
        split; [done|]. split; [done|]. split; [done|]. right.
        split; [lia|]. exists (p ++ [u]).
        destruct Hp as [H1 H2 H3 H4 H5 H6].
        assert (Hfresh : forall x, x ∈ p -> stamp (FF.visited e) x = false).
        { intros x Hx. destruct (H5 x Hx) as [->|]; done. }
        split.
        { split.
          - destruct p; [done|]. done.
          - apply last_snoc.
          - apply NoDup_app. split; [done|]. split; [|apply NoDup_singleton].
            intros x Hx Hxu%list_elem_of_singleton. subst x.
            apply Hfresh in Hx. congruence.
          - intros x [Hx|Hx%list_elem_of_singleton]%elem_of_app; [auto|by subst x].
          - intros x [Hx|Hx%list_elem_of_singleton]%elem_of_app; [auto|by left].
          - apply (chain_snoc _ _ _ v); [done..|]. simpl. lia. }
        { rewrite ff_push_log, Heq. symmetry. by apply augment_back_snoc. }
Qed.

Lemma unmarked_pos vs v :
  (v < length vs)%nat -> stamp vs v = false -> (0 < unmarked vs)%nat.
Proof. intros H1 H2. pose proof (unmarked_insert vs v H1 H2). lia. Qed.

Lemma ff_dfs_visit_spec k : forall e v fl,
  ff_ok n cm G e -> feasible n cm (FF.f e) -> (v < n)%nat ->
  stamp (FF.visited e) v = false -> stamp (FF.visited e) t_ = false ->
  0 < fl -> (unmarked (FF.visited e) <= k)%nat ->
  exists e' r, FF.dfs_visit k e v t_ fl = Some (e', r) /\
               ff_post n cm G t_ v fl e e' r /\
               stamp (FF.visited e') v = true /\
               (r = 0 -> forall y, y ∈ adj G v -> residual cm (FF.f e) v y <> 0 ->
                         stamp (FF.visited e') y = true).
Proof.
  induction k as [|k IHk]; intros e v fl Hok Hfe Hv Hsv Hst Hfl Hm.
  - destruct Hok as (_ & _ & _ & Hlen).
    pose proof (unmarked_pos (FF.visited e) v ltac:(lia) Hsv). lia.
  - pose proof Hok as (Hc & HG & Hn & Hlen).
    set (e1 := FF.set_visited (<[v := true]> (FF.visited e)) e).
    assert (Hok1 : ff_ok n cm G e1).
    { split_and!; try done. simpl. by rewrite length_insert. }
    assert (Hv1 : stamp (FF.visited e1) v = true).
    { simpl. apply stamp_insert_eq. lia. }
    assert (Hmono1 : forall x, stamp (FF.visited e) x = true ->
                               stamp (FF.visited e1) x = true).
    { intros x Hx. simpl. by apply stamp_insert_mono. }
    simpl. fold e1. destruct (Nat.eqb_spec v t_) as [->|Hvt].
    + exists e1, fl. split; [done|]. split; [|split; [done|lia]].
      split; [done|]. split; [done|]. split; [done|]. right.
      split; [lia|]. exists [t_]. split; [|done].
      split; try done.
      * apply NoDup_singleton.
      * by intros x ->%list_elem_of_singleton.
      * intros x ->%list_elem_of_singleton. by left.
    + destruct (ff_explore_spec k v fl IHk (adj G v) e1)
        as (e' & r & Hrun & Hpost & Hcov); try done.
      { intros y Hy. by eapply (net_lt _ _ _ Hnet). }
      { simpl. by rewrite stamp_insert_ne. }
      { pose proof (unmarked_insert (FF.visited e) v ltac:(lia) Hsv). simpl. lia. }
      rewrite HG.
      exists e', r. split; [done|].
      destruct Hpost as (Hok' & Haug' & Hmono' & Hcases).
      split; [|split; [by apply Hmono'|]].
      * split; [done|]. split; [done|]. split; [by auto|].
        destruct Hcases as [Hfail|Hsucc]; [left|right].
        -- destruct Hfail as (-> & Hf' & Hh' & Hst' & Hcl').
           split_and!; try done.
           intros x y Hx' Hx Hxv Hy Hres. apply (Hcl' x); try done.
           simpl. by rewrite stamp_insert_ne.
        -- destruct Hsucc as (Hr & p & Hp & Heq).
           split; [done|]. exists p. split; [|done].
           destruct Hp as [H1 H2 H3 H4 H5 H6]. split; try done.
           intros x Hx. destruct (H5 x Hx) as [->|Hx1]; [by left|right].
           destruct (stamp (FF.visited e) x) eqn:Hxe; [|done].
           apply Hmono1 in Hxe. congruence.
      * intros -> y Hy Hres. by apply Hcov.
Qed.

(** [dfs]: either one augmentation along a path from [s] to [t_], or no
    change to the flow and a closed set of stamped vertices that holds [s]
    and not [t_]. *)
Lemma ff_ok_static e : ff_ok n cm G e -> ff_static n cm G e.
Proof. intros (? & ? & ? & _). by split_and!. Qed.

Lemma ff_dfs_spec e s :
  ff_static n cm G e -> feasible n cm (FF.f e) -> (s < n)%nat ->
  exists e' b,
    FF.dfs e s t_ = Some (e', b) /\ ff_ok n cm G e' /\
    if b then
      0 < FF.augment e' <= limits.inf /\
      exists p, aug_path n cm (FF.f e) (fun _ => True) (FF.augment e') s t_ p /\
                (FF.f e', FF.hist e') = augment_back (FF.augment e') p (FF.f e, FF.hist e)
    else
      FF.f e' = FF.f e /\ FF.hist e' = FF.hist e /\
      stamp (FF.visited e') s = true /\ stamp (FF.visited e') t_ = false /\
      closed cm (FF.f e) G (stamp (FF.visited e')).
Proof.
  intros Hok Hfe Hs. pose proof Hok as (Hc & HG & Hn).
  set (e0 := FF.set_visited (replicate (FF.n e) false) e).
  assert (Hok0 : ff_ok n cm G e0).
  { split_and!; try done. simpl. by rewrite length_replicate. }
  destruct (ff_dfs_visit_spec (FF.n e) e0 s limits.inf)
    as (e1 & r & Hrun & Hpost & Hs1 & Hcov); try done.
  { apply stamp_replicate. }
  { apply stamp_replicate. }
  { simpl. by rewrite unmarked_replicate. }
  unfold FF.dfs. fold e0. rewrite Hrun.
  destruct Hpost as (Hok1 & Haug1 & Hmono1 & [Hfail|Hsucc]).
  - destruct Hfail as (-> & Hf1 & Hh1 & Hst1 & Hcl1).
    exists (FF.set_augment 0 e1), false. split; [done|]. split; [done|].
    simpl. split_and!; try done.
    intros x y Hx Hy Hres. destruct (decide (x = s)) as [->|Hxs].
    + by apply Hcov.
    + apply (Hcl1 x); try done. apply stamp_replicate.
  - destruct Hsucc as (Hr & p & Hp & Heq).
    exists (FF.set_augment r e1), true. split.
    { assert ((0 <? r) = true) as -> by (apply Z.ltb_lt; lia). done. }
    split; [done|]. simpl. split; [done|]. exists p. split; [|done].
    destruct Hp as [H1 H2 H3 H4 H5 H6]. by split.
Qed.

(** With the source as the sink, the first call of [dfs_visit] returns
    [flow] at once. *)
Lemma ff_dfs_same e s :
  (0 < FF.n e)%nat ->
  FF.dfs e s s
  = Some (FF.set_augment limits.inf
            (FF.set_visited (<[s := true]> (replicate (FF.n e) false)) e), true).
Proof.
  intros Hn. unfold FF.dfs. destruct (FF.n e) as [|k] eqn:Hk; [lia|].
  simpl. by rewrite Nat.eqb_refl.
Qed.
End ff_search.

(** ** One round of the loop of [compute] *)

Section round.
Context (n : nat) (cm : matrix_t) (G : list (list nat)) (s t_ : nat).
Hypothesis Hnet : network n cm G.
Hypothesis Hst : s <> t_.

Lemma augment_round fm h d p fresh :
  flow_inv n cm s t_ fm h -> 0 < d -> aug_path n cm fm fresh d s t_ p ->
  flow_inv n cm s t_ (fst (augment_back d p (fm, h))) (snd (augment_back d p (fm, h))) /\
  net_out n (fst (augment_back d p (fm, h))) s = net_out n fm s + d /\
  exists new, snd (augment_back d p (fm, h)) = new ++ h.
Proof.
  intros [Hfe Hcons Hh] Hd [H1 H2 H3 H4 H5 H6].
  destruct (augment_back_spec n cm G d Hnet Hd p fm h Hfe H3 H4 H6)
    as (new & Hnew & Hb & Hfe' & Hout & _).
  split; [split|split].
  - done.
  - intros u Hu Hus Hut. rewrite Hout, H1, H2.
    rewrite !decide_False by congruence. rewrite Hcons by done. lia.
  - rewrite Hnew. by apply Forall_app.
  - rewrite Hout, H1, H2. rewrite decide_True by done.
    rewrite decide_False by congruence. lia.
  - by exists new.
Qed.

Lemma value_le_source fm : feasible n cm fm -> net_out n fm s <= sumn n (get cm s).
Proof. intros Hfe. apply sumn_le. intros v _. apply (fe_bound _ _ _ Hfe). Qed.

(** A set closed under the residual pairs the searches look at is a
    saturated cut. *)
Lemma closed_saturated fm (S : nat -> bool) :
  feasible n cm fm -> closed cm fm G S -> across n fm S = across n cm S.
Proof.
  intros Hfe Hcl. apply sumn_ext. intros u _. apply sumn_ext. intros v _.
  destruct (S u) eqn:Hu; [|done]. destruct (S v) eqn:Hv; [done|]. simpl.
  pose proof (feasible_bounded _ _ _ Hfe) as Hb.
  destruct (decide (get cm u v = get fm u v)) as [|Hne]; [done|].
  assert (Hadj : v ∈ adj G u).
  { destruct (decide (get cm u v = 0)) as [Hz|Hnz].
    - destruct (decide (get cm v u = 0)) as [Hz'|Hnz'].
      + specialize (Hb u v). lia.
      + by apply (net_adj _ _ _ Hnet v u).
    - by apply (net_adj _ _ _ Hnet u v). }
  assert (S v = true); [|congruence].
  apply (Hcl u v); [done..|]. rewrite (residual_exact n cm G Hnet) by done. lia.
Qed.

Lemma closed_unreachable fm (S : nat -> bool) :
  feasible n cm fm -> closed cm fm G S -> S s = true ->
  forall v, reach cm fm s v -> S v = true.
Proof.
  intros Hfe Hcl Hs v Hr. induction Hr as [|u v Hr IH Hpos]; [done|].
  pose proof (feasible_bounded _ _ _ Hfe) as Hb.
  apply (Hcl u v); [done| |rewrite (residual_exact n cm G Hnet) by done; lia].
  destruct (decide (get cm u v = 0)) as [Hz|Hnz].
  - apply (net_adj _ _ _ Hnet v u). specialize (Hb u v). lia.
  - by apply (net_adj _ _ _ Hnet u v).
Qed.
End round.

(** ** The loop of [ford_fulkerson::compute] *)

Section ff_loop.
Context (n : nat) (cm : matrix_t) (G : list (list nat)) (s t_ : nat).
Hypothesis Hnet : network n cm G.
Hypothesis Hs : (s < n)%nat.
Hypothesis Hst : s <> t_.

Lemma ff_round e e' :
  ff_static n cm G e -> flow_inv n cm s t_ (FF.f e) (FF.hist e) ->
  FF.dfs e s t_ = Some (e', true) ->
  ff_ok n cm G e' /\ flow_inv n cm s t_ (FF.f e') (FF.hist e') /\
  0 < FF.augment e' /\
  net_out n (FF.f e') s = net_out n (FF.f e) s + FF.augment e' /\
  exists new, FF.hist e' = new ++ FF.hist e.
Proof.
  intros Hok Hinv Hrun.
  destruct (ff_dfs_spec n cm G t_ Hnet e s Hok (fi_feasible _ _ _ _ _ _ Hinv) Hs)
    as (e1 & b & Hrun' & Hok' & Hb).
  rewrite Hrun in Hrun'. injection Hrun' as <- <-.
  destruct Hb as (Ha & p & Hp & Heq).
  destruct (augment_round n cm G s t_ Hnet Hst _ _ _ _ _ Hinv (proj1 Ha) Hp)
    as (Hinv' & Hval & Hnew).
  rewrite <- Heq in *. simpl in *. split_and!; try done. lia.
Qed.

Lemma ff_observed_inv e0 e :
  ff_static n cm G e0 -> flow_inv n cm s t_ (FF.f e0) (FF.hist e0) ->
  ff_observed s t_ e0 e ->
  ff_static n cm G e /\ flow_inv n cm s t_ (FF.f e) (FF.hist e).
Proof.
  intros Hok Hinv Hobs. induction Hobs as [|e e' Hobs [Hok1 Hinv1] Hrun]; [done|].
  destruct (ff_round e e' Hok1 Hinv1 Hrun) as (?%ff_ok_static & ? & _). done.
Qed.

(** Total correctness of the loop: it stops within the fuel the capacity
    out of the source pays for, in a state with a saturated cut. *)
Lemma ff_loop_spec fuel : forall e flow,
  ff_static n cm G e -> flow_inv n cm s t_ (FF.f e) (FF.hist e) ->
  (Z.to_nat (sumn n (get cm s) - net_out n (FF.f e) s) < fuel)%nat ->
  wrap32 flow = flow ->
  exists e' v total,
    FF.loop fuel e s t_ flow = Some (e', v) /\
    ff_ok n cm G e' /\ flow_inv n cm s t_ (FF.f e') (FF.hist e') /\
    (exists new, FF.hist e' = new ++ FF.hist e) /\
    net_out n (FF.f e') s = net_out n (FF.f e) s + total /\ 0 <= total /\
    v = wrap32 (flow + total) /\
    stamp (FF.visited e') s = true /\ stamp (FF.visited e') t_ = false /\
    closed cm (FF.f e') G (stamp (FF.visited e')).
Proof.
  induction fuel as [|k IH]; intros e flow Hok Hinv Hfuel Hflow; [lia|].
  destruct (ff_dfs_spec n cm G t_ Hnet e s Hok (fi_feasible _ _ _ _ _ _ Hinv) Hs)
    as (e1 & b & Hrun & Hok1 & Hb).
  simpl. rewrite Hrun. destruct b.
  - destruct (ff_round e e1 Hok Hinv Hrun) as (_ & Hinv1 & Ha & Hval & new1 & Hnew1).
    pose proof (value_le_source n cm s _ (fi_feasible _ _ _ _ _ _ Hinv1)) as Hle.
    destruct (IH e1 (wrap32 (flow + FF.augment e1)) (ff_ok_static _ _ _ _ Hok1) Hinv1)
      as (e' & v & total & Hloop & Hok' & Hinv' & [new Hnew] & Hval' & Htot & Hv & Hcut).
    { lia. }
    { apply wrap32_id, wrap32_range. }
    exists e', v, (FF.augment e1 + total). split; [done|]. split; [done|]. split; [done|].
    split; [|split; [lia|split; [lia|split; [|done]]]].
    + exists (new ++ new1). rewrite Hnew, Hnew1. by rewrite app_assoc.
    + rewrite Hv. rewrite wrap32_add_l. f_equal. lia.
  - destruct Hb as (Hf & Hh & Hcut).
    exists e1, flow, 0. split; [done|]. split; [done|]. rewrite Hf, Hh.
    split; [done|]. split; [by exists []|]. split; [lia|]. split; [lia|].
    split; [|done]. by rewrite Z.add_0_r.
Qed.
End ff_loop.

(** ** The breadth-first search *)

Lemma pi_path_insert pi s v p x z :
  x ∉ p -> pi_path pi s v p -> pi_path (<[x := z]> pi) s v p.
Proof.
  intros Hx Hp. induction Hp as [|v u p Hvs Hpi Hp IH]; [constructor|].
  apply not_elem_of_cons in Hx as [Hxv Hx].
  econstructor; [done| |by apply IH]. by rewrite list_lookup_insert_ne.
Qed.

Lemma pi_path_head pi s v p : pi_path pi s v p -> head p = Some v.
Proof. by intros []. Qed.

Lemma pi_path_last pi s v p : pi_path pi s v p -> last p = Some s.
Proof.
  induction 1 as [|v u p Hvs Hpi Hp IH]; [done|].
  destruct p; [by inversion Hp|]. by rewrite last_cons_cons.
Qed.

Lemma nodup_bounded_length (p : list nat) n :
  NoDup p -> (forall x, x ∈ p -> (x < n)%nat) -> (length p <= n)%nat.
Proof.
  intros Hnd Hlt. transitivity (length (seq 0 n)); [|by rewrite length_seq].
  apply submseteq_length, NoDup_submseteq; [done|].
  intros x Hx. apply elem_of_seq. specialize (Hlt x Hx). lia.
Qed.

Section ek_search.
Context (n : nat) (cm fm : matrix_t) (G : list (list nat)) (s : nat).
Hypothesis Hnet : network n cm G.
Hypothesis Hfe : feasible n cm fm.

(** The [for] loop of [bfs] at the vertex [u], which has left the queue. *)
Lemma ek_scan_spec u D D' : forall vs e Q,
  bfs_inv n cm fm G s D D' e Q -> stamp (EK.visited e) u = true ->
  (forall v, v ∈ vs -> (v < n)%nat) ->
  exists e' Q',
    EK.scan u vs e Q = (e', Q') /\
    bfs_inv n cm fm G s D D' e' Q' /\
    EK.hist e' = EK.hist e /\
    (forall x, stamp (EK.visited e) x = true -> stamp (EK.visited e') x = true) /\
    (forall v, v ∈ vs -> residual cm fm u v <> 0 -> stamp (EK.visited e') v = true) /\
    (unmarked (EK.visited e') + length Q' = unmarked (EK.visited e) + length Q)%nat.
Proof.
  induction vs as [|v rest IH]; intros e Q Hinv Hu Hvs.
  - exists e, Q. split_and!; try done. by intros v ?%elem_of_nil.
  - assert (Hrest : forall v0, v0 ∈ rest -> (v0 < n)%nat)
      by (intros; apply Hvs; by apply list_elem_of_further).
    assert (Hv : (v < n)%nat) by (apply Hvs, list_elem_of_here).
    pose proof Hinv as [Hok Hf Hlv Hlp Hs HQ Hsplit Hcl Htree].
    assert (Hcf : EK.cf e u v = residual cm fm u v).
    { unfold EK.cf. destruct Hok as (-> & _). by rewrite Hf. }
    simpl. rewrite Hcf.
    destruct (stamp (EK.visited e) v || (residual cm fm u v =? 0)) eqn:Htest.
    + destruct (IH e Q Hinv Hu Hrest) as (e' & Q' & Hrun & Hinv' & Hh & Hmono & Hcov & Hm).
      exists e', Q'. split_and!; try done.
      intros v0 [->|Hin]%elem_of_cons Hres; [|by apply Hcov].
      apply orb_true_iff in Htest as [Hv0|Hz%Z.eqb_eq]; [by apply Hmono|done].
    + apply orb_false_iff in Htest as [Hv0 Hnz%Z.eqb_neq].
      pose proof (residual_nonneg n cm G Hnet fm u v (feasible_bounded _ _ _ Hfe)) as Hnn.
      set (e2 := EK.set_search (<[v := Z.of_nat u]> (EK.pi e))
                               (<[v := true]> (EK.visited e)) e).
      assert (Hmono2 : forall x, stamp (EK.visited e) x = true ->
                                 stamp (EK.visited e2) x = true).
      { intros x Hx. by apply stamp_insert_mono. }
      assert (Hv2 : stamp (EK.visited e2) v = true).
      { apply stamp_insert_eq. simpl. lia. }
      assert (Hinv2 : bfs_inv n cm fm G s D D' e2 (Q ++ [v])).
      { split; try done.
        - simpl. by rewrite length_insert.
        - simpl. by rewrite length_insert.
        - by apply Hmono2.
        - intros x [Hx|Hx%list_elem_of_singleton]%elem_of_app; [by apply Hmono2, HQ|].
          by subst x.
        - intros x Hx. rewrite elem_of_app, list_elem_of_singleton.
          destruct (decide (x = v)) as [->|Hne]; [by auto|].
          simpl in Hx. rewrite stamp_insert_ne in Hx by done.
          destruct (Hsplit x Hx); auto.
        - intros x y HD Hy Hres. apply Hmono2. by apply (Hcl x y).
        - intros x Hx. destruct (decide (x = v)) as [->|Hne].
          + destruct (Htree u Hu) as (p & Hp & Hnd & Hvis & Hch).
            assert (Hvp : v ∉ p) by (intros Hin; apply Hvis in Hin; congruence).
            exists (v :: p). split_and!.
            * econstructor; [intros ->; congruence| |by apply pi_path_insert].
              simpl. rewrite list_lookup_insert_eq by lia. done.
            * by apply NoDup_cons.
            * intros y [->|Hy]%elem_of_cons; [done|]. by apply Hmono2, Hvis.
            * pose proof (pi_path_head _ _ _ _ Hp) as Hhd.
              destruct p as [|u' tl]; [done|]. injection Hhd as ->.
              split; [lia|done].
          + simpl in Hx. rewrite stamp_insert_ne in Hx by done.
            destruct (Htree x Hx) as (p & Hp & Hnd & Hvis & Hch).
            assert (Hvp : v ∉ p) by (intros Hin; apply Hvis in Hin; congruence).
            exists p. split_and!; try done.
            * by apply pi_path_insert.
            * intros y Hy. by apply Hmono2, Hvis. }
      destruct (IH e2 (Q ++ [v]) Hinv2 (Hmono2 _ Hu) Hrest)
        as (e' & Q' & Hrun & Hinv' & Hh & Hmono & Hcov & Hm).
      exists e', Q'. split_and!; try done.
      * intros x Hx. by apply Hmono, Hmono2.
      * intros v0 [->|Hin]%elem_of_cons Hres; [by apply Hmono|by apply Hcov].
      * rewrite Hm, length_app. simpl.
        pose proof (unmarked_insert (EK.visited e) v ltac:(lia) Hv0). lia.
Qed.

(** The [while] loop of [bfs]: it stops, on a closed set of stamped
    vertices, each with its chain of predecessors. *)
Lemma ek_drain_spec fuel : forall e Q D,
  bfs_inv n cm fm G s D D e Q ->
  (unmarked (EK.visited e) + length Q < fuel)%nat ->
  exists e' D',
    EK.drain fuel e Q = Some e' /\ bfs_inv n cm fm G s D' D' e' [] /\
    EK.hist e' = EK.hist e.
Proof.
  induction fuel as [|k IH]; intros e Q D Hinv Hm; [lia|].
  destruct Q as [|u Q]; [by exists e, D|].
  pose proof Hinv as [Hok Hf Hlv Hlp Hs HQ Hsplit Hcl Htree].
  assert (Hu : stamp (EK.visited e) u = true) by apply HQ, list_elem_of_here.
  assert (Hinv0 : bfs_inv n cm fm G s (fun x => D x \/ x = u) D e Q).
  { split; try done.
    - intros v Hv. by apply HQ, list_elem_of_further.
    - intros v Hv. destruct (Hsplit v Hv) as [HD|[->|Hin]%elem_of_cons]; auto. }
  destruct (ek_scan_spec u _ _ (adj G u) e Q Hinv0 Hu)
    as (e1 & Q1 & Hrun & Hinv1 & Hh1 & Hmono1 & Hcov1 & Hm1).
  { intros v Hv. by eapply (net_lt _ _ _ Hnet). }
  assert (Hinv2 : bfs_inv n cm fm G s (fun x => D x \/ x = u) (fun x => D x \/ x = u) e1 Q1).
  { destruct Hinv1 as [Hok1 Hf1 Hlv1 Hlp1 Hs1 HQ1 Hsplit1 Hcl1 Htree1].
    split; try done.
    intros x y [HD| ->] Hy Hres; [by apply (Hcl1 x y)|by apply Hcov1]. }
  destruct (IH e1 Q1 _ Hinv2) as (e' & D' & Hdrain & Hinv' & Hh'); [simpl in Hm; lia|].
  exists e', D'. split; [|split; [done|congruence]].
  simpl. destruct Hok as (_ & -> & _). by rewrite Hrun.
Qed.

(** [bfs] on an engine whose flow matrix is [fm]. *)
Lemma ek_bfs_spec e t_ :
  ek_ok n cm G e -> EK.f e = fm -> (s < n)%nat ->
  exists e' b,
    EK.bfs e s t_ = Some (e', b) /\ ek_ok n cm G e' /\
    EK.f e' = EK.f e /\ EK.hist e' = EK.hist e /\
    b = stamp (EK.visited e') t_ /\
    stamp (EK.visited e') s = true /\
    closed cm fm G (stamp (EK.visited e')) /\
    (forall v, stamp (EK.visited e') v = true ->
       exists p, pi_path (EK.pi e') s v p /\ NoDup p /\
                 (forall x, x ∈ p -> (x < n)%nat) /\
                 chain (fun x y => 0 < residual cm fm x y) p).
Proof.
  intros Hok Hf Hs. pose proof Hok as (Hc & HG & Hn).
  set (e0 := EK.set_search (<[s := limits.nil]> (replicate (EK.n e) limits.nil))
                           (<[s := true]> (replicate (EK.n e) false)) e).
  assert (Hinv0 : bfs_inv n cm fm G s (fun _ => False) (fun _ => False) e0 [s]).
  { assert (Hone : forall v, stamp (EK.visited e0) v = true -> v = s).
    { intros v Hv. simpl in Hv. destruct (decide (s = v)) as [|Hne]; [done|].
      rewrite stamp_insert_ne, stamp_replicate in Hv; done. }
    assert (Hs0 : stamp (EK.visited e0) s = true).
    { simpl. apply stamp_insert_eq. rewrite length_replicate. lia. }
    split; try done.
    - simpl. rewrite length_insert, length_replicate. done.
    - simpl. rewrite length_insert, length_replicate. done.
    - by intros v ->%list_elem_of_singleton.
    - intros v ->%Hone. right. apply list_elem_of_here.
    - intros v ->%Hone. exists [s]. split_and!; try done.
      + constructor.
      + apply NoDup_singleton.
      + by intros x ->%list_elem_of_singleton. }
  destruct (ek_drain_spec (S (EK.n e)) e0 [s] _ Hinv0) as (e' & D' & Hrun & Hinv' & Hh).
  { simpl. rewrite Hn.
    pose proof (unmarked_insert (replicate n false) s) as Hu.
    rewrite length_replicate, stamp_replicate, unmarked_replicate in Hu.
    specialize (Hu Hs eq_refl). lia. }
  destruct Hinv' as [Hok' Hf' Hlv' Hlp' Hs' HQ' Hsplit' Hcl' Htree'].
  exists e', (stamp (EK.visited e') t_). unfold EK.bfs. fold e0. rewrite Hrun.
  split_and!; try done.
  - by rewrite Hf'.
  - intros x y Hx Hy Hres. destruct (Hsplit' x Hx) as [HD|[]%elem_of_nil].
    by apply (Hcl' x y).
  - intros v Hv. destruct (Htree' v Hv) as (p & Hp & Hnd & Hvis & Hch).
    exists p. split_and!; try done.
    intros x Hx. rewrite <- Hlv'. by apply stamp_lt, Hvis.
Qed.
End ek_search.

(** ** [proc]: the two walks along the predecessors *)

Section ek_proc.
Context (n : nat) (cm : matrix_t) (G : list (list nat)) (s : nat).

Lemma ek_bottleneck_spec e v p :
  ek_ok n cm G e -> pi_path (EK.pi e) s v p ->
  forall fuel a,
    (length p <= fuel)%nat -> 0 < a ->
    chain (fun x y => 0 < residual cm (EK.f e) x y) p ->
    exists d, EK.bottleneck fuel e s v a = Some d /\ 0 < d <= a /\
              chain (fun x y => d <= residual cm (EK.f e) x y) p.
Proof.
  intros Hok Hp. induction Hp as [|v u p Hvs Hpi Hp IH]; intros fuel a Hlen Ha Hch.
  - destruct fuel as [|k]; [simpl in Hlen; lia|].
    exists a. simpl. rewrite Nat.eqb_refl. split; [done|]. split; [lia|done].
  - destruct fuel as [|k]; [simpl in Hlen; lia|].
    pose proof (pi_path_head _ _ _ _ Hp) as Hhd.
    destruct p as [|u' tl]; [done|]. injection Hhd as ->.
    destruct Hch as [Huv Hch].
    assert (Hcf : EK.cf e u v = residual cm (EK.f e) u v).
    { unfold EK.cf. by destruct Hok as (-> & _). }
    destruct (IH k (Z.min a (EK.cf e u v))) as (d & Hrun & Hd & Hch');
      [simpl in *; lia|rewrite Hcf; lia|done|].
    rewrite Hcf in Hd.
    exists d. simpl. destruct (Nat.eqb_spec v s) as [|_]; [done|].
    unfold EK.pi_at. rewrite Hpi.
    destruct (Z.ltb_spec (Z.of_nat u) 0) as [|_]; [lia|].
    rewrite Nat2Z.id. split; [done|]. split; [lia|]. split; [lia|done].
Qed.

Lemma ek_update_spec pi0 d v p :
  pi_path pi0 s v p ->
  forall fuel e,
    EK.pi e = pi0 -> (length p <= fuel)%nat ->
    exists e', EK.update fuel e s v d = Some e' /\
               (EK.f e', EK.hist e') = augment_back d p (EK.f e, EK.hist e) /\
               EK.c e' = EK.c e /\ EK.Gf e' = EK.Gf e /\ EK.n e' = EK.n e.
Proof.
  intros Hp. induction Hp as [|v u p Hvs Hpi Hp IH]; intros fuel e He Hlen.
  - destruct fuel as [|k]; [simpl in Hlen; lia|].
    exists e. simpl. by rewrite Nat.eqb_refl.
  - destruct fuel as [|k]; [simpl in Hlen; lia|].
    pose proof (pi_path_head _ _ _ _ Hp) as Hhd.
    destruct p as [|u' tl]; [done|]. injection Hhd as ->.
    destruct (IH k (EK.push u v d e)) as (e' & Hrun & Heq & Hc & HG & Hn);
      [done|simpl in *; lia|].
    exists e'. simpl. destruct (Nat.eqb_spec v s) as [|_]; [done|].
    unfold EK.pi_at. rewrite He, Hpi.
    destruct (Z.ltb_spec (Z.of_nat u) 0) as [|_]; [lia|].
    rewrite Nat2Z.id. split; [done|]. split; [|done]. by rewrite Heq.
Qed.

Lemma ek_proc_spec e t_ p :
  ek_ok n cm G e -> pi_path (EK.pi e) s t_ p -> NoDup p ->
  (forall x, x ∈ p -> (x < n)%nat) ->
  chain (fun x y => 0 < residual cm (EK.f e) x y) p ->
  exists e' d,
    EK.proc e s t_ = Some (e', d) /\ ek_ok n cm G e' /\ 0 < d <= limits.inf /\
    aug_path n cm (EK.f e) (fun _ => True) d s t_ p /\
    (EK.f e', EK.hist e') = augment_back d p (EK.f e, EK.hist e).
Proof.
  intros Hok Hp Hnd Hlt Hch. pose proof Hok as (Hc & HG & Hn).
  pose proof (nodup_bounded_length p n Hnd Hlt) as Hlen.
  destruct (ek_bottleneck_spec e t_ p Hok Hp (EK.n e) limits.inf)
    as (d & Hrun & Hd & Hch'); [lia|done|done|].
  destruct (ek_update_spec _ d t_ p Hp (EK.n e) e eq_refl)
    as (e' & Hrun' & Heq & Hc' & HG' & Hn'); [lia|].
  exists e', d. unfold EK.proc. rewrite Hrun, Hrun'.
  split; [done|]. split; [split_and!; congruence|]. split; [done|]. split; [|done].
  split; try done.
  - by eapply pi_path_head.
  - by eapply pi_path_last.
Qed.
End ek_proc.

(** ** The loop of [edmonds_karp::compute] *)

Section ek_loop.
Context (n : nat) (cm : matrix_t) (G : list (list nat)) (s t_ : nat).
Hypothesis Hnet : network n cm G.
Hypothesis Hs : (s < n)%nat.
Hypothesis Hst : s <> t_.

(** After a search that reached the sink, [proc] returns and augments. *)
Lemma ek_round e e1 :
  ek_ok n cm G e -> flow_inv n cm s t_ (EK.f e) (EK.hist e) ->
  EK.bfs e s t_ = Some (e1, true) ->
  exists e2 d,
    EK.proc e1 s t_ = Some (e2, d) /\
    ek_ok n cm G e2 /\ flow_inv n cm s t_ (EK.f e2) (EK.hist e2) /\
    0 < d /\
    net_out n (EK.f e2) s = net_out n (EK.f e) s + d /\
    exists new, EK.hist e2 = new ++ EK.hist e.
Proof.
  intros Hok Hinv Hrun.
  destruct (ek_bfs_spec n cm (EK.f e) G s Hnet (fi_feasible _ _ _ _ _ _ Hinv) e t_ Hok eq_refl Hs)
    as (e1' & b & Hrun' & Hok1 & Hf1 & Hh1 & Hb & _ & _ & Htree).
  rewrite Hrun in Hrun'. injection Hrun' as <- <-.
  destruct (Htree t_ (eq_sym Hb)) as (p & Hp & Hnd & Hlt & Hch).
  rewrite <- Hf1 in Hch.
  destruct (ek_proc_spec n cm G s e1 t_ p Hok1 Hp Hnd Hlt Hch)
    as (e2 & d & Hproc & Hok2 & Hd & Hap & Heq).
  rewrite Hf1, Hh1 in *.
  destruct (augment_round n cm G s t_ Hnet Hst _ _ _ _ _ Hinv (proj1 Hd) Hap)
    as (Hinv' & Hval & Hnew).
  rewrite <- Heq in *. simpl in *. exists e2, d. split_and!; try done. lia.
Qed.

Lemma ek_observed_inv e0 e :
  ek_ok n cm G e0 -> flow_inv n cm s t_ (EK.f e0) (EK.hist e0) ->
  ek_observed s t_ e0 e ->
  ek_ok n cm G e /\ flow_inv n cm s t_ (EK.f e) (EK.hist e).
Proof.
  intros Hok Hinv Hobs.
  induction Hobs as [|e e1 e2 d Hobs [Hok1 Hinv1] Hrun Hproc]; [done|].
  destruct (ek_round e e1 Hok1 Hinv1 Hrun) as (e2' & d' & Hproc' & ? & ? & _).
  rewrite Hproc in Hproc'. by injection Hproc' as <- <-.
Qed.

Lemma ek_loop_spec fuel : forall e flow,
  ek_ok n cm G e -> flow_inv n cm s t_ (EK.f e) (EK.hist e) ->
  (Z.to_nat (sumn n (get cm s) - net_out n (EK.f e) s) < fuel)%nat ->
  wrap32 flow = flow ->
  exists e' v total,
    EK.loop fuel e s t_ flow = Some (e', v) /\
    ek_ok n cm G e' /\ flow_inv n cm s t_ (EK.f e') (EK.hist e') /\
    (exists new, EK.hist e' = new ++ EK.hist e) /\
    net_out n (EK.f e') s = net_out n (EK.f e) s + total /\ 0 <= total /\
    v = wrap32 (flow + total) /\
    stamp (EK.visited e') s = true /\ stamp (EK.visited e') t_ = false /\
    closed cm (EK.f e') G (stamp (EK.visited e')).
Proof.
  induction fuel as [|k IH]; intros e flow Hok Hinv Hfuel Hflow; [lia|].
  destruct (ek_bfs_spec n cm (EK.f e) G s Hnet (fi_feasible _ _ _ _ _ _ Hinv) e t_ Hok eq_refl Hs)
    as (e1 & b & Hrun & Hok1 & Hf1 & Hh1 & Hb & Hs1 & Hcl & _).
  simpl. rewrite Hrun. destruct b.
  - destruct (ek_round e e1 Hok Hinv Hrun)
      as (e2 & d & Hproc & Hok2 & Hinv2 & Hd & Hval & new1 & Hnew1).
    rewrite Hproc.
    pose proof (value_le_source n cm s _ (fi_feasible _ _ _ _ _ _ Hinv2)) as Hle.
    destruct (IH e2 (wrap32 (flow + d)) Hok2 Hinv2)
      as (e' & v & total & Hloop & Hok' & Hinv' & [new Hnew] & Hval' & Htot & Hv & Hcut).
    { lia. }
    { apply wrap32_id, wrap32_range. }
    exists e', v, (d + total). split; [done|]. split; [done|]. split; [done|].
    split; [|split; [lia|split; [lia|split; [|done]]]].
    + exists (new ++ new1). rewrite Hnew, Hnew1. by rewrite app_assoc.
    + rewrite Hv. rewrite wrap32_add_l. f_equal. lia.
  - exists e1, flow, 0. split; [done|]. split; [done|]. rewrite Hf1, Hh1.
    split; [done|]. split; [by exists []|]. split; [lia|]. split; [lia|].
    split; [by rewrite Z.add_0_r|]. split; [done|]. split; [done|]. done.
Qed.
End ek_loop.

(** ** The engines right after construction *)

Lemma ff_fold_fields es : forall e,
  let e' := fold_left (fun e ed => FF.add_edge (src ed) (dst ed) (cap ed) e) es e in
  FF.c e' = fold_left (fun m ed => add_edge_c ed m) es (FF.c e) /\
  FF.f e' = fold_left (fun m ed => add_edge_f ed m) es (FF.f e) /\
  FF.Gf e' = fold_left (fun G ed => add_edge_G ed G) es (FF.Gf e) /\
  FF.n e' = FF.n e /\ FF.hist e' = FF.hist e.
Proof.
  induction es as [|ed es IH]; intros e; [done|].
  apply (IH (FF.add_edge (src ed) (dst ed) (cap ed) e)).
Qed.

Lemma ek_fold_fields es : forall e,
  let e' := fold_left (fun e ed => EK.add_edge (src ed) (dst ed) (cap ed) e) es e in
  EK.c e' = fold_left (fun m ed => add_edge_c ed m) es (EK.c e) /\
  EK.f e' = fold_left (fun m ed => add_edge_f ed m) es (EK.f e) /\
  EK.Gf e' = fold_left (fun G ed => add_edge_G ed G) es (EK.Gf e) /\
  EK.n e' = EK.n e /\ EK.hist e' = EK.hist e.
Proof.
  induction es as [|ed es IH]; intros e; [done|].
  apply (IH (EK.add_edge (src ed) (dst ed) (cap ed) e)).
Qed.

Section start.
Context (G : graph_t) (s t_ : nat).
Hypothesis Hvalid : valid_graph G.

Local Abbreviation n := (length G).
Local Abbreviation cm := (built_c (length G) (concat G)).
Local Abbreviation fm := (built_f (length G) (concat G)).
Local Abbreviation Gr := (built_G (length G) (concat G)).

Lemma start_built : built n (concat G) cm fm Gr.
Proof. apply built_all. apply Hvalid. Qed.

Lemma start_network : network n cm Gr.
Proof. eapply built_network; [apply start_built|apply Hvalid]. Qed.

Lemma start_feasible : feasible n cm fm.
Proof. eapply built_network; [apply start_built|apply Hvalid]. Qed.

Lemma start_zero u v : get fm u v = 0.
Proof. apply (bu_zero _ _ _ _ _ start_built). Qed.

Lemma start_flow_inv : flow_inv n cm s t_ fm [].
Proof.
  split; [apply start_feasible| |constructor].
  intros u _ _ _. apply sumn_zero. intros v _. apply start_zero.
Qed.

Lemma start_value : net_out n fm s = 0.
Proof. apply sumn_zero. intros v _. apply start_zero. Qed.

(** The pair opposite to an edge of the graph has capacity [0]. *)
Lemma start_original u v : original_edge G u v -> get cm v u = 0.
Proof.
  intros (ed & Hin & Hsrc & Hdst).
  destruct (decide (get cm v u = 0)) as [|Hne]; [done|].
  apply (bu_edge _ _ _ _ _ start_built) in Hne as (ed' & Hin' & Hsrc' & Hdst').
  destruct Hvalid as [_ Hopp]. destruct (Hopp ed ed' Hin Hin').
  unfold opposite. lia.
Qed.

Lemma ff_start :
  ff_static n cm Gr (FF.of_graph G) /\
  FF.f (FF.of_graph G) = fm /\ FF.hist (FF.of_graph G) = [].
Proof.
  destruct (ff_fold_fields (concat G) (FF.init (length G))) as (? & ? & ? & ? & ?).
  by split_and!.
Qed.

Lemma ek_start :
  ek_ok n cm Gr (EK.of_graph G) /\
  EK.f (EK.of_graph G) = fm /\ EK.hist (EK.of_graph G) = [].
Proof.
  destruct (ek_fold_fields (concat G) (EK.init (length G))) as (? & ? & ? & ? & ?).
  by split_and!.
Qed.

Hypothesis Hs : (s < n)%nat.
Hypothesis Hst : s <> t_.

(** Both runs, with everything the claims need about their last state. *)
Lemma ff_run k :
  (Z.to_nat (sumn n (get cm s)) < k)%nat ->
  exists e v,
    FF.compute k (FF.of_graph G) s t_ = Some (e, v) /\
    FF.c e = cm /\ FF.Gf e = Gr /\
    flow_inv n cm s t_ (FF.f e) (FF.hist e) /\
    v = wrap32 (net_out n (FF.f e) s) /\ 0 <= net_out n (FF.f e) s /\
    stamp (FF.visited e) s = true /\ stamp (FF.visited e) t_ = false /\
    closed cm (FF.f e) Gr (stamp (FF.visited e)).
Proof.
  intros Hk. destruct ff_start as (Hok & Hf & Hh).
  destruct (ff_loop_spec n cm Gr s t_ start_network Hs Hst k (FF.of_graph G) 0 Hok)
    as (e & v & total & Hrun & Hok' & Hinv & _ & Hval & Htot & Hv & Hcut).
  { rewrite Hf, Hh. apply start_flow_inv. }
  { rewrite Hf, start_value. lia. }
  { done. }
  exists e, v. destruct Hok' as (? & ? & _).
  rewrite Hf, start_value in Hval.
  split_and!; try done; try apply Hcut; [by rewrite Hv, Hval|lia].
Qed.

Lemma ek_run k :
  (Z.to_nat (sumn n (get cm s)) < k)%nat ->
  exists e v,
    EK.compute k (EK.of_graph G) s t_ = Some (e, v) /\
    EK.c e = cm /\ EK.Gf e = Gr /\
    flow_inv n cm s t_ (EK.f e) (EK.hist e) /\
    v = wrap32 (net_out n (EK.f e) s) /\ 0 <= net_out n (EK.f e) s /\
    stamp (EK.visited e) s = true /\ stamp (EK.visited e) t_ = false /\
    closed cm (EK.f e) Gr (stamp (EK.visited e)).
Proof.
  intros Hk. destruct ek_start as (Hok & Hf & Hh).
  destruct (ek_loop_spec n cm Gr s t_ start_network Hs Hst k (EK.of_graph G) 0 Hok)
    as (e & v & total & Hrun & Hok' & Hinv & _ & Hval & Htot & Hv & Hcut).
  { rewrite Hf, Hh. apply start_flow_inv. }
  { rewrite Hf, start_value. lia. }
  { done. }
  exists e, v. destruct Hok' as (? & ? & _).
  rewrite Hf, start_value in Hval.
  split_and!; try done; try apply Hcut; [by rewrite Hv, Hval|lia].
Qed.

(** Two flows of the network that each leave a closed set holding [s] and
    not [t_] have the same value: both are maximum. *)
Lemma closed_values_agree fm1 fm2 h1 h2 (S1 S2 : nat -> bool) :
  flow_inv n cm s t_ fm1 h1 -> flow_inv n cm s t_ fm2 h2 ->
  S1 s = true -> S1 t_ = false -> closed cm fm1 Gr S1 ->
  S2 s = true -> S2 t_ = false -> closed cm fm2 Gr S2 ->
  net_out n fm1 s = net_out n fm2 s.
Proof.
  intros [Hf1 Hc1 _] [Hf2 Hc2 _] H1s H1t H1c H2s H2t H2c.
  apply (saturated_values_agree n cm fm1 fm2 s t_ S1 S2); try done.
  - by apply (conserved_iff n cm).
  - by apply (conserved_iff n cm).
  - eapply closed_saturated; [apply start_network|done..].
  - eapply closed_saturated; [apply start_network|done..].
Qed.
End start.

(** ** What a search leaves alone *)

Lemma ff_explore_frame visit u flow :
  (forall e v fl e' r, visit e v fl = Some (e', r) ->
     FF.c e' = FF.c e /\ (r <= 0 -> FF.f e' = FF.f e /\ FF.hist e' = FF.hist e)) ->
  forall vs e e' r,
    FF.explore visit u flow vs e = Some (e', r) ->
    FF.c e' = FF.c e /\ (r <= 0 -> FF.f e' = FF.f e /\ FF.hist e' = FF.hist e).
Proof.
  intros Hvisit vs. induction vs as [|v rest IH]; intros e e' r Hrun; simpl in Hrun.
  - by injection Hrun as <- <-.
  - destruct (stamp (FF.visited e) v || (FF.cf e u v =? 0)); [by apply IH|].
    destruct (visit e v (Z.min flow (FF.cf e u v))) as [[e1 r1]|] eqn:Hv; [|done].
    destruct (Hvisit _ _ _ _ _ Hv) as [Hc Hf].
    destruct (Z.ltb_spec 0 r1) as [Hpos|Hle].
    + injection Hrun as <- <-. split; [done|]. lia.
    + destruct (IH _ _ _ Hrun) as [Hc' Hf']. destruct (Hf Hle) as [Hf1 Hh1].
      split; [congruence|]. intros Hr. destruct (Hf' Hr). split; congruence.
Qed.

Lemma ff_dfs_visit_frame k : forall e u t_ fl e' r,
  FF.dfs_visit k e u t_ fl = Some (e', r) ->
  FF.c e' = FF.c e /\ (r <= 0 -> FF.f e' = FF.f e /\ FF.hist e' = FF.hist e).
Proof.
  induction k as [|k IH]; intros e u t_ fl e' r Hrun; [done|]. simpl in Hrun.
  destruct (u =? t_)%nat.
  - by injection Hrun as <- <-.
  - eapply ff_explore_frame in Hrun; [done|]. intros e1 v fl1 e2 r2. apply IH.
Qed.

Lemma ff_dfs_frame e u t_ e' b :
  FF.dfs e u t_ = Some (e', b) ->
  FF.c e' = FF.c e /\ (b = false -> FF.f e' = FF.f e /\ FF.hist e' = FF.hist e).
Proof.
  unfold FF.dfs. intros Hrun.
  destruct (FF.dfs_visit _ _ _ _ _) as [[e1 r]|] eqn:Hv; [|done].
  injection Hrun as <- <-. apply ff_dfs_visit_frame in Hv as [Hc Hf].
  split; [done|]. intros Hb%Z.ltb_ge. by apply Hf.
Qed.

Lemma ek_scan_frame u : forall vs e Q e' Q',
  EK.scan u vs e Q = (e', Q') ->
  EK.c e' = EK.c e /\ EK.f e' = EK.f e /\ EK.hist e' = EK.hist e.
Proof.
  induction vs as [|v rest IH]; intros e Q e' Q' Hrun; simpl in Hrun.
  - by injection Hrun as <- <-.
  - destruct (stamp (EK.visited e) v || (EK.cf e u v =? 0)); [by eapply IH|].
    by apply IH in Hrun.
Qed.

Lemma ek_drain_frame fuel : forall e Q e',
  EK.drain fuel e Q = Some e' ->
  EK.c e' = EK.c e /\ EK.f e' = EK.f e /\ EK.hist e' = EK.hist e.
Proof.
  induction fuel as [|k IH]; intros e Q e' Hrun; [done|]. simpl in Hrun.
  destruct Q as [|u Q]; [by injection Hrun as <-|].
  destruct (EK.scan u (adj (EK.Gf e) u) e Q) as [e1 Q1] eqn:Hscan.
  apply ek_scan_frame in Hscan as (? & ? & ?). apply IH in Hrun as (? & ? & ?).
  split_and!; congruence.
Qed.

Lemma ek_bfs_frame e s t_ e' b :
  EK.bfs e s t_ = Some (e', b) ->
  EK.c e' = EK.c e /\ EK.f e' = EK.f e /\ EK.hist e' = EK.hist e.
Proof.
  unfold EK.bfs. intros Hrun.
  destruct (EK.drain _ _ _) as [e1|] eqn:Hd; [|done].
  injection Hrun as <- <-. by apply ek_drain_frame in Hd.
Qed.

(** ** [hist] follows every store into [f] *)

Lemma ff_explore_logged f0 visit u flow :
  (forall e v fl e' r, visit e v fl = Some (e', r) ->
     logged f0 (FF.f e) (FF.hist e) -> logged f0 (FF.f e') (FF.hist e')) ->
  forall vs e e' r,
    FF.explore visit u flow vs e = Some (e', r) ->
    logged f0 (FF.f e) (FF.hist e) -> logged f0 (FF.f e') (FF.hist e').
Proof.
  intros Hvisit vs. induction vs as [|v rest IH]; intros e e' r Hrun Hlog; simpl in Hrun.
  - by injection Hrun as <- <-.
  - destruct (stamp (FF.visited e) v || (FF.cf e u v =? 0)); [by eapply IH|].
    destruct (visit e v (Z.min flow (FF.cf e u v))) as [[e1 r1]|] eqn:Hv; [|done].
    pose proof (Hvisit _ _ _ _ _ Hv Hlog) as Hlog1.
    destruct (0 <? r1); [by injection Hrun as <- <-|by eapply IH].
Qed.

Lemma ff_dfs_visit_logged f0 k : forall e u t_ fl e' r,
  FF.dfs_visit k e u t_ fl = Some (e', r) ->
  logged f0 (FF.f e) (FF.hist e) -> logged f0 (FF.f e') (FF.hist e').
Proof.
  induction k as [|k IH]; intros e u t_ fl e' r Hrun Hlog; [done|]. simpl in Hrun.
  destruct (u =? t_)%nat.
  - by injection Hrun as <- <-.
  - eapply ff_explore_logged in Hrun; [done| |done]. intros e1 v fl1 e2 r2. apply IH.
Qed.

Lemma ff_loop_logged f0 fuel : forall e s t_ flow e' v,
  FF.loop fuel e s t_ flow = Some (e', v) ->
  logged f0 (FF.f e) (FF.hist e) -> logged f0 (FF.f e') (FF.hist e').
Proof.
  induction fuel as [|k IH]; intros e s t_ flow e' v Hrun Hlog; [done|].
  simpl in Hrun. unfold FF.dfs in Hrun.
  destruct (FF.dfs_visit _ _ _ _ _) as [[e1 r]|] eqn:Hv; [|done].
  apply ff_dfs_visit_logged with (f0 := f0) in Hv; [|done].
  destruct (0 <? r); [by eapply IH in Hrun|by injection Hrun as <- <-].
Qed.

Lemma ek_update_logged f0 fuel : forall e s v d e',
  EK.update fuel e s v d = Some e' ->
  logged f0 (EK.f e) (EK.hist e) -> logged f0 (EK.f e') (EK.hist e').
Proof.
  induction fuel as [|k IH]; intros e s v d e' Hrun Hlog; [done|]. simpl in Hrun.
  destruct (v =? s)%nat; [by injection Hrun as <-|].
  destruct (EK.pi_at e v <? 0); [done|]. by eapply IH in Hrun.
Qed.

Lemma ek_loop_logged f0 fuel : forall e s t_ flow e' v,
  EK.loop fuel e s t_ flow = Some (e', v) ->
  logged f0 (EK.f e) (EK.hist e) -> logged f0 (EK.f e') (EK.hist e').
Proof.
  induction fuel as [|k IH]; intros e s t_ flow e' v Hrun Hlog; [done|].
  simpl in Hrun.
  destruct (EK.bfs e s t_) as [[e1 b]|] eqn:Hbfs; [|done].
  apply ek_bfs_frame in Hbfs as (_ & Hf1 & Hh1).
  destruct b; [|injection Hrun as <- <-; by rewrite Hf1, Hh1].
  unfold EK.proc in Hrun.
  destruct (EK.bottleneck _ _ _ _ _) as [d|]; [|done].
  destruct (EK.update _ _ _ _ _) as [e2|] eqn:Hup; [|done].
  apply ek_update_logged with (f0 := f0) in Hup; [|by rewrite Hf1, Hh1].
  by eapply IH in Hrun.
Qed.

(** ** Source and sink the same vertex *)

Lemma ff_same_loop fuel s : forall e flow,
  (0 < FF.n e)%nat -> FF.loop fuel e s s flow = None.
Proof.
  induction fuel as [|k IH]; intros e flow Hn; [done|].
  simpl. rewrite ff_dfs_same by done. by apply IH.
Qed.

Lemma ek_proc_same e s :
  (0 < EK.n e)%nat -> EK.proc e s s = Some (e, limits.inf).
Proof.
  intros Hn. unfold EK.proc. destruct (EK.n e); [lia|]. simpl.
  by rewrite Nat.eqb_refl.
Qed.

Section ek_same.
Context (n : nat) (cm : matrix_t) (G : list (list nat)) (s : nat).
Hypothesis Hnet : network n cm G.
Hypothesis Hs : (s < n)%nat.

Lemma ek_bfs_same e :
  ek_ok n cm G e -> feasible n cm (EK.f e) ->
  exists e1, EK.bfs e s s = Some (e1, true) /\ ek_ok n cm G e1 /\
             EK.f e1 = EK.f e /\ EK.hist e1 = EK.hist e.
Proof.
  intros Hok Hfe.
  destruct (ek_bfs_spec n cm (EK.f e) G s Hnet Hfe e s Hok eq_refl Hs)
    as (e1 & b & Hrun & Hok1 & Hf1 & Hh1 & Hb & Hs1 & _).
  exists e1. rewrite Hs1 in Hb. subst b. done.
Qed.

Lemma ek_same_loop fuel : forall e flow,
  ek_ok n cm G e -> feasible n cm (EK.f e) -> EK.loop fuel e s s flow = None.
Proof.
  induction fuel as [|k IH]; intros e flow Hok Hfe; [done|].
  destruct (ek_bfs_same e Hok Hfe) as (e1 & Hrun & Hok1 & Hf1 & _).
  simpl. rewrite Hrun, ek_proc_same.
  - apply IH; [done|]. by rewrite Hf1.
  - destruct Hok1 as (_ & _ & ->). lia.
Qed.
End ek_same.

(** ** The stamps of [bfs] and reachability *)

Lemma pi_path_reach n cm G fm pi s v p :
  network n cm G -> bounded cm fm ->
  pi_path pi s v p -> chain (fun x y => 0 < residual cm fm x y) p -> reach cm fm s v.
Proof.
  intros Hnet Hb. induction 1 as [|v u p Hvs Hpi Hp IH]; intros Hch; [constructor|].
  pose proof (pi_path_head _ _ _ _ Hp) as Hhd.
  destruct p as [|u' tl]; [done|]. injection Hhd as ->.
  destruct Hch as [Huv Hch]. rewrite (residual_exact n cm G Hnet) in Huv by done.
  eapply reach_step; [by apply IH|done].
Qed.

(** * The claims *)

(** The fuel that pays for every run on [G] from [s]: one test of the loop
    per unit of capacity leaving [s], and the last one. *)
Lemma enough_fuel_spec (G : graph_t) (s k : nat) :
  (S (Z.to_nat (sumn (length G) (get (built_c (length G) (concat G)) s))) <= k)%nat ->
  (Z.to_nat (sumn (length G) (get (built_c (length G) (concat G)) s)) < k)%nat.
Proof. lia. Qed.

(** Agreement of the two engines.  On every valid input with [s <> t],
    [ford_fulkerson::compute(s, t)] and [edmonds_karp::compute(s, t)] both
    return, and return the same value. *)
Lemma engines_agree (G : graph_t) (s t_ : nat) :
  valid_graph G -> (s < length G)%nat -> (t_ < length G)%nat -> s <> t_ ->
  exists fuel v, forall k, (fuel <= k)%nat ->
    (exists e, FF.compute k (FF.of_graph G) s t_ = Some (e, v)) /\
    (exists e, EK.compute k (EK.of_graph G) s t_ = Some (e, v)).
Proof.
  intros Hvalid Hs Ht Hst.
  set (fuel := S (Z.to_nat (sumn (length G) (get (built_c (length G) (concat G)) s)))).
  destruct (ff_run G s t_ Hvalid Hs Hst fuel) as (e0 & v0 & _ & _ & _ & Hi0 & Hv0 & _ & H0s & H0t & H0c);
    [unfold fuel; lia|].
  exists fuel, v0. intros k Hk. apply enough_fuel_spec in Hk.
  destruct (ff_run G s t_ Hvalid Hs Hst k Hk) as (e1 & v1 & Hr1 & _ & _ & Hi1 & Hv1 & _ & H1s & H1t & H1c).
  destruct (ek_run G s t_ Hvalid Hs Hst k Hk) as (e2 & v2 & Hr2 & _ & _ & Hi2 & Hv2 & _ & H2s & H2t & H2c).
  split.
  - exists e1. rewrite Hr1, Hv1, Hv0. do 3 f_equal.
    exact (closed_values_agree G s t_ Hvalid Hs Hst _ _ _ _
             (stamp (FF.visited e1)) (stamp (FF.visited e0)) Hi1 Hi0 H1s H1t H1c H0s H0t H0c).
  - exists e2. rewrite Hr2, Hv2, Hv0. do 3 f_equal.
    exact (closed_values_agree G s t_ Hvalid Hs Hst _ _ _ _
             (stamp (EK.visited e2)) (stamp (FF.visited e0)) Hi2 Hi0 H2s H2t H2c H0s H0t H0c).
Qed.

Lemma engines_agree_witness :
  valid_graph scenario_B /\
  exists fuel v, forall k, (fuel <= k)%nat ->
    (exists e, FF.compute k (FF.of_graph scenario_B) 0 3 = Some (e, v)) /\
    (exists e, EK.compute k (EK.of_graph scenario_B) 0 3 = Some (e, v)).
Proof.
  split; [apply valid_graphb_spec; reflexivity|].
  apply (engines_agree scenario_B 0 3);
    [apply valid_graphb_spec; reflexivity|simpl; lia|simpl; lia|lia].
Defined.

(** C1. The value the two engines agree on against the maximum-flow value,
    on [overflow_graph] with [compute(0, 3)].  The maximum flow of this
    network has the value [2^31]: no flow of the network has a larger net
    flow out of the source, and the matrices [f] the two engines leave are
    flows of the network, conserved at the inner vertices, of exactly that
    value.  Both calls return the same number, and it is [-2^31]: the
    accumulator [flow] of [compute] is a [capacity_t], and the fourth
    augmentation takes it past the largest one. *)
Theorem agreed_value_is_not_the_maximum :
  valid_graph overflow_graph /\
  (forall g, feasible 4 (FF.c (FF.of_graph overflow_graph)) g ->
             net_out 4 g 0 <= 2147483648) /\
  exists e1 e2 v,
    FF.compute 8 (FF.of_graph overflow_graph) 0 3 = Some (e1, v) /\
    EK.compute 8 (EK.of_graph overflow_graph) 0 3 = Some (e2, v) /\
    v = -2147483648 /\
    FF.c e1 = FF.c (FF.of_graph overflow_graph) /\
    EK.c e2 = FF.c (FF.of_graph overflow_graph) /\
    feasible 4 (FF.c e1) (FF.f e1) /\ conserved 4 (FF.f e1) 0 3 /\
    net_out 4 (FF.f e1) 0 = 2147483648 /\
    feasible 4 (EK.c e2) (EK.f e2) /\ conserved 4 (EK.f e2) 0 3 /\
    net_out 4 (EK.f e2) 0 = 2147483648.
Proof.
  split; [apply valid_graphb_spec; reflexivity|]. split.
  - intros g Hg. pose proof (value_le_source 4 _ 0 g Hg) as Hle.
    assert (Hsum : sumn 4 (get (FF.c (FF.of_graph overflow_graph)) 0) = 2147483648)
      by (vm_compute; reflexivity).
    lia.
  - assert (Hfe : forall cm fm : matrix_t,
              length fm = 4%nat -> Forall (fun row => length row = 4%nat) fm ->
              (forall u v, (u < 4)%nat -> (v < 4)%nat ->
                 get fm u v = - get fm v u /\ get fm u v <= get cm u v) ->
              (forall u v, (4 <= u)%nat \/ (4 <= v)%nat ->
                 get fm u v = 0 /\ get fm v u = 0 /\ 0 <= get cm u v) ->
              feasible 4 cm fm).
    { intros cm fm Hl Hr Hin Hout. split; [by split| |].
      - intros u v. destruct (decide (u < 4)%nat); [destruct (decide (v < 4)%nat)|].
        + by apply Hin.
        + destruct (Hout u v) as (-> & -> & _); [lia|done].
        + destruct (Hout u v) as (-> & -> & _); [lia|done].
      - intros u v. destruct (decide (u < 4)%nat); [destruct (decide (v < 4)%nat)|].
        + by apply Hin.
        + destruct (Hout u v) as (-> & _ & ?); [lia|done].
        + destruct (Hout u v) as (-> & _ & ?); [lia|done]. }
    eexists _, _, _. split; [vm_compute; reflexivity|].
    split; [vm_compute; reflexivity|]. split; [reflexivity|].
    split; [vm_compute; reflexivity|]. split; [vm_compute; reflexivity|].
    split_and!.
    + apply Hfe; [reflexivity|repeat constructor| |].
      * intros u v Hu Hv.
        destruct u as [|[|[|[|u]]]]; [| | | |lia];
          (destruct v as [|[|[|[|v]]]]; [| | | |lia]); vm_compute; split; congruence.
      * intros u v Huv.
        destruct u as [|[|[|[|u]]]]; destruct v as [|[|[|[|v]]]];
          try (exfalso; lia); vm_compute; split_and!; congruence.
    + intros u Hu H0 H3. destruct u as [|[|[|[|u]]]]; [done| | |done|lia];
        vm_compute; by split.
    + vm_compute. reflexivity.
    + apply Hfe; [reflexivity|repeat constructor| |].
      * intros u v Hu Hv.
        destruct u as [|[|[|[|u]]]]; [| | | |lia];
          (destruct v as [|[|[|[|v]]]]; [| | | |lia]); vm_compute; split; congruence.
      * intros u v Huv.
        destruct u as [|[|[|[|u]]]]; destruct v as [|[|[|[|v]]]];
          try (exfalso; lia); vm_compute; split_and!; congruence.
    + intros u Hu H0 H3. destruct u as [|[|[|[|u]]]]; [done| | |done|lia];
        vm_compute; by split.
    + vm_compute. reflexivity.
Qed.

(** What the returned value is in general: the net flow out of the source
    and into the sink, reduced to 32 bits by the accumulator [flow]. *)
Lemma total_net_out n cm fm : feasible n cm fm -> sumn n (net_out n fm) = 0.
Proof.
  intros Hfe. rewrite <- (inside_zero n cm fm (fun _ => true) Hfe).
  apply sumn_ext. intros u _. by apply sumn_ext.
Qed.

Lemma sink_value n cm fm h s t_ :
  flow_inv n cm s t_ fm h -> (s < n)%nat -> (t_ < n)%nat -> s <> t_ ->
  net_in n fm t_ = net_out n fm s.
Proof.
  intros [Hfe Hcons _] Hs Ht Hst. rewrite (net_in_out n cm) by done.
  pose proof (total_net_out n cm fm Hfe) as Htot.
  rewrite (sumn_ext _ _ (fun u => (0 + (if decide (u = s) then net_out n fm s else 0))
                                  + (if decide (u = t_) then net_out n fm t_ else 0))) in Htot.
  - rewrite !sumn_bump in Htot. rewrite !decide_True in Htot by done.
    rewrite sumn_zero in Htot by done. lia.
  - intros u Hu. repeat case_decide; subst; try lia. rewrite Hcons by done. lia.
Qed.

Lemma returned_value_spec (G : graph_t) (s t_ : nat) :
  valid_graph G -> (s < length G)%nat -> (t_ < length G)%nat -> s <> t_ ->
  exists fuel, forall k, (fuel <= k)%nat ->
    (exists e v, FF.compute k (FF.of_graph G) s t_ = Some (e, v) /\
                 v = wrap32 (net_out (length G) (FF.f e) s) /\
                 net_in (length G) (FF.f e) t_ = net_out (length G) (FF.f e) s /\
                 (sumn (length G) (get (FF.c e) s) <= int32_max ->
                  v = net_out (length G) (FF.f e) s)) /\
    (exists e v, EK.compute k (EK.of_graph G) s t_ = Some (e, v) /\
                 v = wrap32 (net_out (length G) (EK.f e) s) /\
                 net_in (length G) (EK.f e) t_ = net_out (length G) (EK.f e) s /\
                 (sumn (length G) (get (EK.c e) s) <= int32_max ->
                  v = net_out (length G) (EK.f e) s)).
Proof.
  intros Hvalid Hs Ht Hst.
  exists (S (Z.to_nat (sumn (length G) (get (built_c (length G) (concat G)) s)))).
  intros k Hk%enough_fuel_spec.
  destruct (ff_run G s t_ Hvalid Hs Hst k Hk)
    as (e1 & v1 & Hr1 & Hc1 & _ & Hi1 & Hv1 & Hnn1 & _).
  destruct (ek_run G s t_ Hvalid Hs Hst k Hk)
    as (e2 & v2 & Hr2 & Hc2 & _ & Hi2 & Hv2 & Hnn2 & _).
  assert (Hfit : forall fm h, flow_inv (length G) (built_c (length G) (concat G)) s t_ fm h ->
            0 <= net_out (length G) fm s ->
            sumn (length G) (get (built_c (length G) (concat G)) s) <= int32_max ->
            wrap32 (net_out (length G) fm s) = net_out (length G) fm s).
  { intros fm h Hi Hnn Hle. apply wrap32_id.
    pose proof (value_le_source _ _ s fm (fi_feasible _ _ _ _ _ _ Hi)).
    unfold int32_min. lia. }
  split.
  - exists e1, v1. split_and!; try done.
    + by eapply sink_value.
    + rewrite Hc1, Hv1. by eapply Hfit.
  - exists e2, v2. split_and!; try done.
    + by eapply sink_value.
    + rewrite Hc2, Hv2. by eapply Hfit.
Qed.

(** C2. The value [compute] returns against the net flow out of the source
    and into the sink of the final matrix, on [overflow_graph]: both engines
    return [-2^31] while the net flow is [2^31]; the accumulator [flow] of
    [compute] is a [capacity_t] and the sum does not fit. *)
Theorem returned_value_overflows :
  valid_graph overflow_graph /\
  match FF.compute 8 (FF.of_graph overflow_graph) 0 3 with
  | Some (e, v) => v = -2147483648 /\ net_out 4 (FF.f e) 0 = 2147483648 /\
                   net_in 4 (FF.f e) 3 = 2147483648
  | None => False
  end /\
  match EK.compute 8 (EK.of_graph overflow_graph) 0 3 with
  | Some (e, v) => v = -2147483648 /\ net_out 4 (EK.f e) 0 = 2147483648 /\
                   net_in 4 (EK.f e) 3 = 2147483648
  | None => False
  end.
Proof.
  split; [apply valid_graphb_spec; reflexivity|].
  split; vm_compute; by split_and!.
Qed.



(** C4. For every valid input and every edge [(u, v)] of the graph,
    [0 <= f[u][v] <= c[u][v]] holds in the matrix [f] the engine starts from
    and in the matrix left by every single store into [f] that [compute]
    performs, the first of the two stores of an update included.  The list
    of those matrices ends in the matrix [compute] leaves, and [c] is never
    changed. *)
Theorem capacity_bound_at_every_store (G : graph_t) (s t_ : nat) :
  valid_graph G -> (s < length G)%nat -> (t_ < length G)%nat -> s <> t_ ->
  exists fuel, forall k, (fuel <= k)%nat ->
    (exists e v, FF.compute k (FF.of_graph G) s t_ = Some (e, v) /\
                 FF.c e = FF.c (FF.of_graph G) /\
                 head (FF.hist e ++ [FF.f (FF.of_graph G)]) = Some (FF.f e) /\
                 forall m u v, m ∈ FF.hist e ++ [FF.f (FF.of_graph G)] ->
                               original_edge G u v ->
                               0 <= get m u v <= get (FF.c e) u v) /\
    (exists e v, EK.compute k (EK.of_graph G) s t_ = Some (e, v) /\
                 EK.c e = EK.c (EK.of_graph G) /\
                 head (EK.hist e ++ [EK.f (EK.of_graph G)]) = Some (EK.f e) /\
                 forall m u v, m ∈ EK.hist e ++ [EK.f (EK.of_graph G)] ->
                               original_edge G u v ->
                               0 <= get m u v <= get (EK.c e) u v).
Proof.
  intros Hvalid Hs Ht Hst.
  exists (S (Z.to_nat (sumn (length G) (get (built_c (length G) (concat G)) s)))).
  intros k Hk%enough_fuel_spec.
  destruct (ff_run G s t_ Hvalid Hs Hst k Hk) as (e1 & v1 & Hr1 & Hc1 & _ & Hi1 & _).
  destruct (ek_run G s t_ Hvalid Hs Hst k Hk) as (e2 & v2 & Hr2 & Hc2 & _ & Hi2 & _).
  destruct (ff_start G) as ((Hc01 & _) & Hf01 & Hh01).
  destruct (ek_start G) as ((Hc02 & _) & Hf02 & Hh02).
  pose proof (feasible_bounded _ _ _ (start_feasible G Hvalid)) as Hb0.
  assert (Hedge : forall m u v, bounded (built_c (length G) (concat G)) m ->
            original_edge G u v ->
            0 <= get m u v <= get (built_c (length G) (concat G)) u v).
  { intros m u v Hb Huv. specialize (Hb u v).
    rewrite (start_original G Hvalid u v Huv) in Hb. lia. }
  split.
  - exists e1, v1. split; [done|]. split; [congruence|]. split.
    { eapply ff_loop_logged; [exact Hr1|]. unfold logged. by rewrite Hh01. }
    intros m u v [Hm|Hm%list_elem_of_singleton]%elem_of_app Huv; rewrite Hc1; apply Hedge; try done.
    + pose proof (fi_hist _ _ _ _ _ _ Hi1) as Hh. rewrite Forall_forall in Hh. by apply Hh.
    + by rewrite Hm, Hf01.
  - exists e2, v2. split; [done|]. split; [congruence|]. split.
    { eapply ek_loop_logged; [exact Hr2|]. unfold logged. by rewrite Hh02. }
    intros m u v [Hm|Hm%list_elem_of_singleton]%elem_of_app Huv; rewrite Hc2; apply Hedge; try done.
    + pose proof (fi_hist _ _ _ _ _ _ Hi2) as Hh. rewrite Forall_forall in Hh. by apply Hh.
    + by rewrite Hm, Hf02.
Qed.

Lemma capacity_bound_at_every_store_witness :
  valid_graph scenario_B /\
  exists fuel, forall k, (fuel <= k)%nat ->
    (exists e v, FF.compute k (FF.of_graph scenario_B) 0 3 = Some (e, v) /\
                 FF.c e = FF.c (FF.of_graph scenario_B) /\
                 head (FF.hist e ++ [FF.f (FF.of_graph scenario_B)]) = Some (FF.f e) /\
                 forall m u v, m ∈ FF.hist e ++ [FF.f (FF.of_graph scenario_B)] ->
                               original_edge scenario_B u v ->
                               0 <= get m u v <= get (FF.c e) u v) /\
    (exists e v, EK.compute k (EK.of_graph scenario_B) 0 3 = Some (e, v) /\
                 EK.c e = EK.c (EK.of_graph scenario_B) /\
                 head (EK.hist e ++ [EK.f (EK.of_graph scenario_B)]) = Some (EK.f e) /\
                 forall m u v, m ∈ EK.hist e ++ [EK.f (EK.of_graph scenario_B)] ->
                               original_edge scenario_B u v ->
                               0 <= get m u v <= get (EK.c e) u v).
Proof.
  split; [apply valid_graphb_spec; reflexivity|].
  apply (capacity_bound_at_every_store scenario_B 0 3);
    [apply valid_graphb_spec; reflexivity|simpl; lia|simpl; lia|lia].
Defined.

(** C5. For every valid input with [s <> t], conservation holds at every
    vertex other than [s] and [t] each time [compute] tests the condition of
    its loop, and in the state it returns: the flow carried into the vertex
    equals the flow carried out of it, and its row of [f] sums to [0]. *)
Theorem conservation_observed (G : graph_t) (s t_ : nat) :
  valid_graph G -> (s < length G)%nat -> (t_ < length G)%nat -> s <> t_ ->
  (forall e, ff_observed s t_ (FF.of_graph G) e -> conserved (length G) (FF.f e) s t_) /\
  (forall e, ek_observed s t_ (EK.of_graph G) e -> conserved (length G) (EK.f e) s t_) /\
  exists fuel, forall k, (fuel <= k)%nat ->
    (exists e v, FF.compute k (FF.of_graph G) s t_ = Some (e, v) /\
                 conserved (length G) (FF.f e) s t_) /\
    (exists e v, EK.compute k (EK.of_graph G) s t_ = Some (e, v) /\
                 conserved (length G) (EK.f e) s t_).
Proof.
  intros Hvalid Hs Ht Hst.
  pose proof (start_network G Hvalid) as Hnet.
  assert (Hcons : forall fm h,
            flow_inv (length G) (built_c (length G) (concat G)) s t_ fm h ->
            conserved (length G) fm s t_).
  { intros fm h [Hfe Hc _]. by apply (conserved_iff _ _ fm s t_ Hfe). }
  destruct (ff_start G) as (Hok1 & Hf1 & Hh1).
  destruct (ek_start G) as (Hok2 & Hf2 & Hh2).
  pose proof (start_flow_inv G s t_ Hvalid) as Hinv0.
  split; [|split].
  - intros e Hobs.
    destruct (ff_observed_inv _ _ _ s t_ Hnet Hs Hst _ e Hok1) as [_ Hinv]; [|done|by eapply Hcons].
    by rewrite Hf1, Hh1.
  - intros e Hobs.
    destruct (ek_observed_inv _ _ _ s t_ Hnet Hs Hst _ e Hok2) as [_ Hinv]; [|done|by eapply Hcons].
    by rewrite Hf2, Hh2.
  - exists (S (Z.to_nat (sumn (length G) (get (built_c (length G) (concat G)) s)))).
    intros k Hk%enough_fuel_spec.
    destruct (ff_run G s t_ Hvalid Hs Hst k Hk) as (e1 & v1 & Hr1 & _ & _ & Hi1 & _).
    destruct (ek_run G s t_ Hvalid Hs Hst k Hk) as (e2 & v2 & Hr2 & _ & _ & Hi2 & _).
    split; [exists e1, v1|exists e2, v2]; (split; [done|by eapply Hcons]).
Qed.

Lemma conservation_observed_witness :
  valid_graph scenario_B /\
  (forall e, ff_observed 0 3 (FF.of_graph scenario_B) e -> conserved 4 (FF.f e) 0 3) /\
  (forall e, ek_observed 0 3 (EK.of_graph scenario_B) e -> conserved 4 (EK.f e) 0 3) /\
  exists fuel, forall k, (fuel <= k)%nat ->
    (exists e v, FF.compute k (FF.of_graph scenario_B) 0 3 = Some (e, v) /\
                 conserved 4 (FF.f e) 0 3) /\
    (exists e v, EK.compute k (EK.of_graph scenario_B) 0 3 = Some (e, v) /\
                 conserved 4 (EK.f e) 0 3).
Proof.
  split; [apply valid_graphb_spec; reflexivity|].
  apply (conservation_observed scenario_B 0 3);
    [apply valid_graphb_spec; reflexivity|simpl; lia|simpl; lia|lia].
Defined.

(** C6. For every valid input with [s <> t], the loop of [compute] stops in
    both engines: it tests its condition at most once per unit of capacity
    leaving the source, and once more. *)
Theorem compute_terminates (G : graph_t) (s t_ : nat) :
  valid_graph G -> (s < length G)%nat -> (t_ < length G)%nat -> s <> t_ ->
  forall k, (Z.to_nat (sumn (length G) (get (FF.c (FF.of_graph G)) s)) < k)%nat ->
    (exists r, FF.compute k (FF.of_graph G) s t_ = Some r) /\
    (exists r, EK.compute k (EK.of_graph G) s t_ = Some r).
Proof.
  intros Hvalid Hs Ht Hst k Hk.
  destruct (ff_start G) as ((Hc & _) & _). rewrite Hc in Hk.
  destruct (ff_run G s t_ Hvalid Hs Hst k Hk) as (e1 & v1 & Hr1 & _).
  destruct (ek_run G s t_ Hvalid Hs Hst k Hk) as (e2 & v2 & Hr2 & _).
  split; eauto.
Qed.

Lemma compute_terminates_witness :
  valid_graph scenario_B /\
  (exists r, FF.compute 6 (FF.of_graph scenario_B) 0 3 = Some r) /\
  (exists r, EK.compute 6 (EK.of_graph scenario_B) 0 3 = Some r).
Proof.
  split; [apply valid_graphb_spec; reflexivity|].
  apply (compute_terminates scenario_B 0 3);
    [apply valid_graphb_spec; reflexivity|simpl; lia|simpl; lia|lia|vm_compute; lia].
Defined.

(** C7, as the code has it.  There is no test for [s = t] in either engine:
    every search from [s] to [s] succeeds at once, with [limits::inf] as its
    amount and without a store into [f].  So the flow matrix stays all zero
    each time the loop tests its condition, but the loop never ends:
    [compute(s, s)] returns no value, for any number of iterations. *)
Theorem same_endpoint_spins (G : graph_t) (s : nat) :
  valid_graph G -> (s < length G)%nat ->
  (forall fuel, FF.compute fuel (FF.of_graph G) s s = None) /\
  (forall fuel, EK.compute fuel (EK.of_graph G) s s = None) /\
  (forall e, ff_observed s s (FF.of_graph G) e ->
     (forall u v, get (FF.f e) u v = 0) /\ FF.hist e = [] /\
     exists e', FF.dfs e s s = Some (e', true) /\ FF.augment e' = limits.inf /\
                FF.f e' = FF.f e) /\
  (forall e, ek_observed s s (EK.of_graph G) e ->
     (forall u v, get (EK.f e) u v = 0) /\ EK.hist e = [] /\
     exists e1, EK.bfs e s s = Some (e1, true) /\
                EK.proc e1 s s = Some (e1, limits.inf) /\ EK.f e1 = EK.f e).
Proof.
  intros Hvalid Hs.
  pose proof (start_network G Hvalid) as Hnet.
  pose proof (start_feasible G Hvalid) as Hfe.
  destruct (ff_start G) as ((Hc1 & HG1 & Hn1) & Hf1 & Hh1).
  destruct (ek_start G) as (Hok2 & Hf2 & Hh2).
  split; [|split; [|split]].
  - intros fuel. apply ff_same_loop. lia.
  - intros fuel. eapply ek_same_loop; [exact Hnet|done|done|by rewrite Hf2].
  - intros e Hobs.
    assert (FF.f e = FF.f (FF.of_graph G) /\ FF.hist e = [] /\ FF.n e = length G)
      as (Hf & Hh & Hn).
    { induction Hobs as [|e e' Hobs (IHf & IHh & IHn) Hrun]; [done|].
      rewrite ff_dfs_same in Hrun by lia. by injection Hrun as <-. }
    split; [|split; [done|]].
    + intros u v. rewrite Hf, Hf1. apply (start_zero G Hvalid).
    + eexists. rewrite ff_dfs_same by lia. done.
  - intros e Hobs.
    assert (ek_ok (length G) (built_c (length G) (concat G)) (built_G (length G) (concat G)) e
            /\ EK.f e = EK.f (EK.of_graph G) /\ EK.hist e = []) as (Hok & Hf & Hh).
    { induction Hobs as [|e e1 e2 d Hobs (IHok & IHf & IHh) Hrun Hproc]; [done|].
      destruct (ek_bfs_same _ _ _ s Hnet Hs e IHok) as (e1' & Hrun' & Hok1 & Hf1' & Hh1');
        [by rewrite IHf, Hf2|].
      rewrite Hrun in Hrun'. injection Hrun' as <-.
      rewrite ek_proc_same in Hproc by (destruct Hok1 as (_ & _ & ->); lia).
      injection Hproc as <- <-. split_and!; congruence. }
    split; [|split; [done|]].
    + intros u v. rewrite Hf, Hf2. apply (start_zero G Hvalid).
    + destruct (ek_bfs_same _ _ _ s Hnet Hs e Hok) as (e1 & Hrun & Hok1 & Hf1' & _);
        [by rewrite Hf, Hf2|].
      exists e1. split; [done|]. split; [|done].
      apply ek_proc_same. destruct Hok1 as (_ & _ & ->). lia.
Qed.

Lemma same_endpoint_spins_witness :
  valid_graph scenario_B /\
  (forall fuel, FF.compute fuel (FF.of_graph scenario_B) 0 0 = None) /\
  (forall fuel, EK.compute fuel (EK.of_graph scenario_B) 0 0 = None).
Proof.
  split; [apply valid_graphb_spec; reflexivity|].
  pose proof (same_endpoint_spins scenario_B 0) as H.
  destruct H as (H1 & H2 & _); [apply valid_graphb_spec; reflexivity|simpl; lia|].
  split; [exact H1|exact H2].
Defined.

(** C7 as stated fails: [compute(0, 0)] on the graph of scenario B returns
    no value, and so not [0], whatever the number of iterations allowed. *)
Lemma same_endpoint_no_zero :
  ~ (exists fuel e, FF.compute fuel (FF.of_graph scenario_B) 0 0 = Some (e, 0)) /\
  ~ (exists fuel e, EK.compute fuel (EK.of_graph scenario_B) 0 0 = Some (e, 0)).
Proof.
  pose proof (valid_graphb_spec scenario_B eq_refl) as Hvalid.
  pose proof (start_network scenario_B Hvalid) as Hnet.
  pose proof (start_feasible scenario_B Hvalid) as Hfe.
  destruct (ek_start scenario_B) as (Hok & Hf & _).
  split; intros (fuel & e & Hrun).
  - unfold FF.compute in Hrun. rewrite ff_same_loop in Hrun; [done|simpl; lia].
  - unfold EK.compute in Hrun.
    rewrite (ek_same_loop _ _ _ 0%nat Hnet) in Hrun; [done|simpl; lia|done|by rewrite Hf].
Qed.

(** C8, as the code has it.  [add_edge] tests nothing and reports nothing:
    for indices inside the engine and any [cap], negative ones included, it
    stores [cap] into [c[u][v]] and then [0] into [c[v][u]] (so a self-loop
    ends with capacity [0], and an edge [(v, u)] added before loses its
    capacity), sets [f[u][v]] and [f[v][u]] to [0], appends [v] to [Gf[u]]
    and then [u] to [Gf[v]], and leaves everything else as it was: every
    other entry of [c] and [f], what the rows of [Gf] held before (the row
    of [u] is the old row followed by [v], the row of [v] the old row
    followed by [u], both for a self-loop, and every other row is the old
    row), the number of rows, the shape of the matrices and the other
    members of the engine. *)
Theorem add_edge_unchecked (n u v : nat) (cap : Z) :
  (u < n)%nat -> (v < n)%nat ->
  (forall e, square n (FF.c e) -> square n (FF.f e) -> length (FF.Gf e) = n ->
     let e' := FF.add_edge u v cap e in
     get (FF.c e') u v = (if decide (u = v) then 0 else cap) /\
     get (FF.c e') v u = 0 /\ get (FF.f e') u v = 0 /\ get (FF.f e') v u = 0 /\
     v ∈ adj (FF.Gf e') u /\ u ∈ adj (FF.Gf e') v /\
     (forall x y, ~ (x = u /\ y = v) -> ~ (x = v /\ y = u) ->
        get (FF.c e') x y = get (FF.c e) x y /\ get (FF.f e') x y = get (FF.f e) x y) /\
     (forall x, adj (FF.Gf e') x
                = adj (FF.Gf e) x ++ (if decide (x = u) then [v] else [])
                                  ++ (if decide (x = v) then [u] else [])) /\
     length (FF.Gf e') = length (FF.Gf e) /\
     square n (FF.c e') /\ square n (FF.f e') /\
     FF.n e' = FF.n e /\ FF.visited e' = FF.visited e /\
     FF.augment e' = FF.augment e /\ FF.hist e' = FF.hist e) /\
  (forall e, square n (EK.c e) -> square n (EK.f e) -> length (EK.Gf e) = n ->
     let e' := EK.add_edge u v cap e in
     get (EK.c e') u v = (if decide (u = v) then 0 else cap) /\
     get (EK.c e') v u = 0 /\ get (EK.f e') u v = 0 /\ get (EK.f e') v u = 0 /\
     v ∈ adj (EK.Gf e') u /\ u ∈ adj (EK.Gf e') v /\
     (forall x y, ~ (x = u /\ y = v) -> ~ (x = v /\ y = u) ->
        get (EK.c e') x y = get (EK.c e) x y /\ get (EK.f e') x y = get (EK.f e) x y) /\
     (forall x, adj (EK.Gf e') x
                = adj (EK.Gf e) x ++ (if decide (x = u) then [v] else [])
                                  ++ (if decide (x = v) then [u] else [])) /\
     length (EK.Gf e') = length (EK.Gf e) /\
     square n (EK.c e') /\ square n (EK.f e') /\
     EK.n e' = EK.n e /\ EK.visited e' = EK.visited e /\
     EK.pi e' = EK.pi e /\ EK.hist e' = EK.hist e).
Proof.
  intros Hu Hv.
  assert (Hall : forall cm fm Gr, square n cm -> square n fm -> length Gr = n ->
    get (add_edge_c (Edge u v cap) cm) u v = (if decide (u = v) then 0 else cap) /\
    get (add_edge_c (Edge u v cap) cm) v u = 0 /\
    get (add_edge_f (Edge u v cap) fm) u v = 0 /\
    get (add_edge_f (Edge u v cap) fm) v u = 0 /\
    v ∈ adj (add_edge_G (Edge u v cap) Gr) u /\ u ∈ adj (add_edge_G (Edge u v cap) Gr) v /\
    (forall x y, ~ (x = u /\ y = v) -> ~ (x = v /\ y = u) ->
       get (add_edge_c (Edge u v cap) cm) x y = get cm x y /\
       get (add_edge_f (Edge u v cap) fm) x y = get fm x y) /\
    (forall x, adj (add_edge_G (Edge u v cap) Gr) x
               = adj Gr x ++ (if decide (x = u) then [v] else [])
                          ++ (if decide (x = v) then [u] else [])) /\
    length (add_edge_G (Edge u v cap) Gr) = length Gr /\
    square n (add_edge_c (Edge u v cap) cm) /\ square n (add_edge_f (Edge u v cap) fm)).
  { intros cm fm Gr Hc Hf HG. unfold add_edge_c, add_edge_f. simpl.
    split_and!.
    - rewrite !(get_set n) by (done || by apply square_set).
      repeat case_decide; naive_solver.
    - rewrite !(get_set n) by (done || by apply square_set).
      repeat case_decide; naive_solver.
    - rewrite !(get_set n) by (done || by apply square_set).
      repeat case_decide; naive_solver.
    - rewrite !(get_set n) by (done || by apply square_set).
      repeat case_decide; naive_solver.
    - apply (adj_add_edge_G_new (Edge u v cap) Gr); simpl; lia.
    - apply (adj_add_edge_G_new (Edge u v cap) Gr); simpl; lia.
    - intros x y H1 H2. rewrite !(get_set n) by (done || by apply square_set).
      split; repeat case_decide; naive_solver.
    - intros x. unfold add_edge_G. simpl. rewrite !adj_alter, length_alter, HG.
      destruct (decide (x = u)) as [Hxu|Hxu]; destruct (decide (x = v)) as [Hxv|Hxv];
        repeat case_decide; try (exfalso; naive_solver); simpl;
        rewrite ?app_nil_r, <- ?app_assoc; done.
    - unfold add_edge_G. by rewrite !length_alter.
    - by do 2 apply square_set.
    - by do 2 apply square_set. }
  split; intros e Hc Hf HG;
    destruct (Hall _ _ _ Hc Hf HG) as (H1 & H2 & H3 & H4 & H5 & H6 & H7 & H8 & H9 & H10 & H11);
    split_and!; done.
Qed.

Lemma add_edge_unchecked_witness :
  (0 < 2)%nat /\ (1 < 2)%nat /\
  get (FF.c (FF.add_edge 0 1 (-5) (FF.init 2))) 0 1 = -5 /\
  get (EK.c (EK.add_edge 0 1 (-5) (EK.init 2))) 1 0 = 0.
Proof.
  split; [lia|]. split; [lia|].
  destruct (add_edge_unchecked 2 0 1 (-5)) as [HF HE]; [lia|lia|].
  destruct (HF (FF.init 2)) as (H1 & _);
    [apply square_replicate|apply square_replicate|reflexivity|].
  destruct (HE (EK.init 2)) as (_ & H2 & _);
    [apply square_replicate|apply square_replicate|reflexivity|].
  split; [exact H1|exact H2].
Defined.

(** C8 as stated fails: a negative capacity is stored as it is; an edge
    opposite to an earlier one is accepted and silently takes the capacity of
    the earlier one away; a self-loop is accepted and recorded twice in the
    adjacency row. *)
Lemma add_edge_accepts_invalid :
  get (FF.c (FF.add_edge 0 1 (-5) (FF.init 2))) 0 1 = -5 /\
  (let e := FF.add_edge 1 0 3 (FF.add_edge 0 1 5 (FF.init 2)) in
   get (FF.c e) 0 1 = 0 /\ get (FF.c e) 1 0 = 3 /\
   snd <$> FF.compute 5 e 0 1 = Some 0) /\
  (let e := EK.add_edge 0 0 7 (EK.init 1) in
   get (EK.c e) 0 0 = 0 /\ adj (EK.Gf e) 0 = [0; 0]%nat).
Proof. vm_compute. by split_and!. Qed.

(** C9, as the code has it.  [bfs] has no early exit: its loop runs until
    the queue is empty, in every call.  On return the stamped vertices are
    exactly those that can be reached from [s] through pairs of positive
    residual capacity, whether or not [t] is one of them, and the result is
    the stamp of [t]. *)
Theorem bfs_exhausts (n : nat) (cm : matrix_t) (G : list (list nat))
        (e : EK.t) (s t_ : nat) :
  network n cm G -> ek_ok n cm G e -> feasible n cm (EK.f e) -> (s < n)%nat ->
  exists e', EK.bfs e s t_ = Some (e', stamp (EK.visited e') t_) /\
             forall v, stamp (EK.visited e') v = true <-> reach cm (EK.f e) s v.
Proof.
  intros Hnet Hok Hfe Hs.
  destruct (ek_bfs_spec n cm (EK.f e) G s Hnet Hfe e t_ Hok eq_refl Hs)
    as (e' & b & Hrun & Hok' & Hf' & Hh' & -> & Hs' & Hcl & Htree).
  exists e'. split; [done|]. intros v. split.
  - intros Hv. destruct (Htree v Hv) as (p & Hp & _ & _ & Hch).
    eapply pi_path_reach; [exact Hnet|by eapply feasible_bounded|done..].
  - intros Hreach. induction Hreach as [|u v Hr IH Hpos]; [done|].
    pose proof (feasible_bounded _ _ _ Hfe) as Hb.
    apply (Hcl u v); [done| |rewrite (residual_exact n cm G Hnet) by done; lia].
    destruct (decide (get cm u v = 0)) as [Hz|Hnz].
    + apply (net_adj _ _ _ Hnet v u). specialize (Hb u v). lia.
    + by apply (net_adj _ _ _ Hnet u v).
Qed.

Lemma bfs_exhausts_witness :
  exists e', EK.bfs (EK.of_graph through_sink) 0 1 = Some (e', stamp (EK.visited e') 1) /\
             forall v, stamp (EK.visited e') v = true
                       <-> reach (built_c 4 (concat through_sink))
                                 (EK.f (EK.of_graph through_sink)) 0 v.
Proof.
  apply (bfs_exhausts 4 (built_c 4 (concat through_sink)) (built_G 4 (concat through_sink))
                      (EK.of_graph through_sink) 0 1).
  - apply (start_network through_sink). apply valid_graphb_spec. reflexivity.
  - apply (ek_start through_sink).
  - apply (start_feasible through_sink). apply valid_graphb_spec. reflexivity.
  - lia.
Defined.

(** C9 as stated fails: on the path [0 -> 1 -> 2 -> 3] searched from [0] to
    [1], the sink is stamped while the row of [0] is scanned, and the search
    goes on: it takes [1] and then [2] from the queue and stamps [2] and
    [3], which only the rows of [1] and [2] lead to. *)
Lemma bfs_goes_on_past_sink :
  match EK.bfs (EK.of_graph through_sink) 0 1 with
  | Some (e', b) => b = true /\ EK.visited e' = [true; true; true; true] /\
                    EK.pi e' = [limits.nil; 0; 1; 2]
  | None => False
  end.
Proof. vm_compute. by split_and!. Qed.

(** C10. A search that finds no path changes neither [c] nor [f]: whenever
    [ford_fulkerson::dfs] returns false the two matrices are the ones of
    before the call (and [c] is in any case); [edmonds_karp::bfs] never
    changes either of them.  No store into [f] is recorded in [hist]
    either. *)
Theorem failed_search_frame :
  (forall e u t_ e', FF.dfs e u t_ = Some (e', false) ->
     FF.c e' = FF.c e /\ FF.f e' = FF.f e /\ FF.hist e' = FF.hist e) /\
  (forall e u t_ e' b, FF.dfs e u t_ = Some (e', b) -> FF.c e' = FF.c e) /\
  (forall e s t_ e' b, EK.bfs e s t_ = Some (e', b) ->
     EK.c e' = EK.c e /\ EK.f e' = EK.f e /\ EK.hist e' = EK.hist e).
Proof.
  split; [|split].
  - intros e u t_ e' Hrun. apply ff_dfs_frame in Hrun as [Hc Hf]. by destruct Hf.
  - intros e u t_ e' b Hrun. by apply ff_dfs_frame in Hrun as [Hc _].
  - intros e s t_ e' b Hrun. by apply ek_bfs_frame in Hrun.
Qed.

Lemma failed_search_frame_witness :
  (exists e', FF.dfs (FF.of_graph scenario_B) 3 0 = Some (e', false) /\
              FF.c e' = FF.c (FF.of_graph scenario_B) /\
              FF.f e' = FF.f (FF.of_graph scenario_B)) /\
  (exists e' b, EK.bfs (EK.of_graph scenario_B) 0 3 = Some (e', b) /\
                EK.c e' = EK.c (EK.of_graph scenario_B) /\
                EK.f e' = EK.f (EK.of_graph scenario_B)).
Proof.
  destruct failed_search_frame as (H1 & _ & H3). split.
  - eexists. split; [vm_compute; reflexivity|].
    destruct (H1 (FF.of_graph scenario_B) 3%nat 0%nat _ ltac:(vm_compute; reflexivity))
      as (Hc & Hf & _).
    split; [exact Hc|exact Hf].
  - eexists _, _. split; [vm_compute; reflexivity|].
    destruct (H3 (EK.of_graph scenario_B) 0%nat 3%nat _ _ ltac:(vm_compute; reflexivity))
      as (Hc & Hf & _).
    split; [exact Hc|exact Hf].
Defined.

(** * Further properties of the two engines *)

Lemma chain_reach n cm G fm s : forall p v,
  network n cm G -> bounded cm fm ->
  head p = Some v -> last p = Some s ->
  chain (fun x y => 0 < residual cm fm x y) p -> reach cm fm s v.
Proof.
  induction p as [|y [|x tl] IH]; intros v Hnet Hb Hhd Hl Hch; [done| |].
  - simpl in Hhd, Hl. simplify_eq. constructor.
  - simpl in Hhd. injection Hhd as <-. destruct Hch as [Hxy Hch].
    rewrite last_cons_cons in Hl.
    rewrite (residual_exact n cm G Hnet) in Hxy by done.
    eapply reach_step; [by apply IH|done].
Qed.

Lemma aug_path_reach n cm G fm fresh d s t_ p :
  network n cm G -> bounded cm fm -> 0 < d ->
  aug_path n cm fm fresh d s t_ p -> reach cm fm s t_.
Proof.
  intros Hnet Hb Hd [H1 H2 _ _ _ H6]. eapply chain_reach; try done.
  eapply chain_impl; [|exact H6]. intros a b _ _ Hab. simpl in *. lia.
Qed.





(** X3. For every valid input with [s <> t] whose capacities out of the
    source add up to at most the largest [capacity_t], the value [compute]
    returns is the net flow out of the source of the final matrix, which is
    the net flow into the sink, and lies between [0] and that sum. *)
Theorem returned_value_when_it_fits (G : graph_t) (s t_ : nat) :
  valid_graph G -> (s < length G)%nat -> (t_ < length G)%nat -> s <> t_ ->
  sumn (length G) (get (FF.c (FF.of_graph G)) s) <= int32_max ->
  exists fuel, forall k, (fuel <= k)%nat ->
    (exists e v, FF.compute k (FF.of_graph G) s t_ = Some (e, v) /\
                 v = net_out (length G) (FF.f e) s /\
                 v = net_in (length G) (FF.f e) t_ /\
                 0 <= v <= sumn (length G) (get (FF.c (FF.of_graph G)) s)) /\
    (exists e v, EK.compute k (EK.of_graph G) s t_ = Some (e, v) /\
                 v = net_out (length G) (EK.f e) s /\
                 v = net_in (length G) (EK.f e) t_ /\
                 0 <= v <= sumn (length G) (get (FF.c (FF.of_graph G)) s)).
Proof.
  intros Hvalid Hs Ht Hst Hfit.
  destruct (ff_start G) as ((Hc0 & _) & _). rewrite Hc0 in *.
  exists (S (Z.to_nat (sumn (length G) (get (built_c (length G) (concat G)) s)))).
  intros k Hk%enough_fuel_spec.
  destruct (ff_run G s t_ Hvalid Hs Hst k Hk)
    as (e1 & v1 & Hr1 & Hc1 & _ & Hi1 & Hv1 & Hnn1 & _).
  destruct (ek_run G s t_ Hvalid Hs Hst k Hk)
    as (e2 & v2 & Hr2 & Hc2 & _ & Hi2 & Hv2 & Hnn2 & _).
  pose proof (value_le_source _ _ s _ (fi_feasible _ _ _ _ _ _ Hi1)) as Hle1.
  pose proof (value_le_source _ _ s _ (fi_feasible _ _ _ _ _ _ Hi2)) as Hle2.
  rewrite wrap32_id in Hv1 by (unfold int32_min; lia).
  rewrite wrap32_id in Hv2 by (unfold int32_min; lia).
  split.
  - exists e1, v1. split_and!; try done; try lia.
    rewrite Hv1. symmetry. by eapply sink_value.
  - exists e2, v2. split_and!; try done; try lia.
    rewrite Hv2. symmetry. by eapply sink_value.
Qed.

Lemma returned_value_when_it_fits_witness :
  valid_graph scenario_B /\
  sumn 4 (get (FF.c (FF.of_graph scenario_B)) 0) <= int32_max /\
  exists fuel, forall k, (fuel <= k)%nat ->
    (exists e v, FF.compute k (FF.of_graph scenario_B) 0 3 = Some (e, v) /\
                 v = net_out 4 (FF.f e) 0 /\ v = net_in 4 (FF.f e) 3 /\
                 0 <= v <= sumn 4 (get (FF.c (FF.of_graph scenario_B)) 0)) /\
    (exists e v, EK.compute k (EK.of_graph scenario_B) 0 3 = Some (e, v) /\
                 v = net_out 4 (EK.f e) 0 /\ v = net_in 4 (EK.f e) 3 /\
                 0 <= v <= sumn 4 (get (FF.c (FF.of_graph scenario_B)) 0)).
Proof.
  split; [apply valid_graphb_spec; reflexivity|].
  split; [vm_compute; discriminate|].
  apply (returned_value_when_it_fits scenario_B 0 3);
    [apply valid_graphb_spec; reflexivity|simpl; lia|simpl; lia|lia
    |vm_compute; discriminate].
Defined.

(** X4. For every valid input with [s <> t], each time [compute] tests the
    condition of its loop the matrix [f] is skew-symmetric, lies between
    [-c[v][u]] and [c[u][v]], and is [0] at every pair of vertices that no
    edge of the graph joins. *)
Theorem flow_matrix_shape (G : graph_t) (s t_ : nat) :
  valid_graph G -> (s < length G)%nat -> (t_ < length G)%nat -> s <> t_ ->
  (forall e, ff_observed s t_ (FF.of_graph G) e -> forall u v,
     get (FF.f e) u v = - get (FF.f e) v u /\
     - get (FF.c e) v u <= get (FF.f e) u v <= get (FF.c e) u v /\
     (~ original_edge G u v -> ~ original_edge G v u -> get (FF.f e) u v = 0)) /\
  (forall e, ek_observed s t_ (EK.of_graph G) e -> forall u v,
     get (EK.f e) u v = - get (EK.f e) v u /\
     - get (EK.c e) v u <= get (EK.f e) u v <= get (EK.c e) u v /\
     (~ original_edge G u v -> ~ original_edge G v u -> get (EK.f e) u v = 0)).
Proof.
  intros Hvalid Hs Ht Hst.
  pose proof (start_network G Hvalid) as Hnet.
  destruct (ff_start G) as (Hok1 & Hf1 & Hh1).
  destruct (ek_start G) as (Hok2 & Hf2 & Hh2).
  pose proof (start_flow_inv G s t_ Hvalid) as Hinv0.
  assert (Hshape : forall fm u v,
            feasible (length G) (built_c (length G) (concat G)) fm ->
            get fm u v = - get fm v u /\
            - get (built_c (length G) (concat G)) v u <= get fm u v
              <= get (built_c (length G) (concat G)) u v /\
            (~ original_edge G u v -> ~ original_edge G v u -> get fm u v = 0)).
  { intros fm u v Hfe. pose proof (feasible_bounded _ _ _ Hfe u v) as Hb.
    split; [apply (fe_skew _ _ _ Hfe)|]. split; [done|]. intros Hn1 Hn2.
    assert (Hz : forall x y, ~ original_edge G x y ->
                             get (built_c (length G) (concat G)) x y = 0).
    { intros x y Hn. destruct (decide (get (built_c (length G) (concat G)) x y = 0))
        as [|Hne]; [done|].
      apply (bu_edge _ _ _ _ _ (start_built G Hvalid)) in Hne. by destruct Hn. }
    rewrite (Hz u v Hn1), (Hz v u Hn2) in Hb. lia. }
  split.
  - intros e Hobs u v.
    destruct (ff_observed_inv _ _ _ s t_ Hnet Hs Hst _ e Hok1) as [(Hc & _) Hinv];
      [by rewrite Hf1, Hh1|done|].
    rewrite Hc. apply Hshape, Hinv.
  - intros e Hobs u v.
    destruct (ek_observed_inv _ _ _ s t_ Hnet Hs Hst _ e Hok2) as [(Hc & _) Hinv];
      [by rewrite Hf2, Hh2|done|].
    rewrite Hc. apply Hshape, Hinv.
Qed.

Lemma flow_matrix_shape_witness :
  valid_graph scenario_B /\
  (forall e, ff_observed 0 3 (FF.of_graph scenario_B) e -> forall u v,
     get (FF.f e) u v = - get (FF.f e) v u /\
     - get (FF.c e) v u <= get (FF.f e) u v <= get (FF.c e) u v /\
     (~ original_edge scenario_B u v -> ~ original_edge scenario_B v u ->
      get (FF.f e) u v = 0)) /\
  (forall e, ek_observed 0 3 (EK.of_graph scenario_B) e -> forall u v,
     get (EK.f e) u v = - get (EK.f e) v u /\
     - get (EK.c e) v u <= get (EK.f e) u v <= get (EK.c e) u v /\
     (~ original_edge scenario_B u v -> ~ original_edge scenario_B v u ->
      get (EK.f e) u v = 0)).
Proof.
  split; [apply valid_graphb_spec; reflexivity|].
  apply (flow_matrix_shape scenario_B 0 3);
    [apply valid_graphb_spec; reflexivity|simpl; lia|simpl; lia|lia].
Defined.

(** X5. The flow stays in the engine: a second call of [compute(s, t)] on
    the engine the first call has left finds no path, returns [0] and leaves
    the flow matrix as it is. *)
Theorem second_compute_returns_zero (G : graph_t) (s t_ : nat) :
  valid_graph G -> (s < length G)%nat -> (t_ < length G)%nat -> s <> t_ ->
  exists fuel, forall k, (fuel <= k)%nat ->
    (exists e v, FF.compute k (FF.of_graph G) s t_ = Some (e, v) /\
       forall k', (0 < k')%nat ->
         exists e', FF.compute k' e s t_ = Some (e', 0) /\ FF.f e' = FF.f e) /\
    (exists e v, EK.compute k (EK.of_graph G) s t_ = Some (e, v) /\
       forall k', (0 < k')%nat ->
         exists e', EK.compute k' e s t_ = Some (e', 0) /\ EK.f e' = EK.f e).
Proof.
  intros Hvalid Hs Ht Hst.
  exists (S (Z.to_nat (sumn (length G) (get (built_c (length G) (concat G)) s)))).
  intros k Hk%enough_fuel_spec.
  destruct (ff_run G s t_ Hvalid Hs Hst k Hk)
    as (e1 & v1 & Hr1 & Hc1 & HG1 & Hi1 & _ & _ & H1s & H1t & H1c).
  destruct (ek_run G s t_ Hvalid Hs Hst k Hk)
    as (e2 & v2 & Hr2 & Hc2 & HG2 & Hi2 & _ & _ & H2s & H2t & H2c).
  pose proof (start_network G Hvalid) as Hnet.
  assert (Hn1 : FF.n e1 = length G).
  { unfold FF.compute in Hr1.
    destruct (ff_loop_spec _ _ _ s t_ Hnet Hs Hst k (FF.of_graph G) 0)
      as (e & v & total & Hrun & (_ & _ & Hn & _) & _); try done.
    - apply (ff_start G).
    - destruct (ff_start G) as (_ & -> & ->). apply (start_flow_inv G s t_ Hvalid).
    - destruct (ff_start G) as (_ & -> & _). rewrite (start_value G s Hvalid). lia.
    - rewrite Hr1 in Hrun. by injection Hrun as <- _. }
  assert (Hn2 : EK.n e2 = length G).
  { unfold EK.compute in Hr2.
    destruct (ek_loop_spec _ _ _ s t_ Hnet Hs Hst k (EK.of_graph G) 0)
      as (e & v & total & Hrun & (_ & _ & Hn) & _); try done.
    - apply (ek_start G).
    - destruct (ek_start G) as (_ & -> & ->). apply (start_flow_inv G s t_ Hvalid).
    - destruct (ek_start G) as (_ & -> & _). rewrite (start_value G s Hvalid). lia.
    - rewrite Hr2 in Hrun. by injection Hrun as <- _. }
  split.
  - exists e1, v1. split; [done|]. intros [|k'] Hk'; [lia|].
    pose proof (fi_feasible _ _ _ _ _ _ Hi1) as Hfe.
    destruct (ff_dfs_spec _ _ _ t_ Hnet e1 s) as (e' & b & Hrun & _ & Hb); try done.
    unfold FF.compute. simpl. rewrite Hrun. destruct b.
    + destruct Hb as (Ha & p & Hp & _).
      apply (aug_path_reach _ _ _ _ _ _ _ _ _ Hnet (feasible_bounded _ _ _ Hfe) (proj1 Ha)) in Hp.
      pose proof (closed_unreachable _ _ _ s t_ Hnet Hst _ _ Hfe H1c H1s t_ Hp). congruence.
    + exists e'. split; [done|]. apply Hb.
  - exists e2, v2. split; [done|]. intros [|k'] Hk'; [lia|].
    pose proof (fi_feasible _ _ _ _ _ _ Hi2) as Hfe.
    destruct (ek_bfs_spec _ _ (EK.f e2) _ s Hnet Hfe e2 t_) as
      (e' & b & Hrun & _ & Hf' & _ & Hb & _ & _ & Htree); try done.
    unfold EK.compute. simpl. rewrite Hrun. destruct b.
    + destruct (Htree t_ (eq_sym Hb)) as (p & Hp & _ & _ & Hch).
      eapply pi_path_reach in Hp; [|exact Hnet|by eapply feasible_bounded|done].
      pose proof (closed_unreachable _ _ _ s t_ Hnet Hst _ _ Hfe H2c H2s t_ Hp). congruence.
    + exists e'. split; [done|]. done.
Qed.

Lemma second_compute_returns_zero_witness :
  valid_graph scenario_B /\
  exists fuel, forall k, (fuel <= k)%nat ->
    (exists e v, FF.compute k (FF.of_graph scenario_B) 0 3 = Some (e, v) /\
       forall k', (0 < k')%nat ->
         exists e', FF.compute k' e 0 3 = Some (e', 0) /\ FF.f e' = FF.f e) /\
    (exists e v, EK.compute k (EK.of_graph scenario_B) 0 3 = Some (e, v) /\
       forall k', (0 < k')%nat ->
         exists e', EK.compute k' e 0 3 = Some (e', 0) /\ EK.f e' = EK.f e).
Proof.
  split; [apply valid_graphb_spec; reflexivity|].
  apply (second_compute_returns_zero scenario_B 0 3);
    [apply valid_graphb_spec; reflexivity|simpl; lia|simpl; lia|lia].
Defined.

(** X6. For every valid input with [s <> t], every search of [compute] that
    finds a path pushes an amount between [1] and [limits::inf], and the net
    flow out of the source and into the sink both grow by exactly that
    amount; [proc] of [edmonds_karp] always returns after such a [bfs]. *)
Theorem each_round_pushes (G : graph_t) (s t_ : nat) :
  valid_graph G -> (s < length G)%nat -> (t_ < length G)%nat -> s <> t_ ->
  (forall e e', ff_observed s t_ (FF.of_graph G) e ->
     FF.dfs e s t_ = Some (e', true) ->
     1 <= FF.augment e' <= limits.inf /\
     net_out (length G) (FF.f e') s = net_out (length G) (FF.f e) s + FF.augment e' /\
     net_in (length G) (FF.f e') t_ = net_in (length G) (FF.f e) t_ + FF.augment e') /\
  (forall e e1, ek_observed s t_ (EK.of_graph G) e ->
     EK.bfs e s t_ = Some (e1, true) ->
     exists e2 d, EK.proc e1 s t_ = Some (e2, d) /\
       1 <= d <= limits.inf /\
       net_out (length G) (EK.f e2) s = net_out (length G) (EK.f e) s + d /\
       net_in (length G) (EK.f e2) t_ = net_in (length G) (EK.f e) t_ + d).
Proof.
  intros Hvalid Hs Ht Hst.
  pose proof (start_network G Hvalid) as Hnet.
  destruct (ff_start G) as (Hok1 & Hf1 & Hh1).
  destruct (ek_start G) as (Hok2 & Hf2 & Hh2).
  pose proof (start_flow_inv G s t_ Hvalid) as Hinv0.
  split.
  - intros e e' Hobs Hrun.
    destruct (ff_observed_inv _ _ _ s t_ Hnet Hs Hst _ e Hok1) as [Hok Hinv];
      [by rewrite Hf1, Hh1|done|].
    destruct (ff_round _ _ _ s t_ Hnet Hs Hst e e' Hok Hinv Hrun)
      as (_ & Hinv' & Ha & Hval & _).
    destruct (ff_dfs_spec _ _ _ t_ Hnet e s Hok (fi_feasible _ _ _ _ _ _ Hinv) Hs)
      as (e1 & b & Hrun' & _ & Hb).
    rewrite Hrun in Hrun'. injection Hrun' as <- <-. destruct Hb as (Hle & _).
    split; [lia|]. split; [done|].
    rewrite (sink_value _ _ _ _ _ _ Hinv' Hs Ht Hst), (sink_value _ _ _ _ _ _ Hinv Hs Ht Hst).
    done.
  - intros e e1 Hobs Hrun.
    destruct (ek_observed_inv _ _ _ s t_ Hnet Hs Hst _ e Hok2) as [Hok Hinv];
      [by rewrite Hf2, Hh2|done|].
    destruct (ek_round _ _ _ s t_ Hnet Hs Hst e e1 Hok Hinv Hrun)
      as (e2 & d & Hproc & Hok' & Hinv' & Hd & Hval & _).
    exists e2, d. split; [done|].
    assert (d <= limits.inf).
    { destruct (ek_bfs_spec _ _ (EK.f e) _ s Hnet (fi_feasible _ _ _ _ _ _ Hinv) e t_ Hok eq_refl Hs)
        as (e1' & b & Hrun' & Hokb & Hfe1 & _ & Hb & _ & _ & Htree).
      rewrite Hrun in Hrun'. injection Hrun' as <- <-.
      destruct (Htree t_ (eq_sym Hb)) as (p & Hp & Hnd & Hlt & Hch).
      rewrite <- Hfe1 in Hch.
      destruct (ek_proc_spec _ _ _ s e1 t_ p Hokb Hp Hnd Hlt Hch)
        as (e2' & d' & Hproc' & _ & Hd' & _).
      rewrite Hproc in Hproc'. injection Hproc' as <- <-. lia. }
    split; [lia|]. split; [done|].
    rewrite (sink_value _ _ _ _ _ _ Hinv' Hs Ht Hst), (sink_value _ _ _ _ _ _ Hinv Hs Ht Hst).
    done.
Qed.

Lemma each_round_pushes_witness :
  valid_graph scenario_B /\
  (forall e e', ff_observed 0 3 (FF.of_graph scenario_B) e ->
     FF.dfs e 0 3 = Some (e', true) ->
     1 <= FF.augment e' <= limits.inf /\
     net_out 4 (FF.f e') 0 = net_out 4 (FF.f e) 0 + FF.augment e' /\
     net_in 4 (FF.f e') 3 = net_in 4 (FF.f e) 3 + FF.augment e') /\
  (forall e e1, ek_observed 0 3 (EK.of_graph scenario_B) e ->
     EK.bfs e 0 3 = Some (e1, true) ->
     exists e2 d, EK.proc e1 0 3 = Some (e2, d) /\
       1 <= d <= limits.inf /\
       net_out 4 (EK.f e2) 0 = net_out 4 (EK.f e) 0 + d /\
       net_in 4 (EK.f e2) 3 = net_in 4 (EK.f e) 3 + d).
Proof.
  split; [apply valid_graphb_spec; reflexivity|].
  apply (each_round_pushes scenario_B 0 3);
    [apply valid_graphb_spec; reflexivity|simpl; lia|simpl; lia|lia].
Defined.

(** ** What the constructors leave in [c] and [Gf] *)

Section constructed.
Context (n : nat).

Lemma built_c_square es : square n (built_c n es).
Proof.
  unfold built_c. induction es as [|ed es IH] using rev_ind; [apply square_replicate|].
  rewrite fold_left_app. simpl. unfold add_edge_c. by do 2 apply square_set.
Qed.

Lemma built_c_none es u v :
  Forall (fun ed => (src ed < n)%nat /\ (dst ed < n)%nat) es ->
  (forall ed, ed ∈ es -> ~ joins u v ed) -> get (built_c n es) u v = 0.
Proof.
  unfold built_c. induction es as [|ed es IH] using rev_ind; intros Hr Hno.
  - apply get_replicate.
  - apply Forall_app in Hr as [Hr Hed]. rewrite Forall_singleton in Hed.
    rewrite fold_left_app. simpl. unfold add_edge_c.
    pose proof (built_c_square es) as Hsq. unfold built_c in Hsq.
    rewrite !(get_set n) by (by try apply square_set || lia).
    assert (~ joins u v ed) as Hj by (apply Hno; set_solver).
    unfold joins in Hj.
    rewrite !decide_False by naive_solver.
    apply IH; [done|]. intros ed' Hin. apply Hno. set_solver.
Qed.

Lemma built_c_last es1 ed es2 :
  Forall (fun ed => (src ed < n)%nat /\ (dst ed < n)%nat) (es1 ++ ed :: es2) ->
  src ed <> dst ed ->
  (forall ed', ed' ∈ es2 -> ~ joins (src ed) (dst ed) ed') ->
  get (built_c n (es1 ++ ed :: es2)) (src ed) (dst ed) = cap ed /\
  get (built_c n (es1 ++ ed :: es2)) (dst ed) (src ed) = 0.
Proof.
  induction es2 as [|ed2 es2 IH] using rev_ind; intros Hr Hne Hno.
  - unfold built_c. rewrite fold_left_app. simpl. unfold add_edge_c.
    apply Forall_app in Hr as [_ Hed]. rewrite Forall_singleton in Hed.
    pose proof (built_c_square es1) as Hsq. unfold built_c in Hsq.
    rewrite !(get_set n) by (by try apply square_set || lia).
    split; repeat case_decide; naive_solver.
  - replace (es1 ++ ed :: es2 ++ [ed2]) with ((es1 ++ ed :: es2) ++ [ed2]) in *
      by (by rewrite <- app_assoc).
    apply Forall_app in Hr as [Hr Hed2]. rewrite Forall_singleton in Hed2.
    destruct IH as [IH1 IH2]; [done|done|intros; apply Hno; set_solver|].
    assert (~ joins (src ed) (dst ed) ed2) as Hj by (apply Hno; set_solver).
    unfold joins in Hj.
    unfold built_c in *. rewrite fold_left_app. simpl. unfold add_edge_c at 1 3.
    pose proof (built_c_square (es1 ++ ed :: es2)) as Hsq. unfold built_c in Hsq.
    rewrite !(get_set n) by (by try apply square_set || lia).
    rewrite !decide_False by naive_solver. done.
Qed.

Lemma built_G_length es : length (built_G n es) = n.
Proof.
  unfold built_G. induction es as [|ed es IH] using rev_ind; [apply length_replicate|].
  rewrite fold_left_app. simpl. unfold add_edge_G. by rewrite !length_alter.
Qed.

Lemma adj_add_edge_G_eq ed Gr u :
  (src ed < length Gr)%nat -> (dst ed < length Gr)%nat ->
  adj (add_edge_G ed Gr) u
  = adj Gr u ++ (if decide (src ed = u) then [dst ed] else [])
             ++ (if decide (dst ed = u) then [src ed] else []).
Proof.
  intros Hs Hd. unfold add_edge_G. rewrite !adj_alter, length_alter.
  repeat case_decide; rewrite <- ?app_assoc, ?app_nil_r; try done; naive_solver lia.
Qed.

Lemma built_G_other_ends es u :
  Forall (fun ed => (src ed < n)%nat /\ (dst ed < n)%nat) es ->
  adj (built_G n es) u = other_ends u es.
Proof.
  induction es as [|ed es IH] using rev_ind; intros Hr.
  - unfold built_G, adj. simpl.
    destruct (replicate n [] !! u) as [row|] eqn:Hu; [|done].
    by apply lookup_replicate in Hu as [-> _].
  - apply Forall_app in Hr as [Hr Hed]. rewrite Forall_singleton in Hed.
    pose proof (built_G_length es) as Hlen. specialize (IH Hr).
    replace (built_G n (es ++ [ed])) with (add_edge_G ed (built_G n es))
      by (unfold built_G; by rewrite fold_left_app).
    rewrite adj_add_edge_G_eq by lia. rewrite IH.
    unfold other_ends. rewrite flat_map_app. simpl. by rewrite app_nil_r.
Qed.
End constructed.

(** X7. The constructors do not add parallel edges up.  For a graph whose
    edges stay inside it, the capacity stored for an edge without self-loop
    is its own if no later edge joins the same two vertices (in either
    direction), the opposite pair then has capacity [0], and a pair that no
    edge joins has capacity [0]. *)
Theorem last_edge_wins (G : graph_t) :
  Forall (fun ed => (src ed < length G)%nat /\ (dst ed < length G)%nat) (concat G) ->
  (forall es1 ed es2,
     concat G = es1 ++ ed :: es2 -> src ed <> dst ed ->
     (forall ed', ed' ∈ es2 -> ~ joins (src ed) (dst ed) ed') ->
     get (FF.c (FF.of_graph G)) (src ed) (dst ed) = cap ed /\
     get (FF.c (FF.of_graph G)) (dst ed) (src ed) = 0 /\
     get (EK.c (EK.of_graph G)) (src ed) (dst ed) = cap ed /\
     get (EK.c (EK.of_graph G)) (dst ed) (src ed) = 0) /\
  (forall u v,
     (forall ed, ed ∈ concat G -> ~ joins u v ed) ->
     get (FF.c (FF.of_graph G)) u v = 0 /\ get (EK.c (EK.of_graph G)) u v = 0).
Proof.
  intros Hr.
  destruct (ff_start G) as ((Hc1 & _) & _). destruct (ek_start G) as ((Hc2 & _) & _).
  rewrite Hc1, Hc2. split.
  - intros es1 ed es2 Heq Hne Hno. rewrite Heq in *.
    destruct (built_c_last (length G) es1 ed es2 Hr Hne Hno). done.
  - intros u v Hno. split; by apply built_c_none.
Qed.

Lemma last_edge_wins_witness :
  get (FF.c (FF.of_graph [[Edge 0 1 5; Edge 0 1 3]; []])) 0 1 = 3 /\
  get (EK.c (EK.of_graph [[Edge 0 1 5; Edge 0 1 3]; []])) 1 0 = 0.
Proof.
  destruct (last_edge_wins [[Edge 0 1 5; Edge 0 1 3]; []]) as [H _].
  { repeat constructor. }
  destruct (H [Edge 0 1 5] (Edge 0 1 3) []) as (H1 & _ & _ & H4);
    [reflexivity|simpl; lia|by intros ed' ?%elem_of_nil|].
  split; [exact H1|exact H4].
Defined.

(** X8. For a graph whose edges stay inside it, the constructors leave in
    [Gf[u]] the other end of every edge that leaves or enters [u], once per
    edge and in the order of the edges (a self-loop at [u] gives [u]
    twice). *)
Theorem adjacency_rows (G : graph_t) (u : nat) :
  Forall (fun ed => (src ed < length G)%nat /\ (dst ed < length G)%nat) (concat G) ->
  adj (FF.Gf (FF.of_graph G)) u = other_ends u (concat G) /\
  adj (EK.Gf (EK.of_graph G)) u = other_ends u (concat G).
Proof.
  intros Hr.
  destruct (ff_start G) as ((_ & HG1 & _) & _). destruct (ek_start G) as ((_ & HG2 & _) & _).
  rewrite HG1, HG2. split; by apply built_G_other_ends.
Qed.

Lemma adjacency_rows_witness :
  adj (FF.Gf (FF.of_graph scenario_B)) 3 = [1; 2]%nat /\
  adj (EK.Gf (EK.of_graph scenario_B)) 0 = [1; 2]%nat.
Proof.
  split.
  - apply (proj1 (adjacency_rows scenario_B 3 ltac:(repeat constructor))).
  - apply (proj2 (adjacency_rows scenario_B 0 ltac:(repeat constructor))).
Defined.

(** ** The two [main] programs *)

Lemma concat_alter_snoc {A} (x y : A) (i : nat) (G : list (list A)) :
  (i < length G)%nat ->
  y ∈ concat (alter (fun row => row ++ [x]) i G) <-> y ∈ concat G \/ y = x.
Proof.
  revert i. induction G as [|row G IH]; intros i Hi; simpl in Hi; [lia|].
  destruct i as [|i]; simpl.
  - rewrite !elem_of_app, list_elem_of_singleton. tauto.
  - rewrite !elem_of_app.
    change (list_alter (fun row0 : list A => row0 ++ [x]) i G)
      with (alter (fun row0 : list A => row0 ++ [x]) i G).
    rewrite IH by lia. tauto.
Qed.

Lemma read_graph_fold input : forall G0 : list (list edge),
  Forall (fun ed => (src ed < length G0)%nat) input ->
  length (fold_left (fun G ed => alter (fun row => row ++ [ed]) (src ed) G) input G0)
  = length G0 /\
  forall ed, ed ∈ concat (fold_left (fun G ed => alter (fun row => row ++ [ed]) (src ed) G)
                                    input G0)
             <-> ed ∈ concat G0 \/ ed ∈ input.
Proof.
  induction input as [|x input IH]; intros G0 Hr.
  - split; [done|]. intros ed. rewrite elem_of_nil. simpl. tauto.
  - apply Forall_cons in Hr as [Hx Hr]. simpl.
    destruct (IH (alter (fun row => row ++ [x]) (src x) G0)) as [Hlen Hin].
    { by rewrite length_alter. }
    split; [by rewrite Hlen, length_alter|].
    intros ed. rewrite Hin, concat_alter_snoc, elem_of_cons by done. tauto.
Qed.

Lemma read_graph_valid V input :
  Forall (valid_edge V) input ->
  (forall e1 e2, e1 ∈ input -> e2 ∈ input -> ~ opposite e1 e2) ->
  length (read_graph V input) = V /\ valid_graph (read_graph V input).
Proof.
  intros Hval Hopp.
  destruct (read_graph_fold input (replicate V [])) as [Hlen Hin].
  { rewrite length_replicate. eapply Forall_impl; [exact Hval|]. by intros ed (? & _). }
  rewrite length_replicate in Hlen.
  assert (Hmem : forall ed, ed ∈ concat (read_graph V input) <-> ed ∈ input).
  { intros ed. unfold read_graph. rewrite Hin.
    assert (concat (replicate V ([] : list edge)) = []) as ->.
    { clear. induction V; simpl; by rewrite ?IHV. }
    rewrite elem_of_nil. tauto. }
  split; [done|]. split.
  - unfold read_graph at 1. rewrite Hlen. apply Forall_forall. intros ed Hed%Hmem.
    rewrite Forall_forall in Hval. by apply Hval.
  - intros e1 e2 H1%Hmem H2%Hmem. by apply Hopp.
Qed.

(** X9. [main] of both [Verify/submission.cpp]: for an input of at least
    two vertices whose edges are valid and not opposite to each other, the
    two programs stop and print the same number, which is the net flow from
    vertex [0] that the engine holds, reduced to 32 bits.  With a single
    vertex and no edge, [compute(0, 0)] never returns and neither program
    prints. *)
Theorem main_prints (V : nat) (input : list edge) :
  Forall (valid_edge V) input ->
  (forall e1 e2, e1 ∈ input -> e2 ∈ input -> ~ opposite e1 e2) ->
  ((2 <= V)%nat ->
   exists fuel v, forall k, (fuel <= k)%nat ->
     ff_main k V input = Some v /\ ek_main k V input = Some v /\
     exists e, FF.compute k (FF.of_graph (read_graph V input)) 0 (V - 1) = Some (e, v) /\
               v = wrap32 (net_out V (FF.f e) 0)) /\
  (V = 1%nat -> forall k, ff_main k V input = None /\ ek_main k V input = None).
Proof.
  intros Hval Hopp.
  destruct (read_graph_valid V input Hval Hopp) as [Hlen Hvalid].
  set (G := read_graph V input) in *.
  split.
  - intros HV.
    assert (Hs : (0 < length G)%nat) by lia.
    assert (Hst : 0%nat <> (V - 1)%nat) by lia.
    set (fuel := S (Z.to_nat (sumn (length G) (get (built_c (length G) (concat G)) 0)))).
    destruct (ff_run G 0 (V - 1) Hvalid Hs Hst fuel)
      as (e0 & v0 & _ & _ & _ & Hi0 & Hv0 & _ & H0s & H0t & H0c); [unfold fuel; lia|].
    exists fuel, v0. intros k Hk. apply enough_fuel_spec in Hk.
    destruct (ff_run G 0 (V - 1) Hvalid Hs Hst k Hk)
      as (e1 & v1 & Hr1 & _ & _ & Hi1 & Hv1 & _ & H1s & H1t & H1c).
    destruct (ek_run G 0 (V - 1) Hvalid Hs Hst k Hk)
      as (e2 & v2 & Hr2 & _ & _ & Hi2 & Hv2 & _ & H2s & H2t & H2c).
    assert (v1 = v0) as ->.
    { rewrite Hv1, Hv0. f_equal.
      exact (closed_values_agree G 0 (V - 1) Hvalid Hs Hst _ _ _ _
               (stamp (FF.visited e1)) (stamp (FF.visited e0)) Hi1 Hi0 H1s H1t H1c H0s H0t H0c). }
    assert (v2 = v0) as ->.
    { rewrite Hv2, Hv0. f_equal.
      exact (closed_values_agree G 0 (V - 1) Hvalid Hs Hst _ _ _ _
               (stamp (EK.visited e2)) (stamp (FF.visited e0)) Hi2 Hi0 H2s H2t H2c H0s H0t H0c). }
    unfold ff_main, ek_main. fold G. rewrite Hr1, Hr2. split; [done|]. split; [done|].
    exists e1. split; [done|].
    rewrite Hv0. f_equal. rewrite <- Hlen.
    exact (closed_values_agree G 0 (V - 1) Hvalid Hs Hst _ _ _ _
             (stamp (FF.visited e0)) (stamp (FF.visited e1)) Hi0 Hi1 H0s H0t H0c H1s H1t H1c).
  - intros -> k. unfold ff_main, ek_main, FF.compute, EK.compute. fold G. simpl.
    destruct (ff_start G) as ((_ & _ & Hn1) & _).
    destruct (ek_start G) as (Hok2 & Hf2 & _).
    rewrite ff_same_loop by lia.
    rewrite (ek_same_loop _ _ _ 0%nat (start_network G Hvalid)); [done|lia|done|].
    rewrite Hf2. apply (start_feasible G Hvalid).
Qed.

Lemma main_prints_witness :
  Forall (valid_edge 4) (concat scenario_B) /\
  exists fuel v, forall k, (fuel <= k)%nat ->
    ff_main k 4 (concat scenario_B) = Some v /\ ek_main k 4 (concat scenario_B) = Some v.
Proof.
  assert (Hv : valid_graph scenario_B) by (apply valid_graphb_spec; reflexivity).
  split; [exact (proj1 Hv)|].
  destruct (main_prints 4 (concat scenario_B) (proj1 Hv) (proj2 Hv)) as [H _].
  destruct (H ltac:(lia)) as (fuel & v & Hk).
  exists fuel, v. intros k Hle. destruct (Hk k Hle) as (H1 & H2 & _).
  split; [exact H1|exact H2].
Defined.

(** ** Every augmentation is as large as its path allows *)

Lemma chain_lookup (P : nat -> nat -> Prop) p : forall i x y,
  chain P p -> p !! i = Some y -> p !! S i = Some x -> P x y.
Proof.
  induction p as [|y0 [|x0 tl] IH]; intros i x y Hc Hy Hx; [done| |].
  - by destruct i.
  - destruct Hc as [H0 Hc]. destruct i as [|i].
    + simpl in Hy, Hx. by simplify_eq.
    + by apply (IH i).
Qed.

Section tight.
Context (n : nat) (cm : matrix_t) (G : list (list nat)).
Hypothesis Hnet : network n cm G.

(** Along the path, every entry of [f] has grown by the amount pushed. *)
Lemma augment_back_chain d p : forall fm h,
  0 < d -> feasible n cm fm -> NoDup p -> (forall x, x ∈ p -> (x < n)%nat) ->
  chain (fun x y => d <= residual cm fm x y) p ->
  chain (fun x y => get (fst (augment_back d p (fm, h))) x y = get fm x y + d) p.
Proof.
  induction p as [|y [|x tl] IH]; intros fm h Hd Hfe Hnd Hlt Hch; [done..|].
  destruct Hch as [Hxy Hch]. apply NoDup_cons in Hnd as [Hy Hnd].
  assert (Hx : (x < n)%nat) by (apply Hlt; set_solver).
  assert (Hy' : (y < n)%nat) by (apply Hlt; set_solver).
  assert (Hne : x <> y) by set_solver.
  assert (Hamt : 0 < d <= residual cm fm x y) by lia.
  pose proof (push_feasible n cm G Hnet fm x y d Hfe Hx Hy' Hne Hamt) as Hfe2.
  pose proof (push_get2 n cm G Hnet fm x y d Hfe Hx Hy' Hne Hamt) as Hget.
  set (f1 := add_at fm x y d) in *. set (f2 := sub_at f1 y x d) in *.
  assert (Hlt2 : forall z, z ∈ x :: tl -> (z < n)%nat).
  { intros z Hz. apply Hlt. set_solver. }
  assert (Hch2 : chain (fun a b => d <= residual cm f2 a b) (x :: tl)).
  { eapply chain_impl; [|exact Hch]. intros a b Ha Hb Hab. simpl in Hab.
    unfold residual. rewrite Hget.
    rewrite !decide_False; [exact Hab|set_solver..]. }
  change (augment_back d (y :: x :: tl) (fm, h))
    with (augment_back d (x :: tl) (f2, f2 :: f1 :: h)).
  split.
  - destruct (augment_back_spec n cm G d Hnet Hd (x :: tl) f2 (f2 :: f1 :: h) Hfe2 Hnd Hlt2 Hch2)
      as (new & _ & _ & _ & _ & Hframe).
    rewrite Hframe by (by right). rewrite Hget. by rewrite decide_True.
  - eapply chain_impl; [|exact (IH f2 (f2 :: f1 :: h) Hd Hfe2 Hnd Hlt2 Hch2)].
    intros a b Ha Hb Hab. cbv beta in Hab. rewrite Hab, Hget.
    rewrite !decide_False; [done|set_solver..].
Qed.

(** [dfs_visit] returns the smallest residual capacity it has passed, or
    the amount it was called with; the pair that gave it is left with no
    residual capacity. *)
Lemma ff_explore_tight k t_ u flow :
  (forall e v fl e' r,
      ff_ok n cm G e -> feasible n cm (FF.f e) -> (v < n)%nat ->
      stamp (FF.visited e) v = false -> stamp (FF.visited e) t_ = false ->
      0 < fl -> (unmarked (FF.visited e) <= k)%nat ->
      FF.dfs_visit k e v t_ fl = Some (e', r) -> 0 < r ->
      r = fl \/ exists x y, residual cm (FF.f e) x y = r /\ residual cm (FF.f e') x y = 0) ->
  forall vs e e' r,
    ff_ok n cm G e -> feasible n cm (FF.f e) -> (u < n)%nat ->
    (forall v, v ∈ vs -> (v < n)%nat) ->
    stamp (FF.visited e) u = true -> stamp (FF.visited e) t_ = false ->
    0 < flow -> (unmarked (FF.visited e) <= k)%nat ->
    FF.explore (fun e' v fl => FF.dfs_visit k e' v t_ fl) u flow vs e = Some (e', r) ->
    0 < r ->
    r = flow \/ exists x y, residual cm (FF.f e) x y = r /\ residual cm (FF.f e') x y = 0.
Proof.
  intros IHk vs. induction vs as [|v rest IH];
    intros e e' r Hok Hfe Hu Hvs Hsu Hst Hfl Hm Hrun Hr.
  - simpl in Hrun. injection Hrun as <- <-. lia.
  - assert (Hrest : forall v0, v0 ∈ rest -> (v0 < n)%nat)
      by (intros; apply Hvs; by apply list_elem_of_further).
    assert (Hv : (v < n)%nat) by (apply Hvs, list_elem_of_here).
    assert (Hcf : FF.cf e u v = residual cm (FF.f e) u v)
      by (unfold FF.cf; by destruct Hok as [-> _]).
    simpl in Hrun. rewrite Hcf in Hrun.
    destruct (stamp (FF.visited e) v || (residual cm (FF.f e) u v =? 0)) eqn:Htest.
    + by apply (IH e e' r).
    + apply orb_false_iff in Htest as [Hv0 Hnz%Z.eqb_neq].
      pose proof (feasible_bounded _ _ _ Hfe) as Hbd.
      pose proof (residual_nonneg n cm G Hnet (FF.f e) u v Hbd) as Hnn.
      assert (Huv : u <> v) by (intros ->; congruence).
      destruct (ff_dfs_visit_spec n cm G t_ Hnet k e v (Z.min flow (residual cm (FF.f e) u v)))
        as (e1 & r1 & Hrun1 & Hpost1 & Hv1 & Hcov1); try done; [lia|].
      rewrite Hrun1 in Hrun.
      destruct Hpost1 as (Hok1 & Haug1 & Hmono1 & [Hfail|Hsucc]).
      * destruct Hfail as (-> & Hf1 & Hh1 & Hst1 & Hcl1). simpl in Hrun.
        rewrite <- Hf1. apply (IH e1 e' r); try done.
        -- by rewrite Hf1.
        -- by apply Hmono1.
        -- etransitivity; [|exact Hm]. apply unmarked_mono; [|done].
           destruct Hok as (_ & _ & _ & ->). by destruct Hok1 as (_ & _ & _ & ->).
      * destruct Hsucc as (Hr1 & p & Hp & Heq).
        assert ((0 <? r1) = true) as Hpos by (apply Z.ltb_lt; lia).
        rewrite Hpos in Hrun. injection Hrun as <- <-.
        destruct Hp as [H1 H2 H3 H4 H5 H6].
        destruct (augment_back_spec n cm G r1 Hnet (proj1 Hr1) p (FF.f e) (FF.hist e)
                    Hfe H3 H4 H6) as (new & _ & _ & Hfe1 & _ & Hframe).
        rewrite <- Heq in Hfe1, Hframe. simpl in Hfe1, Hframe.
        assert (Hup : u ∉ p).
        { intros Hin. destruct (H5 u Hin) as [->|Hx]; [done|congruence]. }
        assert (Hres : forall a b, a = u \/ b = u ->
                  residual cm (FF.f e1) a b = residual cm (FF.f e) a b).
        { intros a b Hab. unfold residual. rewrite Hframe; [done|].
          destruct Hab as [-> | ->]; [by left|by right]. }
        assert (Hamt : 0 < r1 <= residual cm (FF.f e1) u v).
        { rewrite Hres by (by left). lia. }
        pose proof (push_get2 n cm G Hnet (FF.f e1) u v r1 Hfe1 Hu Hv Huv Hamt) as Hget.
        pose proof (push_feasible n cm G Hnet (FF.f e1) u v r1 Hfe1 Hu Hv Huv Hamt) as Hfe2.
        pose proof (push_residual n cm G Hnet (FF.f e1) u v r1 Hfe1 Hu Hv Huv Hamt) as Hpr.
        change (FF.f (FF.push u v r1 e1))
          with (sub_at (add_at (FF.f e1) u v r1) v u r1).
        destruct (IHk e v (Z.min flow (residual cm (FF.f e) u v)) e1 r1
                    Hok Hfe Hv Hv0 Hst ltac:(lia) Hm Hrun1 (proj1 Hr1))
          as [Hmin | (x & y & Hxy & Hxy1)].
        -- destruct (Z.min_spec flow (residual cm (FF.f e) u v)) as [[_ Hm1]|[_ Hm1]];
             [left; lia|].
           right. exists u, v. split; [lia|].
           rewrite (residual_exact n cm G Hnet) by (by apply (feasible_bounded n)).
           rewrite Hget, decide_True by done.
           rewrite (residual_exact n cm G Hnet) in Hamt
             by (by apply (feasible_bounded n)).
           rewrite (residual_exact n cm G Hnet) in Hm1 by done.
           rewrite (residual_exact n cm G Hnet) in Hmin by done.
           rewrite Hframe in * by (by left). lia.
        -- right. exists x, y. split; [done|].
           rewrite Hpr; [done| |].
           ++ intros [-> ->]. rewrite Hres in Hxy1 by (by left). lia.
           ++ intros [-> ->]. rewrite Hres in Hxy1 by (by right). lia.
Qed.

Lemma ff_dfs_visit_tight t_ k : forall e v fl e' r,
  ff_ok n cm G e -> feasible n cm (FF.f e) -> (v < n)%nat ->
  stamp (FF.visited e) v = false -> stamp (FF.visited e) t_ = false ->
  0 < fl -> (unmarked (FF.visited e) <= k)%nat ->
  FF.dfs_visit k e v t_ fl = Some (e', r) -> 0 < r ->
  r = fl \/ exists x y, residual cm (FF.f e) x y = r /\ residual cm (FF.f e') x y = 0.
Proof.
  induction k as [|k IHk]; intros e v fl e' r Hok Hfe Hv Hsv Hst Hfl Hm Hrun Hr; [done|].
  pose proof Hok as (Hc & HG & Hn & Hlen).
  simpl in Hrun. destruct (Nat.eqb_spec v t_) as [->|Hvt].
  - injection Hrun as <- <-. by left.
  - set (e1 := FF.set_visited (<[v := true]> (FF.visited e)) e) in *.
    apply (ff_explore_tight k t_ v fl IHk (adj (FF.Gf e1) v) e1 e' r); try done.
    + split_and!; try done. simpl. by rewrite length_insert.
    + intros y Hy. simpl in Hy. rewrite HG in Hy. by eapply (net_lt _ _ _ Hnet).
    + simpl. apply stamp_insert_eq. lia.
    + simpl. by rewrite stamp_insert_ne.
    + pose proof (unmarked_insert (FF.visited e) v ltac:(lia) Hsv). simpl. lia.
Qed.

Lemma ff_dfs_tight e s t_ e' :
  ff_static n cm G e -> feasible n cm (FF.f e) -> (s < n)%nat ->
  FF.dfs e s t_ = Some (e', true) ->
  FF.augment e' = limits.inf \/
  exists x y, residual cm (FF.f e) x y = FF.augment e' /\ residual cm (FF.f e') x y = 0.
Proof.
  intros Hok Hfe Hs Hrun. pose proof Hok as (Hc & HG & Hn).
  unfold FF.dfs in Hrun.
  destruct (FF.dfs_visit (FF.n e) (FF.set_visited (replicate (FF.n e) false) e)
                         s t_ limits.inf) as [[e1 r]|] eqn:Hv; [|done].
  injection Hrun as <- Hr. apply Z.ltb_lt in Hr.
  apply (ff_dfs_visit_tight t_ _ _ _ _ _ _) in Hv; try done.
  - split_and!; try done. simpl. by rewrite length_replicate.
  - apply stamp_replicate.
  - apply stamp_replicate.
  - simpl. by rewrite unmarked_replicate.
Qed.

(** The first loop of [proc] returns the smallest residual capacity along
    the predecessors, or the amount it starts from. *)
Lemma ek_bottleneck_tight s e v p :
  ek_ok n cm G e -> pi_path (EK.pi e) s v p ->
  forall fuel a d, EK.bottleneck fuel e s v a = Some d ->
    d = a \/ exists i x y, p !! i = Some y /\ p !! S i = Some x /\
                           residual cm (EK.f e) x y = d.
Proof.
  intros Hok Hp. induction Hp as [|v u p Hvs Hpi Hp IH]; intros fuel a d Hrun.
  - destruct fuel as [|k]; [done|]. simpl in Hrun. rewrite Nat.eqb_refl in Hrun.
    left. congruence.
  - destruct fuel as [|k]; [done|]. simpl in Hrun.
    destruct (Nat.eqb_spec v s) as [|_]; [done|].
    unfold EK.pi_at in Hrun. rewrite Hpi in Hrun.
    destruct (Z.ltb_spec (Z.of_nat u) 0) as [|_]; [lia|].
    rewrite Nat2Z.id in Hrun.
    assert (Hcf : EK.cf e u v = residual cm (EK.f e) u v).
    { unfold EK.cf. by destruct Hok as (-> & _). }
    pose proof (pi_path_head _ _ _ _ Hp) as Hhd.
    destruct (IH _ _ _ Hrun) as [Hmin|(i & x & y & Hy & Hx & Hres)].
    + destruct (Z.min_spec a (EK.cf e u v)) as [[_ Hm]|[_ Hm]]; [left; lia|].
      right. exists O, u, v. split; [done|]. split; [|lia].
      destruct p; [done|]. simpl in *. congruence.
    + right. by exists (S i), x, y.
Qed.

Lemma ek_proc_tight s e t_ p e' d :
  ek_ok n cm G e -> feasible n cm (EK.f e) ->
  pi_path (EK.pi e) s t_ p -> NoDup p -> (forall x, x ∈ p -> (x < n)%nat) ->
  chain (fun x y => 0 < residual cm (EK.f e) x y) p ->
  EK.proc e s t_ = Some (e', d) ->
  d = limits.inf \/
  exists x y, residual cm (EK.f e) x y = d /\ residual cm (EK.f e') x y = 0.
Proof.
  intros Hok Hfe Hp Hnd Hlt Hch Hrun.
  destruct (ek_proc_spec n cm G s e t_ p Hok Hp Hnd Hlt Hch)
    as (e2 & d2 & Hproc & _ & Hd & Hap & Heq).
  rewrite Hrun in Hproc. injection Hproc as <- <-.
  unfold EK.proc in Hrun.
  destruct (EK.bottleneck (EK.n e) e s t_ limits.inf) as [d0|] eqn:Hbn; [|done].
  destruct (EK.update (EK.n e) e s t_ d0) as [e0|]; [|done].
  injection Hrun as _ ->.
  destruct (ek_bottleneck_tight s e t_ p Hok Hp _ _ _ Hbn)
    as [->|(i & x & y & Hy & Hx & Hres)]; [by left|].
  right. exists x, y. split; [done|].
  destruct Hap as [_ _ _ _ _ H6].
  pose proof (augment_back_chain d p (EK.f e) (EK.hist e) (proj1 Hd) Hfe Hnd Hlt H6) as Hup.
  apply (chain_lookup _ _ i x y) in Hup; [|done..].
  rewrite <- Heq in Hup. simpl in Hup.
  destruct (augment_back_spec n cm G d Hnet (proj1 Hd) p (EK.f e) (EK.hist e) Hfe Hnd Hlt H6)
    as (_ & _ & _ & Hfe' & _).
  rewrite <- Heq in Hfe'. simpl in Hfe'.
  rewrite (residual_exact n cm G Hnet) by (by apply (feasible_bounded n)).
  rewrite (residual_exact n cm G Hnet) in Hres by (by apply (feasible_bounded n)).
  lia.
Qed.
End tight.

(** X10. For every valid input with [s <> t], every augmentation of either
    engine is as large as its path allows: the amount pushed is
    [limits::inf], or it is the residual capacity [cf(x, y)] of some pair
    before the search, and after the update that pair has no residual
    capacity left. *)
Theorem augmentation_saturates (G : graph_t) (s t_ : nat) :
  valid_graph G -> (s < length G)%nat -> (t_ < length G)%nat -> s <> t_ ->
  (forall e e', ff_observed s t_ (FF.of_graph G) e ->
     FF.dfs e s t_ = Some (e', true) ->
     FF.augment e' = limits.inf \/
     exists x y, FF.cf e x y = FF.augment e' /\ FF.cf e' x y = 0) /\
  (forall e e1 e2 d, ek_observed s t_ (EK.of_graph G) e ->
     EK.bfs e s t_ = Some (e1, true) -> EK.proc e1 s t_ = Some (e2, d) ->
     d = limits.inf \/
     exists x y, EK.cf e x y = d /\ EK.cf e2 x y = 0).
Proof.
  intros Hvalid Hs Ht Hst.
  pose proof (start_network G Hvalid) as Hnet.
  destruct (ff_start G) as (Hok1 & Hf1 & Hh1).
  destruct (ek_start G) as (Hok2 & Hf2 & Hh2).
  pose proof (start_flow_inv G s t_ Hvalid) as Hinv0.
  split.
  - intros e e' Hobs Hrun.
    destruct (ff_observed_inv _ _ _ s t_ Hnet Hs Hst _ e Hok1) as [Hok Hinv];
      [by rewrite Hf1, Hh1|done|].
    pose proof (fi_feasible _ _ _ _ _ _ Hinv) as Hfe.
    destruct (ff_dfs_spec _ _ _ t_ Hnet e s Hok Hfe Hs) as (e1 & b & Hrun' & Hok' & _).
    rewrite Hrun in Hrun'. injection Hrun' as <- <-.
    unfold FF.cf. rewrite (proj1 Hok), (proj1 Hok').
    by apply (ff_dfs_tight _ _ _ Hnet e s t_ e').
  - intros e e1 e2 d Hobs Hrun Hproc.
    destruct (ek_observed_inv _ _ _ s t_ Hnet Hs Hst _ e Hok2) as [Hok Hinv];
      [by rewrite Hf2, Hh2|done|].
    pose proof (fi_feasible _ _ _ _ _ _ Hinv) as Hfe.
    destruct (ek_bfs_spec _ _ (EK.f e) _ s Hnet Hfe e t_ Hok eq_refl Hs)
      as (e1' & b & Hrun' & Hokb & Hfe1 & _ & Hb & _ & _ & Htree).
    rewrite Hrun in Hrun'. injection Hrun' as <- <-.
    destruct (Htree t_ (eq_sym Hb)) as (p & Hp & Hnd & Hlt & Hch).
    rewrite <- Hfe1 in Hch, Hfe.
    destruct (ek_proc_spec _ _ _ s e1 t_ p Hokb Hp Hnd Hlt Hch)
      as (e2' & d' & Hproc' & Hok2' & _).
    rewrite Hproc in Hproc'. injection Hproc' as <- <-.
    unfold EK.cf. rewrite (proj1 Hok), (proj1 Hok2'), <- Hfe1.
    by apply (ek_proc_tight _ _ _ Hnet s e1 t_ p e2 d).
Qed.

Lemma augmentation_saturates_witness :
  valid_graph scenario_B /\
  (forall e e', ff_observed 0 3 (FF.of_graph scenario_B) e ->
     FF.dfs e 0 3 = Some (e', true) ->
     FF.augment e' = limits.inf \/
     exists x y, FF.cf e x y = FF.augment e' /\ FF.cf e' x y = 0) /\
  (forall e e1 e2 d, ek_observed 0 3 (EK.of_graph scenario_B) e ->
     EK.bfs e 0 3 = Some (e1, true) -> EK.proc e1 0 3 = Some (e2, d) ->
     d = limits.inf \/
     exists x y, EK.cf e x y = d /\ EK.cf e2 x y = 0).
Proof.
  split; [apply valid_graphb_spec; reflexivity|].
  apply (augmentation_saturates scenario_B 0 3);
    [apply valid_graphb_spec; reflexivity|simpl; lia|simpl; lia|lia].
Defined.

(** ** [bfs] finds paths with the fewest edges *)

Lemma pi_path_unique pi s v p :
  pi_path pi s v p -> forall q, pi_path pi s v q -> p = q.
Proof.
  induction 1 as [|v u p Hvs Hpi Hp IH]; intros q Hq.
  - inversion Hq; [done|congruence].
  - inversion Hq as [|v' u' q' Hvs' Hpi' Hq']; subst; [done|].
    rewrite Hpi in Hpi'. apply Nat2Z.inj in Hpi'. subst u'. f_equal. by apply IH.
Qed.

Section ek_levels.
Context (n : nat) (cm fm : matrix_t) (G : list (list nat)) (s : nat).
Hypothesis Hnet : network n cm G.
Hypothesis Hfe : feasible n cm fm.

(** The [for] loop of [bfs] at a vertex [u] of the level [m]: what it adds
    to the queue is at the level [m + 1]. *)
Lemma ek_scan_lev u m D D' : forall vs e Q lev e' Q',
  bfs_lev n cm fm G s lev m D D' e Q -> D u -> lev u = m ->
  (forall v, v ∈ vs -> (v < n)%nat) ->
  EK.scan u vs e Q = (e', Q') ->
  exists lev',
    bfs_lev n cm fm G s lev' m D D' e' Q' /\ lev' u = m /\
    (forall x, stamp (EK.visited e) x = true ->
       lev' x = lev x /\ stamp (EK.visited e') x = true) /\
    (forall v, v ∈ vs -> residual cm fm u v <> 0 ->
       stamp (EK.visited e') v = true /\ (lev' v <= S m)%nat).
Proof.
  induction vs as [|v rest IH]; intros e Q lev e' Q' Hinv HDu Hlu Hvs Hrun.
  - simpl in Hrun. injection Hrun as <- <-. exists lev. split_and!; try done.
    intros v Hv. by apply elem_of_nil in Hv.
  - assert (Hrest : forall v0, v0 ∈ rest -> (v0 < n)%nat)
      by (intros; apply Hvs; by apply list_elem_of_further).
    assert (Hv : (v < n)%nat) by (apply Hvs, list_elem_of_here).
    pose proof Hinv as [Hok Hf Hlv Hlp Hdone Hsub Hsplit HQ Hsort Hnear Htree].
    assert (Hcf : EK.cf e u v = residual cm fm u v).
    { unfold EK.cf. destruct Hok as (-> & _). by rewrite Hf. }
    simpl in Hrun. rewrite Hcf in Hrun.
    destruct (stamp (EK.visited e) v || (residual cm fm u v =? 0)) eqn:Htest.
    + destruct (IH e Q lev e' Q' Hinv HDu Hlu Hrest Hrun)
        as (lev' & Hinv' & Hu' & Hsame & Hcov).
      exists lev'. split_and!; try done.
      intros v0 [->|Hin]%elem_of_cons Hres; [|by apply Hcov].
      apply orb_true_iff in Htest as [Hv0|Hz%Z.eqb_eq]; [|done].
      destruct (Hsame v Hv0) as [-> ?]. split; [done|].
      destruct (Hsplit v Hv0) as [HD|HinQ];
        [destruct (Hdone v HD); lia|destruct (HQ v HinQ); lia].
    + apply orb_false_iff in Htest as [Hv0 Hnz%Z.eqb_neq].
      destruct (Hdone u HDu) as [Hsu _].
      set (lev2 := fun x : nat => if decide (x = v) then S m else lev x).
      set (e2 := EK.set_search (<[v := Z.of_nat u]> (EK.pi e))
                               (<[v := true]> (EK.visited e)) e) in *.
      assert (Hmono2 : forall x, stamp (EK.visited e) x = true ->
                                 stamp (EK.visited e2) x = true).
      { intros x Hx. by apply stamp_insert_mono. }
      assert (Hv2 : stamp (EK.visited e2) v = true).
      { apply stamp_insert_eq. simpl. lia. }
      assert (Hold : forall x, stamp (EK.visited e) x = true -> lev2 x = lev x).
      { intros x Hx. unfold lev2. rewrite decide_False; [done|]. intros ->. congruence. }
      assert (Hnew : lev2 v = S m).
      { unfold lev2. by rewrite decide_True. }
      assert (Hinv2 : bfs_lev n cm fm G s lev2 m D D' e2 (Q ++ [v])).
      { split; try done.
        - simpl. by rewrite length_insert.
        - simpl. by rewrite length_insert.
        - intros x HD. destruct (Hdone x HD) as [Hx Hle].
          split; [by apply Hmono2|]. by rewrite Hold.
        - intros x Hx. destruct (decide (x = v)) as [->|Hne]; [right; set_solver|].
          simpl in Hx. rewrite stamp_insert_ne in Hx by done.
          destruct (Hsplit x Hx); [by left|right; set_solver].
        - intros x [Hx|Hx%list_elem_of_singleton]%elem_of_app.
          + destruct (HQ x Hx) as [Hsx Hle]. split; [by apply Hmono2|]. by rewrite Hold.
          + subst x. split; [done|]. rewrite Hnew. lia.
        - intros i j a b Hij Ha Hb.
          destruct (decide (b = v)) as [->|Hbv].
          + rewrite Hnew.
            assert (Hin : a ∈ Q ++ [v]) by (by eapply list_elem_of_lookup_2).
            apply elem_of_app in Hin as [Ha'|Ha'%list_elem_of_singleton].
            * destruct (HQ a Ha') as [Hsa Hle]. rewrite Hold by done. lia.
            * subst a. rewrite Hnew. lia.
          + assert (Hj : (j < length Q)%nat).
            { destruct (decide (j < length Q)%nat) as [|Hge]; [done|].
              rewrite lookup_app_r in Hb by lia.
              destruct (j - length Q)%nat as [|?]; simpl in Hb; [congruence|done]. }
            rewrite lookup_app_l in Hb by lia. rewrite lookup_app_l in Ha by lia.
            assert (Hsa : stamp (EK.visited e) a = true)
              by (eapply HQ, list_elem_of_lookup_2, Ha).
            assert (Hsb : stamp (EK.visited e) b = true)
              by (eapply HQ, list_elem_of_lookup_2, Hb).
            rewrite (Hold a Hsa), (Hold b Hsb). exact (Hsort i j a b Hij Ha Hb).
        - intros x y HD' Hy Hres. destruct (Hnear x y HD' Hy Hres) as [Hsy Hle].
          destruct (Hdone x (Hsub x HD')) as [Hsx _].
          split; [by apply Hmono2|]. by rewrite (Hold x), (Hold y).
        - intros x Hx. destruct (decide (x = v)) as [->|Hne].
          + destruct (Htree u Hsu) as (p & Hp & Hvis & Hlen).
            assert (Hvp : v ∉ p) by (intros Hin; apply Hvis in Hin; congruence).
            assert (Hss : stamp (EK.visited e) s = true).
            { apply Hvis. eapply last_Some_elem_of, pi_path_last. done. }
            exists (v :: p). split_and!.
            * econstructor; [intros ->; congruence| |by apply pi_path_insert].
              simpl. rewrite list_lookup_insert_eq by lia. done.
            * intros y [->|Hy]%elem_of_cons; [done|]. by apply Hmono2, Hvis.
            * simpl. rewrite Hlen, Hnew. lia.
          + simpl in Hx. rewrite stamp_insert_ne in Hx by done.
            destruct (Htree x Hx) as (p & Hp & Hvis & Hlen).
            exists p. split_and!.
            * apply pi_path_insert; [|done]. intros Hin. apply Hvis in Hin. congruence.
            * intros y Hy. by apply Hmono2, Hvis.
            * rewrite Hlen. by rewrite Hold. }
      destruct (IH e2 (Q ++ [v]) lev2 e' Q' Hinv2 HDu) as (lev' & Hinv' & Hu' & Hsame & Hcov);
        [by rewrite Hold|done|done|].
      exists lev'. split_and!; try done.
      * intros x Hx. destruct (Hsame x (Hmono2 x Hx)) as [-> ?]. split; [by apply Hold|done].
      * intros v0 [->|Hin]%elem_of_cons Hres; [|by apply Hcov].
        destruct (Hsame v Hv2) as [-> ?]. split; [done|]. rewrite Hnew. lia.
Qed.

(** The [while] loop of [bfs]: when it ends, every stamped vertex has left
    the queue, and the level grows by at most one along a residual pair. *)
Lemma ek_drain_lev fuel : forall e Q lev m D e',
  bfs_lev n cm fm G s lev m D D e Q -> EK.drain fuel e Q = Some e' ->
  exists lev' m' D', bfs_lev n cm fm G s lev' m' D' D' e' [].
Proof.
  induction fuel as [|k IH]; intros e Q lev m D e' Hinv Hrun; [done|].
  destruct Q as [|u Q].
  - simpl in Hrun. injection Hrun as <-. by exists lev, m, D.
  - pose proof Hinv as [Hok Hf Hlv Hlp Hdone Hsub Hsplit HQ Hsort Hnear Htree].
    destruct (HQ u (list_elem_of_here _ _)) as [Hsu Hlu].
    assert (Hinv0 : bfs_lev n cm fm G s lev (lev u) (fun x => D x \/ x = u) D e Q).
    { split; try done.
      - intros x [HD| ->]; [|split; [done|lia]].
        destruct (Hdone x HD). split; [done|lia].
      - intros x HD. by left.
      - intros v Hv. destruct (Hsplit v Hv) as [HD|[->|Hin]%elem_of_cons]; auto.
      - intros x Hx.
        destruct (HQ x (list_elem_of_further _ _ _ Hx)) as [Hsx Hle]. split; [done|].
        apply list_elem_of_lookup in Hx as [j Hj].
        pose proof (Hsort O (S j) u x ltac:(lia) eq_refl Hj). lia.
      - intros i j a b Hij Ha Hb. apply (Hsort (S i) (S j)); [lia|done..]. }
    simpl in Hrun. destruct (EK.scan u (adj (EK.Gf e) u) e Q) as [e1 Q1] eqn:Hscan.
    destruct Hok as (_ & HG & _). rewrite HG in Hscan.
    destruct (ek_scan_lev u (lev u) _ _ (adj G u) e Q lev e1 Q1 Hinv0)
      as (lev' & Hinv1 & Hu' & Hsame & Hcov); [by right|done| |done|].
    { intros v Hv. by eapply (net_lt _ _ _ Hnet). }
    assert (Hinv2 : bfs_lev n cm fm G s lev' (lev u)
                            (fun x => D x \/ x = u) (fun x => D x \/ x = u) e1 Q1).
    { destruct Hinv1 as [Hok1 Hf1 Hlv1 Hlp1 Hdone1 Hsub1 Hsplit1 HQ1 Hsort1 Hnear1 Htree1].
      split; try done.
      intros x y [HD| ->] Hy Hres; [by apply (Hnear1 x y)|].
      destruct (Hcov y Hy Hres) as [? ?]. split; [done|]. by rewrite Hu'. }
    exact (IH e1 Q1 lev' (lev u) _ e' Hinv2 Hrun).
Qed.

(** [bfs] on an engine whose flow matrix is [fm]: the levels of the stamped
    vertices. *)
Lemma ek_bfs_lev e t_ e' b :
  ek_ok n cm G e -> EK.f e = fm -> (s < n)%nat ->
  EK.bfs e s t_ = Some (e', b) ->
  exists lev : nat -> nat,
    (forall v, stamp (EK.visited e') v = true ->
       exists p, pi_path (EK.pi e') s v p /\ length p = S (lev v)) /\
    (forall x y, stamp (EK.visited e') x = true -> 0 < residual cm fm x y ->
       stamp (EK.visited e') y = true /\ (lev y <= S (lev x))%nat).
Proof.
  intros Hok Hf Hs Hrun. pose proof Hok as (Hc & HG & Hn).
  unfold EK.bfs in Hrun.
  set (e0 := EK.set_search (<[s := limits.nil]> (replicate (EK.n e) limits.nil))
                           (<[s := true]> (replicate (EK.n e) false)) e) in *.
  destruct (EK.drain (S (EK.n e)) e0 [s]) as [e1|] eqn:Hdrain; [|done].
  injection Hrun as <- <-.
  assert (Hinv0 : bfs_lev n cm fm G s (fun _ => O) O (fun _ => False) (fun _ => False)
                          e0 [s]).
  { assert (Hone : forall v, stamp (EK.visited e0) v = true -> v = s).
    { intros v Hv. simpl in Hv. destruct (decide (s = v)) as [|Hne]; [done|].
      rewrite stamp_insert_ne, stamp_replicate in Hv; done. }
    assert (Hs0 : stamp (EK.visited e0) s = true).
    { simpl. apply stamp_insert_eq. rewrite length_replicate. lia. }
    split; try done.
    - simpl. rewrite length_insert, length_replicate. done.
    - simpl. rewrite length_insert, length_replicate. done.
    - intros v ->%Hone. right. apply list_elem_of_here.
    - intros x ->%list_elem_of_singleton. split; [done|lia].
    - intros v ->%Hone. exists [s]. split_and!; [constructor| |done].
      by intros x ->%list_elem_of_singleton. }
  destruct (ek_drain_lev _ e0 [s] _ _ _ e1 Hinv0 Hdrain) as (lev & m & D & Hinv).
  destruct Hinv as [Hok1 Hf1 Hlv1 Hlp1 Hdone1 Hsub1 Hsplit1 HQ1 Hsort1 Hnear1 Htree1].
  exists lev. split.
  - intros v Hv. destruct (Htree1 v Hv) as (p & Hp & _ & Hlen). by exists p.
  - intros x y Hx Hres. destruct (Hsplit1 x Hx) as [HD|[]%elem_of_nil].
    apply (Hnear1 x y HD); [|lia].
    pose proof (feasible_bounded _ _ _ Hfe) as Hb.
    rewrite (residual_exact n cm G Hnet) in Hres by done.
    destruct (decide (get cm x y = 0)) as [Hz|Hnz].
    + apply (net_adj _ _ _ Hnet y x). specialize (Hb x y). lia.
    + by apply (net_adj _ _ _ Hnet x y).
Qed.

(** A residual path to a vertex of the level [k] has at least [k] edges. *)
Lemma lev_shortest (lev : nat -> nat) (St : nat -> bool) :
  St s = true -> lev s = O ->
  (forall x y, St x = true -> 0 < residual cm fm x y ->
     St y = true /\ (lev y <= S (lev x))%nat) ->
  forall q v, head q = Some v -> last q = Some s ->
    chain (fun x y => 0 < residual cm fm x y) q ->
    St v = true /\ (S (lev v) <= length q)%nat.
Proof.
  intros Hs H0 Hnear. induction q as [|y [|x tl] IH]; intros v Hhd Hl Hch; [done| |].
  - simpl in Hhd, Hl. simplify_eq. split; [done|]. simpl. lia.
  - simpl in Hhd. injection Hhd as <-. destruct Hch as [Hxy Hch].
    rewrite last_cons_cons in Hl.
    destruct (IH x eq_refl Hl Hch) as [Hx Hle].
    destruct (Hnear x y Hx Hxy) as [Hy Hle'].
    split; [done|]. simpl in *. lia.
Qed.
End ek_levels.

(** X11. For every valid input with [s <> t], each [bfs] of
    [edmonds_karp::compute] returns, and the chain of predecessors [pi] it
    leaves for a stamped vertex is a path of positive residual capacity
    from [s] with the fewest edges: no such path to that vertex is shorter.
    When [bfs] has reached [t], [proc] pushes its amount along that chain
    for [t], so every augmentation of [edmonds_karp] follows a shortest
    augmenting path. *)
Theorem bfs_finds_shortest_paths (G : graph_t) (s t_ : nat) :
  valid_graph G -> (s < length G)%nat -> (t_ < length G)%nat -> s <> t_ ->
  forall e, ek_observed s t_ (EK.of_graph G) e ->
    exists e1 b, EK.bfs e s t_ = Some (e1, b) /\
      (forall v, stamp (EK.visited e1) v = true ->
         exists p, pi_path (EK.pi e1) s v p /\
                   chain (fun x y => 0 < EK.cf e x y) p /\
                   forall q, head q = Some v -> last q = Some s ->
                             chain (fun x y => 0 < EK.cf e x y) q ->
                             (length p <= length q)%nat) /\
      (b = true ->
         exists p e2 d, pi_path (EK.pi e1) s t_ p /\
                        EK.proc e1 s t_ = Some (e2, d) /\
                        (EK.f e2, EK.hist e2) = augment_back d p (EK.f e, EK.hist e)).
Proof.
  intros Hvalid Hs Ht Hst e Hobs.
  pose proof (start_network G Hvalid) as Hnet.
  destruct (ek_start G) as (Hok2 & Hf2 & Hh2).
  pose proof (start_flow_inv G s t_ Hvalid) as Hinv0.
  destruct (ek_observed_inv _ _ _ s t_ Hnet Hs Hst _ e Hok2) as [Hok Hinv];
    [by rewrite Hf2, Hh2|done|].
  pose proof (fi_feasible _ _ _ _ _ _ Hinv) as Hfe.
  destruct (ek_bfs_spec _ _ (EK.f e) _ s Hnet Hfe e t_ Hok eq_refl Hs)
    as (e1 & b & Hrun & Hok1 & Hf1 & Hh1 & Hb & Hs1 & Hcl & Htree).
  destruct (ek_bfs_lev _ _ (EK.f e) _ s Hnet Hfe e t_ e1 b Hok eq_refl Hs Hrun)
    as (lev & Hlen & Hnear).
  assert (Hl0 : lev s = O).
  { destruct (Hlen s Hs1) as (p & Hp & Hl).
    rewrite <- (pi_path_unique _ _ _ _ (pi_path_root _ _) _ Hp) in Hl. simpl in Hl. lia. }
  exists e1, b. split; [done|]. split.
  - intros v Hv. destruct (Htree v Hv) as (p & Hp & Hnd & Hlt & Hch).
    exists p. unfold EK.cf. rewrite (proj1 Hok). split; [done|]. split; [done|].
    intros q Hhd Hl Hq.
    destruct (Hlen v Hv) as (p' & Hp' & Hl').
    rewrite (pi_path_unique _ _ _ _ Hp _ Hp'), Hl'.
    by apply (lev_shortest (built_c (length G) (concat G)) (EK.f e) s lev
                (stamp (EK.visited e1)) Hs1 Hl0 Hnear q v).
  - intros ->. destruct (Htree t_ (eq_sym Hb)) as (p & Hp & Hnd & Hlt & Hch).
    rewrite <- Hf1 in Hch.
    destruct (ek_proc_spec _ _ _ s e1 t_ p Hok1 Hp Hnd Hlt Hch)
      as (e2 & d & Hproc & _ & _ & _ & Heq).
    exists p, e2, d. split; [done|]. split; [done|]. by rewrite <- Hf1, <- Hh1.
Qed.

Lemma bfs_finds_shortest_paths_witness :
  valid_graph scenario_B /\
  forall e, ek_observed 0 3 (EK.of_graph scenario_B) e ->
    exists e1 b, EK.bfs e 0 3 = Some (e1, b) /\
      (forall v, stamp (EK.visited e1) v = true ->
         exists p, pi_path (EK.pi e1) 0 v p /\
                   chain (fun x y => 0 < EK.cf e x y) p /\
                   forall q, head q = Some v -> last q = Some 0%nat ->
                             chain (fun x y => 0 < EK.cf e x y) q ->
                             (length p <= length q)%nat) /\
      (b = true ->
         exists p e2 d, pi_path (EK.pi e1) 0 3 p /\
                        EK.proc e1 0 3 = Some (e2, d) /\
                        (EK.f e2, EK.hist e2) = augment_back d p (EK.f e, EK.hist e)).
Proof.
  split; [apply valid_graphb_spec; reflexivity|].
  apply (bfs_finds_shortest_paths scenario_B 0 3);
    [apply valid_graphb_spec; reflexivity|simpl; lia|simpl; lia|lia].
Defined.

(** ** [dfs] misses no path *)

(** X12. [ford_fulkerson::dfs] is a complete search.  On every engine
    whose flow matrix is a flow of its network, [dfs(s, t)] returns, and it
    returns true exactly when [t] can be reached from [s] through pairs of
    positive residual capacity: the order of the rows and the stamps left
    by the branches that failed never hide a path. *)
Theorem dfs_finds_a_path_when_one_exists (n : nat) (cm : matrix_t) (G : list (list nat))
        (e : FF.t) (s t_ : nat) :
  network n cm G -> ff_static n cm G e -> feasible n cm (FF.f e) -> (s < n)%nat ->
  exists e' b, FF.dfs e s t_ = Some (e', b) /\ (b = true <-> reach cm (FF.f e) s t_).
Proof.
  intros Hnet Hok Hfe Hs.
  destruct (ff_dfs_spec n cm G t_ Hnet e s Hok Hfe Hs) as (e' & b & Hrun & _ & Hb).
  exists e', b. split; [done|]. destruct b.
  - split; [intros _|done]. destruct Hb as (Ha & p & Hp & _).
    exact (aug_path_reach _ _ _ _ _ _ _ _ _ Hnet (feasible_bounded _ _ _ Hfe) (proj1 Ha) Hp).
  - split; [done|]. intros Hr. destruct Hb as (_ & _ & Hs1 & Ht1 & Hcl).
    assert (Hst : s <> t_) by (intros ->; congruence).
    pose proof (closed_unreachable n cm G s t_ Hnet Hst _ _ Hfe Hcl Hs1 t_ Hr). congruence.
Qed.

Lemma dfs_finds_a_path_when_one_exists_witness :
  exists e' b, FF.dfs (FF.of_graph scenario_B) 0 3 = Some (e', b) /\
               (b = true <-> reach (built_c 4 (concat scenario_B))
                                   (FF.f (FF.of_graph scenario_B)) 0 3).
Proof.
  apply (dfs_finds_a_path_when_one_exists 4 (built_c 4 (concat scenario_B))
           (built_G 4 (concat scenario_B)) (FF.of_graph scenario_B) 0 3).
  - apply (start_network scenario_B). apply valid_graphb_spec. reflexivity.
  - apply (ff_start scenario_B).
  - apply (start_feasible scenario_B). apply valid_graphb_spec. reflexivity.
  - lia.
Defined.
